(** * ASCII art to raster: the two renderers of site.2022

    A shallow embedding of [ascii-to-image.js] (class [AsciiToImage], the
    Intensity Renderer) and of [js/ascii-to-canvas.js] (class
    [AsciiToCanvas], the Glyph Renderer), with the properties their
    specification states about them.

    Conventions.
    - A JavaScript string is the list of its UTF-16 code units ([jsstring]);
      [s[i]] and [s.length] count code units, as in the language.
    - A JavaScript number that the code only ever uses as an integer
      (a brightness, a length, a loop index, the size a canvas holds) is
      a [Z] or a [nat].  Sizes and coordinates, which the configuration
      makes fractional ([pixelSize: 2.5]), are IEEE 754 binary64 numbers
      with the arithmetic of the standard library's [SpecFloat], so that
      a product is rounded as the language rounds it.  The components of
      an [hsl(...)] colour, of which only the ranges are stated, are
      exact rationals [Qc].
    - A plain object used as a table is a [gmap] from property names
      (strings) to values; the [Proxy] wrapped around it is the function
      that is its [get] trap. *)

From Stdlib Require Import Ascii String ZArith QArith Qcanon Qround Lia.
From Stdlib Require Import Floats.SpecFloat.
From stdpp Require Import gmap list strings numbers.

Open Scope Z_scope.

(** ** The fragment of JavaScript the renderers use *)

Module JS.

Abbreviation jsstring := (list Z).

(** Source text is UTF-8; a string literal of the program is the UTF-16
    transcoding of its bytes. *)
Fixpoint utf16_of_utf8 (bs : list Z) : list Z :=
  match bs with
  | [] => []
  | b0 :: r =>
      if b0 <? 128 then b0 :: utf16_of_utf8 r
      else if b0 <? 224 then
        match r with
        | b1 :: r1 => ((b0 mod 32) * 64 + b1 mod 64) :: utf16_of_utf8 r1
        | _ => []
        end
      else if b0 <? 240 then
        match r with
        | b1 :: b2 :: r2 =>
            ((b0 mod 16) * 4096 + (b1 mod 64) * 64 + b2 mod 64)
              :: utf16_of_utf8 r2
        | _ => []
        end
      else
        match r with
        | b1 :: b2 :: b3 :: r3 =>
            let cp := (b0 mod 8) * 262144 + (b1 mod 64) * 4096
                      + (b2 mod 64) * 64 + b3 mod 64 - 65536 in
            (55296 + cp / 1024) :: (56320 + cp mod 1024) :: utf16_of_utf8 r3
        | _ => []
        end
  end.

Definition js (s : string) : jsstring :=
  utf16_of_utf8 ((λ a, Z.of_N (N_of_ascii a)) <$> list_ascii_of_string s).

(** Code units the program names through escapes. *)
Definition TAB : Z := 9.
Definition LF : Z := 10.
Definition CR : Z := 13.
Definition SPACE : Z := 32.
Definition DQUOTE : Z := 34.
Definition SQUOTE : Z := 39.
Definition BACKSLASH : Z := 92.

(** [s.charCodeAt(0)] of a string; [NaN] on the empty string is not a
    number the renderers ever meet, they index one unit at a time. *)
Definition charCodeAt0 (s : jsstring) : Z := default 0 (head s).

(** [s.split(sep)] for a one-unit separator: never an empty array. *)
Fixpoint split (sep : Z) (s : jsstring) : list jsstring :=
  match s with
  | [] => [[]]
  | c :: s' =>
      if decide (c = sep) then [] :: split sep s'
      else match split sep s' with
           | l :: ls => (c :: l) :: ls
           | [] => [[c]]
           end
  end.

(** White space and line terminators, the units [trim] removes. *)
Definition is_white (c : Z) : bool :=
  bool_decide (c ∈ [9; 10; 11; 12; 13; 32; 160; 5760; 8232; 8233; 8239;
                    8287; 12288; 65279])
  || ((8192 <=? c) && (c <=? 8202)).

Fixpoint trimStart (s : jsstring) : jsstring :=
  match s with
  | c :: s' => if is_white c then trimStart s' else s
  | [] => []
  end.

Definition trim (s : jsstring) : jsstring :=
  reverse (trimStart (reverse (trimStart s))).

(** [Math.max(...xs)]; of no argument it is [-Infinity], here [None]. *)
Definition Math_max (xs : list Z) : option Z :=
  match xs with
  | [] => None
  | x :: xs' => Some (foldl Z.max x xs')
  end.

(** *** Numbers

    A number is a binary64 value: [prec] bits of mantissa, exponents
    below [emax]. *)
Abbreviation number := spec_float.

Definition prec : Z := 53.
Definition emax : Z := 1024.

Definition mul : number → number → number := SFmul prec emax.
Definition add : number → number → number := SFadd prec emax.
Definition sub : number → number → number := SFsub prec emax.
Definition div : number → number → number := SFdiv prec emax.

Declare Scope number_scope.
Delimit Scope number_scope with num.
Infix "*" := mul : number_scope.
Infix "+" := add : number_scope.
Infix "-" := sub : number_scope.
Infix "/" := div : number_scope.

(** The number nearest to [z / 2 ^ k]; an integer as a number. *)
Definition dyadic (z k : Z) : number :=
  binary_normalize prec emax z (- k) false.

Definition of_Z (z : Z) : number := dyadic z 0.

Definition of_nat (n : nat) : number := of_Z (Z.of_nat n).

(** The exponent of [z / 2 ^ k] as a number, and the number itself in
    its canonical form, for [z] below 2^53 and [k] up to 1074. *)
Definition cexp (z k : Z) : Z := Z.max (Z.log2 z + 1 - k - 53) (-1074).

Definition canon (s : bool) (z k : Z) : number :=
  S754_finite s (Z.to_pos (z * 2 ^ (- k - cexp z k))) (cexp z k).

Definition fits (z k : Z) : Prop := 0 ≤ z < 2 ^ 53 ∧ 0 ≤ k ≤ 1074.

(** A decimal literal [n / d] of the program, such as [2.5]: the number
    nearest to it, which is also what dividing [n] by [d] gives. *)
Definition decimal (n d : Z) : number := (of_Z n / of_Z d)%num.

(** The exact value of a finite number. *)
Definition real (x : number) : Q :=
  match x with
  | S754_finite s m e =>
      if 0 <=? e then inject_Z (cond_Zopp s (Z.pos m * 2 ^ e))
      else Qmake (cond_Zopp s (Z.pos m)) (Z.to_pos (2 ^ (- e)))
  | _ => 0%Q
  end.

(** The integer part of a number, 0 for [NaN] and the infinities: the
    first step of the conversions to an integer. *)
Definition truncate (x : number) : Z :=
  match x with
  | S754_finite s m e =>
      if 0 <=? e then cond_Zopp s (Z.pos m * 2 ^ e)
      else cond_Zopp s (Z.pos m / 2 ^ (- e))
  | _ => 0
  end.

Definition ToUint32 (x : number) : Z := truncate x mod 2 ^ 32.

Definition ToInt32 (x : number) : Z :=
  let u := ToUint32 x in if u <? 2 ^ 31 then u else u - 2 ^ 32.

(** [Math.ceil]: the least integer that is not below the number, [-0]
    for a number between -1 and 0. *)
Definition Math_ceil (x : number) : number :=
  match x with
  | S754_finite s m e =>
      if 0 <=? e then x
      else
        match - (- cond_Zopp s (Z.pos m) / 2 ^ (- e)) with
        | 0 => S754_zero s
        | z => of_Z z
        end
  | _ => x
  end.

(** The numbers that count as false: [0], [-0] and [NaN]. *)
Definition falsy (x : number) : bool :=
  match x with
  | S754_zero _ | S754_nan => true
  | _ => false
  end.

(** [a || b] on an optional number: [undefined] ([None]) and the falsy
    numbers give [b]. *)
Definition or_num (a : option number) (b : number) : number :=
  match a with
  | Some x => if falsy x then b else x
  | None => b
  end.

Definition or_nat (a : option nat) (b : nat) : nat :=
  match a with
  | Some (S n) => S n
  | _ => b
  end.

(** [a || b] on an optional string: [undefined] and [''] are falsy. *)
Definition or_str (a : option jsstring) (b : jsstring) : jsstring :=
  match a with
  | Some (c :: s) => c :: s
  | _ => b
  end.

(** [x % m] on non-negative numbers. *)
Definition Qc_rem (x m : Qc) : Qc :=
  (x - m * Qc_of_Z (Qfloor (x / m)))%Qc.

(** *** Regular expressions

    Backtracking matching as the language defines it, for the operators
    the program's patterns are built from: a character, a class, a
    greedy or lazy star over one of these, concatenation, one capture
    group, and [$]. *)

Inductive atom :=
| Chr (c : Z)              (* a pattern character *)
| OneOf (cs : list Z)      (* [...] *)
| NoneOf (cs : list Z)     (* [^...] *)
| AnyUnit.                 (* [\s\S] *)

Inductive regex :=
| Empty
| Atom (a : atom)
| Star (a : atom)          (* a* *)
| LazyStar (a : atom)      (* a*? *)
| Group (r : regex)        (* ( r ), group 1 *)
| Cat (r1 r2 : regex)
| EndOfInput.              (* $ without the m flag *)

(** Canonicalisation under the [i] flag.  Upper-casing is restricted to
    the ASCII letters: a unit above 127 never canonicalises to one below
    128, so this is exact for patterns whose characters are all ASCII, as
    are all patterns here. *)
Definition canonicalize (icase : bool) (c : Z) : Z :=
  if icase && (97 <=? c) && (c <=? 122) then c - 32 else c.

Definition unit_eqb (icase : bool) (a b : Z) : bool :=
  canonicalize icase a =? canonicalize icase b.

Definition atom_matches (icase : bool) (a : atom) (c : Z) : bool :=
  match a with
  | Chr p => unit_eqb icase p c
  | OneOf cs => existsb (λ p, unit_eqb icase p c) cs
  | NoneOf cs => negb (existsb (λ p, unit_eqb icase p c) cs)
  | AnyUnit => true
  end.

Section Matcher.
Context {R : Type}.

(** Greedy star: the longest run first, then shorter ones. *)
Fixpoint star_greedy (p : Z → bool) (s : jsstring)
    (k : jsstring → option R) : option R :=
  match s with
  | c :: s' =>
      if p c then
        match star_greedy p s' k with
        | Some r => Some r
        | None => k s
        end
      else k s
  | [] => k []
  end.

(** Lazy star: the empty run first, then longer ones. *)
Fixpoint star_lazy (p : Z → bool) (s : jsstring)
    (k : jsstring → option R) : option R :=
  match k s with
  | Some r => Some r
  | None =>
      match s with
      | c :: s' => if p c then star_lazy p s' k else None
      | [] => None
      end
  end.

(** [rmatch icase r s cap k]: match [r] at the head of [s], then
    continue with [k] on what is left and the capture so far. *)
Fixpoint rmatch (icase : bool) (r : regex) (s : jsstring)
    (cap : option jsstring)
    (k : jsstring → option jsstring → option R) : option R :=
  match r with
  | Empty => k s cap
  | Atom a =>
      match s with
      | c :: s' => if atom_matches icase a c then k s' cap else None
      | [] => None
      end
  | Star a => star_greedy (atom_matches icase a) s (λ s', k s' cap)
  | LazyStar a => star_lazy (atom_matches icase a) s (λ s', k s' cap)
  | Group r1 =>
      rmatch icase r1 s cap
        (λ s' _, k s' (Some (take (length s - length s') s)))
  | Cat r1 r2 =>
      rmatch icase r1 s cap (λ s' cap', rmatch icase r2 s' cap' k)
  | EndOfInput =>
      match s with
      | [] => k [] cap
      | _ :: _ => None
      end
  end.
End Matcher.

(** A successful match: the text before it, the matched text, group 1
    and the text after it. *)
Record found := Found {
  before : jsstring;
  matched : jsstring;
  group1 : option jsstring;
  after : jsstring
}.

Definition match_here (icase : bool) (r : regex) (s : jsstring)
    : option found :=
  rmatch icase r s None
    (λ s' cap, Some (Found [] (take (length s - length s') s) cap s')).

(** The leftmost position at which the pattern matches. *)
Fixpoint search (icase : bool) (r : regex) (s : jsstring) : option found :=
  match match_here icase r s with
  | Some m => Some m
  | None =>
      match s with
      | [] => None
      | c :: s' =>
          match search icase r s' with
          | Some m => Some (Found (c :: before m) (matched m) (group1 m)
                                 (after m))
          | None => None
          end
      end
  end.

(** [s.match(re)] for a pattern without the [g] flag: [null], or the
    array whose element 0 is the match and element 1 the group. *)
Definition str_match (icase : bool) (r : regex) (s : jsstring)
    : option (jsstring * option jsstring) :=
  (λ m, (matched m, group1 m)) <$> search icase r s.

(** [s.replace(re, repl)] without the [g] flag, for a replacement text
    free of [$]: the first match only. *)
Definition replace (icase : bool) (r : regex) (repl s : jsstring)
    : jsstring :=
  match search icase r s with
  | Some m => before m ++ repl ++ after m
  | None => s
  end.

(** [s.replace(re, repl)] with the [g] flag: every match, left to right,
    each search resuming where the previous match ended (one unit later
    after an empty match). *)
Fixpoint replace_all_from (fuel : nat) (icase : bool) (r : regex)
    (repl s : jsstring) : jsstring :=
  match fuel with
  | O => s
  | S fuel' =>
      match search icase r s with
      | None => s
      | Some m =>
          match matched m, after m with
          | [], [] => before m ++ repl
          | [], c :: rest =>
              before m ++ repl ++ c :: replace_all_from fuel' icase r repl rest
          | _ :: _, rest =>
              before m ++ repl ++ replace_all_from fuel' icase r repl rest
          end
      end
  end.

Definition replace_all (icase : bool) (r : regex) (repl s : jsstring)
    : jsstring :=
  replace_all_from (S (length s)) icase r repl s.

(** Pattern text: the units of an ASCII literal, in sequence. *)
Definition lit (s : string) : regex :=
  foldr (λ c r, Cat (Atom (Chr c)) r) Empty (js s).

Definition cat (rs : list regex) : regex := foldr Cat Empty rs.

(** What a function body does: return a value or throw an [Error]. *)
Inductive completion (A : Type) :=
| Return (a : A)
| Throw (message : jsstring).
Arguments Return {A} a.
Arguments Throw {A} message.

End JS.

Import JS.

(** ** The Intensity Renderer: [class AsciiToImage] *)

Module AsciiToImage.

(** The table [buildCharMap] fills before it wraps it in the [Proxy]:
    the assignments of the source, in the order it makes them, so that a
    later one replaces an earlier one on the same key. *)

Definition lightChars : list jsstring :=
  js <$> ["@"; "#"; "$"; "%"; "&"; "*"; "+"; "="; "~";
          "█"; "▓"; "▒"; "░"]%string.

Definition mediumChars : list jsstring :=
  js <$> ["A"; "B"; "C"; "D"; "E"; "F"; "G"; "H"; "I"; "J"; "K"; "L"; "M";
          "N"; "O"; "P"; "Q"; "R"; "S"; "T"; "U"; "V"; "W"; "X"; "Y"; "Z";
          "0"; "1"; "2"; "3"; "4"; "5"; "6"; "7"; "8"; "9"]%string.

(** [xs.forEach((char, i) => { map[char] = f(char, i) })] *)
Definition forEach_assign (xs : list jsstring) (f : jsstring → Z → Z)
    (map : gmap jsstring Z) : gmap jsstring Z :=
  foldl (λ m ci, <[ci.2 := f ci.2 (Z.of_nat ci.1)]> m) map (imap pair xs).

(** A run of [map[k] = v;] statements. *)
Definition assign_all (kvs : list (jsstring * Z)) (map : gmap jsstring Z)
    : gmap jsstring Z :=
  foldl (λ m kv, <[kv.1 := kv.2]> m) map kvs.

Definition charTable : gmap jsstring Z :=
  let map := ∅ in
  (* Whitespace = black (0) *)
  let map := assign_all [([SPACE], 0); ([TAB], 0); ([LF], 0)] map in
  (* Light characters = bright *)
  let map := forEach_assign lightChars (λ _ i, 255 - i * 10) map in
  (* Medium characters *)
  let map := forEach_assign mediumChars (λ _ _, 180) map in
  (* Line drawing characters *)
  let map := assign_all
    [(js "─", 200); (js "│", 200); (js "┌", 200); (js "┐", 200);
     (js "└", 200); (js "┘", 200); (js "├", 200); (js "┤", 200);
     (js "┬", 200); (js "┴", 200); (js "┼", 200); (js "═", 200);
     (js "║", 200); (js "╔", 200); (js "╗", 200); (js "╚", 200);
     (js "╝", 200); (js "╠", 200); (js "╣", 200); (js "╦", 200);
     (js "╩", 200); (js "╬", 200);
     (js "_", 150); (js "|", 200); (js "-", 150); (js "=", 200);
     ([BACKSLASH], 180); (js "/", 180)] map in
  (* Common ASCII art characters *)
  let map := assign_all
    [(js ".", 100); (js ",", 80); (js ":", 120); (js ";", 100);
     ([SQUOTE], 90); ([DQUOTE], 100); (js "`", 70); (js "^", 140);
     (js "~", 130); (js "*", 220); (js "+", 160); (js "o", 140);
     (js "O", 180); (js "x", 150); (js "X", 190); (js "#", 240);
     (js "@", 255)] map in
  map.

(** The [get] trap of the [Proxy]: an own key of the table; else, for a
    one-unit string, its code; else medium gray.  (Names inherited from
    [Object.prototype] are all longer than one unit and are never looked
    up: [convert] indexes the map by single units only.) *)
Definition charMap_get (target : gmap jsstring Z) (prop : jsstring) : Z :=
  match target !! prop with
  | Some v => v
  | None =>
      if decide (length prop = 1%nat)
      then Z.min 255 (charCodeAt0 prop mod 256)
      else 128
  end.

(** The brightness of a character under the map the constructor builds. *)
Definition brightness (c : Z) : Z := charMap_get charTable [c].

(** [stripHtml]: tags become spaces, then six character references
    are decoded, each by one global replacement, in this order. *)
Definition re_tag : regex :=
  cat [Atom (Chr 60); Star (NoneOf [62]); Atom (Chr 62)].

Definition stripHtml (html : jsstring) : jsstring :=
  let s := replace_all false re_tag [SPACE] html in
  let s := replace_all false (lit "&nbsp;") [SPACE] s in
  let s := replace_all false (lit "&amp;") (js "&") s in
  let s := replace_all false (lit "&lt;") (js "<") s in
  let s := replace_all false (lit "&gt;") (js ">") s in
  let s := replace_all false (lit "&quot;") [DQUOTE] s in
  let s := replace_all false (lit "&#39;") [SQUOTE] s in
  s.

(** The two patterns of [extractFromHtml], both under the [i] flag:
    [<pre[^>]*class=["']ascii["'][^>]*>([\s\S]*?)<\/pre>] and
    [<pre[^>]*>([\s\S]*?)<\/pre>].  Each is an opening tag followed by
    the captured body and the closing tag. *)
Definition re_open_ascii : regex :=
  cat [lit "<pre"; Star (NoneOf [62]); lit "class=";
       Atom (OneOf [DQUOTE; SQUOTE]); lit "ascii";
       Atom (OneOf [DQUOTE; SQUOTE]); Star (NoneOf [62]); Atom (Chr 62)].

Definition re_open_pre : regex :=
  cat [lit "<pre"; Star (NoneOf [62]); Atom (Chr 62)].

Definition re_body_close : regex :=
  Cat (Group (LazyStar AnyUnit)) (lit "</pre>").

Definition re_pre_ascii : regex := Cat re_open_ascii re_body_close.
Definition re_pre : regex := Cat re_open_pre re_body_close.

Definition no_art : jsstring := js "No ASCII art found in HTML file".

(** [extractFromHtml]; [readFileSync] is the file system the method
    reads, which returns the text of the file or throws.  [preMatch[1]]
    of a group that took no part in the match is [undefined], on which
    [stripHtml] throws a [TypeError]. *)
Definition group_text (m : jsstring * option jsstring)
    : completion jsstring :=
  match m.2 with
  | Some text => Return (stripHtml text)
  | None => Throw (js "Cannot read properties of undefined")
  end.

Definition extractFromHtml
    (readFileSync : jsstring → completion jsstring) (htmlPath : jsstring)
    : completion jsstring :=
  match readFileSync htmlPath with
  | Throw e => Throw e
  | Return html =>
      match str_match true re_pre_ascii html with
      | Some preMatch => group_text preMatch
      | None =>
          match str_match true re_pre html with
          | Some preMatch2 => group_text preMatch2
          | None => Throw no_art
          end
      end
  end.

(** Constructor options and the fields the constructor derives. *)
Record options := Options {
  opt_pixelSize : option number;
  opt_scale : option number;
  opt_backgroundColor : option jsstring;
  opt_foregroundColor : option jsstring;
  opt_colorMode : option jsstring
}.

Record t := Make {
  pixelSize : number;
  scale : number;
  backgroundColor : jsstring;
  foregroundColor : jsstring;
  colorMode : jsstring;
  charMap : gmap jsstring Z
}.

Definition no_options : options := Options None None None None None.

Definition constructor (o : options) : t :=
  {| pixelSize := or_num (opt_pixelSize o) (of_Z 8);
     scale := or_num (opt_scale o) (of_Z 1);
     backgroundColor := or_str (opt_backgroundColor o) (js "#000000");
     foregroundColor := or_str (opt_foregroundColor o) (js "#ffffff");
     colorMode := or_str (opt_colorMode o) (js "grayscale");
     charMap := charTable |}.

(** What is assigned to [ctx.fillStyle]: a colour string of the
    configuration, or one of the two template strings, kept as its
    components. *)
Inductive style :=
| Css (s : jsstring)
| Rgb (r g b : Z)
| Hsl (h s l : Qc).

Record rect := Rect { rx : number; ry : number; rw : number; rh : number }.

(** The 2D context: the current fill style and the rectangles filled so
    far, oldest first, each with the style it was filled in. *)
Record context := Context {
  fillStyle : style;
  filled : list (style * rect)
}.

Definition set_fillStyle (st : style) (ctx : context) : context :=
  Context st (filled ctx).

Definition fillRect (x y w h : number) (ctx : context) : context :=
  Context (fillStyle ctx) (filled ctx ++ [(fillStyle ctx, Rect x y w h)]).

(** The canvas of the canvas library: a surface of whole pixels and its
    2D context. *)
Record surface := Surface {
  width : Z;
  height : Z;
  ctx2d : context
}.

(** [createCanvas(width, height)] of the library takes each size as a
    32-bit integer, the integer part of the number it is given. *)
Definition createCanvas (w h : number) : surface :=
  Surface (ToInt32 w) (ToInt32 h) (Context (Css (js "#000000")) []).

(** The canvas once its context has been drawn on. *)
Definition drawn (canvas : surface) (ctx : context) : surface :=
  Surface (width canvas) (height canvas) ctx.

(** [line.replace(/\r$/, '')] *)
Definition re_trailing_cr : regex := Cat (Atom (Chr CR)) EndOfInput.

Definition lines_of (asciiText : jsstring) : list jsstring :=
  replace false re_trailing_cr [] <$> split LF asciiText.

(** The colour of one cell, by mode; an unrecognised mode assigns
    nothing and the style stays what it was. *)
Definition cell_style (self : t) (char : jsstring) (intensity : Z)
    (ctx : context) : context :=
  if decide (colorMode self = js "monochrome") then
    set_fillStyle
      (Css (if 128 <? intensity then foregroundColor self
            else backgroundColor self)) ctx
  else if decide (colorMode self = js "grayscale") then
    (* [Math.floor] of an integer *)
    let gray := intensity in
    set_fillStyle (Rgb gray gray gray) ctx
  else if decide (colorMode self = js "color") then
    let hue := Qc_rem (Qc_of_Z (charCodeAt0 char) * Q2Qc (137508 # 1000))
                 (Qc_of_Z 360) in
    let i := (Qc_of_Z intensity / Q2Qc (255 # 100))%Qc in
    let saturation := if decide (Qc_of_Z 100 ≤ i)%Qc then Qc_of_Z 100 else i in
    let lightness := i in
    set_fillStyle (Hsl hue saturation lightness) ctx
  else ctx.

(** The body of the inner loop: cell [(x, y)] of the grid. *)
Definition draw_cell (self : t) (line : jsstring) (y x : nat)
    (ctx : context) : context :=
  let char := match line !! x with Some c => [c] | None => [SPACE] end in
  let intensity := charMap_get (charMap self) char in
  let pixelX := (of_nat x * pixelSize self * scale self)%num in
  let pixelY := (of_nat y * pixelSize self * scale self)%num in
  let pixelW := (pixelSize self * scale self)%num in
  let pixelH := (pixelSize self * scale self)%num in
  fillRect pixelX pixelY pixelW pixelH (cell_style self char intensity ctx).

Definition draw_row (self : t) (lines : list jsstring) (maxWidth : Z)
    (ctx : context) (y : nat) : context :=
  let line := default [] (lines !! y) in
  foldl (λ c x, draw_cell self line y x c) ctx (seq 0 (Z.to_nat maxWidth)).

(** [convert], up to the canvas it has drawn (encoding the canvas and
    writing the file are the caller's side).  [Math.max] of no argument
    is the one case without a finite width; [split] never produces it. *)
Definition convert (self : t) (asciiText : jsstring) : option surface :=
  let lines := lines_of asciiText in
  match Math_max ((λ line, Z.of_nat (length line)) <$> lines) with
  | None => None
  | Some maxWidth =>
      let height := length lines in
      let canvasWidth := (of_Z maxWidth * pixelSize self * scale self)%num in
      let canvasHeight := (of_nat height * pixelSize self * scale self)%num in
      let canvas := createCanvas canvasWidth canvasHeight in
      let ctx := ctx2d canvas in
      let ctx := set_fillStyle (Css (backgroundColor self)) ctx in
      let ctx := fillRect (of_Z 0) (of_Z 0) canvasWidth canvasHeight ctx in
      let ctx := foldl (draw_row self lines maxWidth) ctx (seq 0 height) in
      Some (drawn canvas ctx)
  end.

(** The converter the command line builds for [--mode monochrome]. *)
Definition monochrome : t :=
  constructor (Options None None None None (Some (js "monochrome"))).

(** [convertFromHtml] and [convertFromText], up to the canvas drawn:
    the text comes from the markup of the file, or is the file. *)
Definition convertFromHtml (self : t)
    (readFileSync : jsstring → completion jsstring) (htmlPath : jsstring)
    : completion (option surface) :=
  match extractFromHtml readFileSync htmlPath with
  | Throw e => Throw e
  | Return asciiText => Return (convert self asciiText)
  end.

Definition convertFromText (self : t)
    (readFileSync : jsstring → completion jsstring) (textPath : jsstring)
    : completion (option surface) :=
  match readFileSync textPath with
  | Throw e => Throw e
  | Return asciiText => Return (convert self asciiText)
  end.

(** Converters as the command line builds them for [--mode color] and
    for a mode the code does not know, [--mode sepia]. *)
Definition in_colour : t :=
  constructor (Options None None None None (Some (js "color"))).

Definition sepia : t :=
  constructor (Options None None None None (Some (js "sepia"))).

(** The converter the command line builds for [--scale 0.7]. *)
Definition scaled : t :=
  constructor (Options None (Some (decimal 7 10)) None None None).

End AsciiToImage.

(** ** The Glyph Renderer: [class AsciiToCanvas] *)

Module AsciiToCanvas.

(** A glyph: [charHeight] rows of [charWidth] booleans. *)
Abbreviation glyph := (list (list bool)).

(** [Array(h).fill(null).map(() => Array(w).fill(false))] *)
Definition blank (h w : nat) : glyph := replicate h (replicate w false).

(** A template literal of the source: the line break after the opening
    back-quote, then each row followed by a line break. *)
Definition template (rows : list string) : jsstring :=
  LF :: concat ((λ row, js row ++ [LF]) <$> rows).

(** The helper [pattern] of [buildPixelFont]: trim, split into lines,
    and read [h] rows of [w] cells; a cell is on where the line has one of
    the marks, off also where the line or the row is too short. *)
Definition is_mark (c : Z) : bool :=
  bool_decide (c = 35) || bool_decide (c = 88) || bool_decide (c = 42).

Definition pattern (h w : nat) (str : jsstring) : glyph :=
  let lines := split LF (trim str) in
  (λ y,
     let line := default [] (lines !! y) in
     (λ x, match line !! x with Some c => is_mark c | None => false end)
       <$> seq 0 w)
    <$> seq 0 h.

(** The right-hand sides of the assignments [font[k] = ...]. *)
Inductive glyph_rhs :=
| Blank                      (* the all-empty array expression *)
| Pattern (str : jsstring)   (* pattern(`...`) *)
| SameAs (key : jsstring).   (* font[key] *)

(** One assignment.  In [font[k] = font[k']] of the source, [k'] has
    been assigned before. *)
Definition assign (h w : nat) (font : gmap jsstring glyph)
    (stmt : jsstring * glyph_rhs) : gmap jsstring glyph :=
  match stmt.2 with
  | Blank => <[stmt.1 := blank h w]> font
  | Pattern str => <[stmt.1 := pattern h w str]> font
  | SameAs key =>
      match font !! key with
      | Some g => <[stmt.1 := g]> font
      | None => font
      end
  end.

(** The assignments of [buildPixelFont], in source order. *)
Definition fontSource : list (jsstring * glyph_rhs) :=
  [
   (* Space and whitespace characters - all empty *)
   ([SPACE], Blank);
   ([TAB], Blank);
   ([LF], Blank);
   ([CR], Blank);
   (* Letters *)
   (js "A", Pattern (
      template [".##.."; "#..#."; "#..#."; "####.";
                "#..#."; "#..#."; "#..#."]));
   (js "B", Pattern (
      template ["###.."; "#..#."; "#..#."; "###..";
                "#..#."; "#..#."; "###.."]));
   (js "C", Pattern (
      template [".##.."; "#..#."; "#...."; "#....";
                "#...."; "#..#."; ".##.."]));
   (js "D", Pattern (
      template ["###.."; "#..#."; "#..#."; "#..#.";
                "#..#."; "#..#."; "###.."]));
   (js "E", Pattern (
      template ["####."; "#...."; "#...."; "###..";
                "#...."; "#...."; "####."]));
   (js "F", Pattern (
      template ["####."; "#...."; "#...."; "###..";
                "#...."; "#...."; "#...."]));
   (js "G", Pattern (
      template [".##.."; "#..#."; "#...."; "#.##.";
                "#..#."; "#..#."; ".##.."]));
   (js "H", Pattern (
      template ["#..#."; "#..#."; "#..#."; "####.";
                "#..#."; "#..#."; "#..#."]));
   (js "I", Pattern (
      template ["###.."; "..#.."; "..#.."; "..#..";
                "..#.."; "..#.."; "###.."]));
   (js "J", Pattern (
      template ["..##."; "...#."; "...#."; "...#.";
                "...#."; "#..#."; ".##.."]));
   (js "K", Pattern (
      template ["#..#."; "#.#.."; "##..."; "#....";
                "##..."; "#.#.."; "#..#."]));
   (js "L", Pattern (
      template ["#...."; "#...."; "#...."; "#....";
                "#...."; "#...."; "####."]));
   (js "M", Pattern (
      template ["#..#."; "##.##"; "#.#.#"; "#...#";
                "#...#"; "#...#"; "#...#"]));
   (js "N", Pattern (
      template ["#..#."; "##..#."; "#.#.."; "#..#.";
                "#..#."; "#..#."; "#..#."]));
   (js "O", Pattern (
      template [".##.."; "#..#."; "#..#."; "#..#.";
                "#..#."; "#..#."; ".##.."]));
   (js "P", Pattern (
      template ["###.."; "#..#."; "#..#."; "###..";
                "#...."; "#...."; "#...."]));
   (js "Q", Pattern (
      template [".##.."; "#..#."; "#..#."; "#..#.";
                "#.#.."; "#..#."; ".##.#"]));
   (js "R", Pattern (
      template ["###.."; "#..#."; "#..#."; "###..";
                "#.#.."; "#..#."; "#..#."]));
   (js "S", Pattern (
      template [".##.."; "#..#."; "#...."; ".##..";
                "..#.."; "#..#."; ".##.."]));
   (js "T", Pattern (
      template ["###.."; "..#.."; "..#.."; "..#..";
                "..#.."; "..#.."; "..#.."]));
   (js "U", Pattern (
      template ["#..#."; "#..#."; "#..#."; "#..#.";
                "#..#."; "#..#."; ".##.."]));
   (js "V", Pattern (
      template ["#..#."; "#..#."; "#..#."; "#..#.";
                "#..#."; ".##.."; "..#.."]));
   (js "W", Pattern (
      template ["#...#"; "#...#"; "#...#"; "#.#.#";
                "##.##"; "#..#."; "#..#."]));
   (js "X", Pattern (
      template ["#..#."; "#..#."; ".##.."; "..#..";
                ".##.."; "#..#."; "#..#."]));
   (js "Y", Pattern (
      template ["#..#."; "#..#."; "#..#."; ".##..";
                "..#.."; "..#.."; "..#.."]));
   (js "Z", Pattern (
      template ["####."; "...#."; "..#.."; ".#...";
                "#...."; "#...."; "####."]));
   (* Numbers *)
   (js "0", Pattern (
      template [".##.."; "#..#."; "#.##."; "#.##.";
                "##.#."; "#..#."; ".##.."]));
   (js "1", Pattern (
      template ["..#.."; ".##.."; "..#.."; "..#..";
                "..#.."; "..#.."; "###.."]));
   (js "2", Pattern (
      template [".##.."; "#..#."; "...#."; "..#..";
                ".#..."; "#...."; "####."]));
   (js "3", Pattern (
      template [".##.."; "#..#."; "...#."; ".##..";
                "...#."; "#..#."; ".##.."]));
   (js "4", Pattern (
      template ["...#.."; "..#.#."; ".#..#."; "#...#";
                "####."; "....#"; "....#"]));
   (js "5", Pattern (
      template ["####."; "#...."; "#...."; "###..";
                "...#."; "...#."; "###.."]));
   (js "6", Pattern (
      template [".##.."; "#...."; "#...."; "###..";
                "#..#."; "#..#."; ".##.."]));
   (js "7", Pattern (
      template ["####."; "...#."; "...#."; "..#..";
                ".#..."; "#...."; "#...."]));
   (js "8", Pattern (
      template [".##.."; "#..#."; "#..#."; ".##..";
                "#..#."; "#..#."; ".##.."]));
   (js "9", Pattern (
      template [".##.."; "#..#."; "#..#."; ".###.";
                "...#."; "..#.."; ".##.."]));
   (* Common symbols *)
   (js ".", Pattern (
      template ["....."; "....."; "....."; ".....";
                "....."; "..#.."; "..#.."]));
   (js ",", Pattern (
      template ["....."; "....."; "....."; ".....";
                "....."; "..#.."; ".#..."]));
   (js ":", Pattern (
      template ["....."; "....."; "..#.."; ".....";
                "....."; "..#.."; "....."]));
   (js ";", Pattern (
      template ["....."; "....."; "..#.."; ".....";
                "....."; "..#.."; ".#..."]));
   ([SQUOTE], Pattern (
      template ["..#.."; ".#..."; "....."; ".....";
                "....."; "....."; "....."]));
   ([DQUOTE], Pattern (
      template [".#.#."; ".#.#."; "....."; ".....";
                "....."; "....."; "....."]));
   (js "`", Pattern (
      template [".#..."; "..#.."; "....."; ".....";
                "....."; "....."; "....."]));
   (js "!", Pattern (
      template ["..#.."; "..#.."; "..#.."; "..#..";
                "..#.."; "....."; "..#.."]));
   (js "?", Pattern (
      template [".##.."; "#..#."; "...#."; "..#..";
                "..#.."; "....."; "..#.."]));
   (js "-", Pattern (
      template ["....."; "....."; "....."; "####.";
                "....."; "....."; "....."]));
   (js "_", Pattern (
      template ["....."; "....."; "....."; ".....";
                "....."; "....."; "####."]));
   (js "=", Pattern (
      template ["....."; "....."; "####."; ".....";
                "####."; "....."; "....."]));
   (js "+", Pattern (
      template ["....."; "..#.."; "..#.."; "####.";
                "..#.."; "..#.."; "....."]));
   (js "*", Pattern (
      template ["..#.."; "#.#.#"; ".##.."; "####.";
                ".##.."; "#.#.#"; "..#.."]));
   (js "/", Pattern (
      template ["....#"; "....#"; "...#."; "..#..";
                ".#..."; "#...."; "#...."]));
   ([BACKSLASH], Pattern (
      template ["#...."; "#...."; ".#..."; "..#..";
                "...#."; "....#"; "....#"]));
   (js "|", Pattern (
      template ["..#.."; "..#.."; "..#.."; "..#..";
                "..#.."; "..#.."; "..#.."]));
   (js "(", Pattern (
      template ["...#."; "..#.."; ".#..."; ".#...";
                ".#..."; "..#.."; "...#."]));
   (js ")", Pattern (
      template ["#...."; ".#..."; "..#.."; "..#..";
                "..#.."; ".#..."; "#...."]));
   (js "[", Pattern (
      template ["###.."; "#...."; "#...."; "#....";
                "#...."; "#...."; "###.."]));
   (js "]", Pattern (
      template ["###.."; "..#.."; "..#.."; "..#..";
                "..#.."; "..#.."; "###.."]));
   (js "{", Pattern (
      template ["..##."; "..#.."; "..#.."; "#....";
                "..#.."; "..#.."; "..##."]));
   (js "}", Pattern (
      template ["##..."; ".#..."; ".#..."; "....#";
                ".#..."; ".#..."; "##..."]));
   (js "<", Pattern (
      template ["....#"; "...#."; "..#.."; ".#...";
                "..#.."; "...#."; "....#"]));
   (js ">", Pattern (
      template ["#...."; ".#..."; "..#.."; "...#.";
                "..#.."; ".#..."; "#...."]));
   (js "@", Pattern (
      template [".##.."; "#..#."; "#.##."; "#.##.";
                "#.#.."; "#...."; ".##.."]));
   (js "#", Pattern (
      template [".#.#."; ".#.#."; "####."; ".#.#.";
                "####."; ".#.#."; ".#.#."]));
   (js "$", Pattern (
      template [".####"; ".#.#."; ".#..."; ".####";
                "....#"; ".#.#."; ".####"]));
   (js "%", Pattern (
      template ["#...#"; "#..#."; "..#.."; ".#...";
                "#..#."; "#...#"; "....."]));
   (js "&", Pattern (
      template [".##.."; "#..#."; "#...."; ".##..";
                "#..#."; "#..#."; ".##.#"]));
   (js "^", Pattern (
      template ["..#.."; ".#.#."; "#...#"; ".....";
                "....."; "....."; "....."]));
   (js "~", Pattern (
      template ["....."; "....."; ".##.#"; "#.##.";
                "....."; "....."; "....."]));
   (js "o", Pattern (
      template ["....."; "....."; ".##.."; "#..#.";
                "#..#."; ".##.."; "....."]));
   (js "O", SameAs (js "o"));
   (js "x", Pattern (
      template ["....."; "....."; "#...#"; ".#.#.";
                "..#.."; ".#.#."; "#...#"]));
   (js "X", SameAs (js "x"));
   (* Box drawing characters *)
   (js "─", Pattern (
      template ["....."; "....."; "....."; "####.";
                "....."; "....."; "....."]));
   (js "│", Pattern (
      template ["..#.."; "..#.."; "..#.."; "..#..";
                "..#.."; "..#.."; "..#.."]));
   (js "┌", Pattern (
      template ["....."; "....."; "....."; "####.";
                "#...."; "#...."; "#...."]));
   (js "┐", Pattern (
      template ["....."; "....."; "....."; "####.";
                "....#"; "....#"; "....#"]));
   (js "└", Pattern (
      template ["#...."; "#...."; "#...."; "####.";
                "....."; "....."; "....."]));
   (js "┘", Pattern (
      template ["....#"; "....#"; "....#"; "####.";
                "....."; "....."; "....."]));
   (js "├", Pattern (
      template ["..#.."; "..#.."; "..#.."; "####.";
                "#...."; "#...."; "#...."]));
   (js "┤", Pattern (
      template ["..#.."; "..#.."; "..#.."; "####.";
                "....#"; "....#"; "....#"]));
   (js "┬", Pattern (
      template ["....."; "....."; "....."; "####.";
                "..#.."; "..#.."; "..#.."]));
   (js "┴", Pattern (
      template ["..#.."; "..#.."; "..#.."; "####.";
                "....."; "....."; "....."]));
   (js "┼", Pattern (
      template ["..#.."; "..#.."; "..#.."; "####.";
                "..#.."; "..#.."; "..#.."]));
   (js "═", Pattern (
      template ["....."; "....."; "####."; ".....";
                "####."; "....."; "....."]));
   (js "║", Pattern (
      template ["..#.."; "..#.."; "..#.."; "..#..";
                "..#.."; "..#.."; "..#.."]));
   (js "╔", Pattern (
      template ["....."; "....."; "....."; "####.";
                "#..#."; "#..#."; "#..#."]));
   (js "╗", Pattern (
      template ["....."; "....."; "....."; "####.";
                "#..#."; "#..#."; "#..#."]));
   (js "╚", Pattern (
      template ["#..#."; "#..#."; "#..#."; "####.";
                "....."; "....."; "....."]));
   (js "╝", Pattern (
      template ["#..#."; "#..#."; "#..#."; "####.";
                "....."; "....."; "....."]));
   (js "╠", Pattern (
      template ["..#.."; "..#.."; "..#.."; "####.";
                "#..#."; "#..#."; "#..#."]));
   (js "╣", Pattern (
      template ["..#.."; "..#.."; "..#.."; "####.";
                "#..#."; "#..#."; "#..#."]));
   (js "╦", Pattern (
      template ["....."; "....."; "....."; "####.";
                "#..#."; "#..#."; "#..#."]));
   (js "╩", Pattern (
      template ["#..#."; "#..#."; "#..#."; "####.";
                "....."; "....."; "....."]));
   (js "╬", Pattern (
      template ["#..#."; "#..#."; "#..#."; "####.";
                "#..#."; "#..#."; "#..#."]))
  ]%string.

(** The table [buildPixelFont] fills before it wraps it in the [Proxy]. *)
Definition fontTable (h w : nat) : gmap jsstring glyph :=
  foldl (assign h w) ∅ fontSource.

(** The [get] trap of the [Proxy]: an own key of the table; else the
    shared empty pattern for a one-unit string, and a fresh empty array
    for any other name.  (Names inherited from [Object.prototype] are all
    longer than one unit and are never looked up.) *)
Definition pixelFont_get (h w : nat) (target : gmap jsstring glyph)
    (prop : jsstring) : glyph :=
  match target !! prop with
  | Some g => g
  | None =>
      let emptyPattern := blank h w in
      if decide (length prop = 1%nat) then emptyPattern else blank h w
  end.

Record options := Options {
  opt_pixelSize : option number;
  opt_scale : option number;
  opt_replaceOriginal : option bool;
  opt_charWidth : option nat;
  opt_charHeight : option nat;
  opt_lineColor : option jsstring
}.

Record t := Make {
  pixelSize : number;
  scale : number;
  replaceOriginal : bool;
  charWidth : nat;
  charHeight : nat;
  lineColor : jsstring;
  pixelFont : gmap jsstring glyph
}.

Definition no_options : options := Options None None None None None None.

(** The constructor; [cssPrimary] is what the document gives for the
    custom property [--color-primary]. *)
Definition constructor (cssPrimary : jsstring) (o : options) : t :=
  let charWidth := or_nat (opt_charWidth o) 5 in
  let charHeight := or_nat (opt_charHeight o) 7 in
  let primaryColor := or_str (Some (trim cssPrimary)) (js "#ff0000") in
  {| pixelSize := or_num (opt_pixelSize o) (decimal 25 10);
     scale := or_num (opt_scale o) (of_Z 1);
     replaceOriginal :=
       negb (bool_decide (opt_replaceOriginal o = Some false));
     charWidth := charWidth;
     charHeight := charHeight;
     lineColor := or_str (opt_lineColor o) primaryColor;
     pixelFont := fontTable charHeight charWidth |}.

(** The glyph of a character under the font the constructor builds. *)
Definition glyph_of (self : t) (c : Z) : glyph :=
  pixelFont_get (charHeight self) (charWidth self) (pixelFont self) [c].

(** What [createCanvas] reads of the reference element: [parseFloat] of
    its computed [font-size] and [line-height], a number or [NaN]. *)
Record element := Element {
  fontSize : number;
  lineHeight : number
}.

Record rect := Rect { rx : number; ry : number; rw : number; rh : number }.

(** The 2D context: the fill style and the rectangles filled so far,
    oldest first. *)
Record context := Context {
  imageSmoothingEnabled : bool;
  fillStyle : jsstring;
  filled : list rect
}.

Definition fillRect (x y w h : number) (ctx : context) : context :=
  Context (imageSmoothingEnabled ctx) (fillStyle ctx)
          (filled ctx ++ [Rect x y w h]).

Record canvas := Canvas {
  width : Z;
  height : Z;
  ctx2d : context
}.

(** [canvas.width = v] and [canvas.height = v]: the attribute of the
    element is an unsigned long, and a value beyond 2147483647 is
    replaced by the default of the attribute, 300 for the width and 150
    for the height. *)
Definition dimension (dflt : Z) (v : number) : Z :=
  let u := ToUint32 v in if u <=? 2147483647 then u else dflt.

(** [line.replace(/\r$/, '')] *)
Definition re_trailing_cr : regex := Cat (Atom (Chr CR)) EndOfInput.

Definition lines_of (asciiText : jsstring) : list jsstring :=
  replace false re_trailing_cr [] <$> split LF asciiText.

(** The characters the rendering loop skips. *)
Definition is_skipped (c : Z) : bool :=
  bool_decide (c = SPACE) || bool_decide (c = TAB)
  || bool_decide (c = LF) || bool_decide (c = CR).

(** [pattern[py] && pattern[py][px]] *)
Definition pixel_on (pattern : glyph) (py px : nat) : bool :=
  match pattern !! py with
  | Some row => default false (row !! px)
  | None => false
  end.

(** The scan that sets [hasPixels]. *)
Definition hasPixels (self : t) (pattern : glyph) : bool :=
  existsb (λ py, existsb (λ px, pixel_on pattern py px)
                   (seq 0 (charWidth self)))
          (seq 0 (charHeight self)).

(** The two loops that draw one glyph at [(charX, charY)]. *)
Definition draw_glyph (self : t) (pattern : glyph) (charX charY : number)
    (ctx : context) : context :=
  foldl (λ ctx py,
    foldl (λ ctx px,
      if pixel_on pattern py px then
        let pixelX :=
          (charX + of_nat px * pixelSize self * scale self)%num in
        let pixelY :=
          (charY + of_nat py * pixelSize self * scale self)%num in
        let pixelW := (pixelSize self * scale self)%num in
        let pixelH := (pixelSize self * scale self)%num in
        fillRect pixelX pixelY pixelW pixelH ctx
      else ctx)
      ctx (seq 0 (charWidth self)))
    ctx (seq 0 (charHeight self)).

(** The body of the inner loop: cell [x] of the line drawn at [lineY]. *)
Definition draw_cell (self : t) (charPixelWidth lineY : number)
    (line : jsstring) (x : nat) (ctx : context) : context :=
  let char := default SPACE (line !! x) in
  if is_skipped char then ctx
  else
    (* a pattern is an array, hence truthy: [if (!pattern) continue]
       never fires *)
    let pattern := glyph_of self char in
    if negb (hasPixels self pattern) then ctx
    else
      let charX := (of_nat x * charPixelWidth)%num in
      let charY := lineY in
      draw_glyph self pattern charX charY ctx.

Definition draw_row (self : t) (charPixelWidth lineHeight : number)
    (lines : list jsstring) (maxWidth : Z) (ctx : context) (y : nat)
    : context :=
  let line := default [] (lines !! y) in
  let lineY := (of_nat y * lineHeight)%num in
  foldl (λ ctx x, draw_cell self charPixelWidth lineY line x ctx)
        ctx (seq 0 (Z.to_nat maxWidth)).

(** The cell metrics [createCanvas] resolves: character width, character
    height and line height, from the configuration or, where a reference
    element is given, from its font metrics. *)
Definition charPixelWidth (self : t) (originalElement : option element)
    : number :=
  match originalElement with
  | None => (of_nat (charWidth self) * pixelSize self * scale self)%num
  | Some el =>
      let fontSize := or_num (Some (fontSize el)) (of_Z 16) in
      (fontSize * decimal 6 10)%num
  end.

Definition charPixelHeight (self : t) : number :=
  (of_nat (charHeight self) * pixelSize self * scale self)%num.

Definition resolved_lineHeight (self : t) (originalElement : option element)
    : number :=
  match originalElement with
  | None => charPixelHeight self
  | Some el =>
      let fontSize := or_num (Some (fontSize el)) (of_Z 16) in
      or_num (Some (lineHeight el)) (fontSize * decimal 12 10)%num
  end.

(** [createCanvas]; [None] is [null].  [Math.max] of no argument comes
    with [height === 0], hence [null] as well. *)
Definition createCanvas (self : t) (asciiText : jsstring)
    (originalElement : option element) : option canvas :=
  let lines := lines_of asciiText in
  let height := length lines in
  match Math_max ((λ line, Z.of_nat (length line)) <$> lines) with
  | None => None
  | Some maxWidth =>
      if bool_decide (maxWidth = 0) || bool_decide (height = 0%nat)
      then None
      else
        let cpw := charPixelWidth self originalElement in
        let cph := charPixelHeight self in
        let lh := resolved_lineHeight self originalElement in
        let canvasWidth := Math_ceil (of_Z maxWidth * cpw)%num in
        let canvasHeight :=
          Math_ceil ((of_nat height - of_Z 1) * lh + cph)%num in
        let ctx := Context true (js "#000000") [] in
        let ctx := Context false (fillStyle ctx) (filled ctx) in
        let ctx := Context (imageSmoothingEnabled ctx) (lineColor self)
                           (filled ctx) in
        let ctx := foldl (draw_row self cpw lh lines maxWidth) ctx
                         (seq 0 height) in
        Some (Canvas (dimension 300 canvasWidth)
                     (dimension 150 canvasHeight) ctx)
  end.

(** What one cell adds to the canvas: the rectangles its loop body
    fills, starting from none. *)
Definition blank_context : context := Context false [] [].

Definition cell_rects (self : t) (charPixelWidth lineY : number)
    (line : jsstring) (x : nat) : list rect :=
  filled (draw_cell self charPixelWidth lineY line x blank_context).

(** A step that only appends rectangles to the context. *)
Definition appends (f : context → context) : Prop :=
  ∀ ctx, f ctx = Context (imageSmoothingEnabled ctx) (fillStyle ctx)
                   (filled ctx ++ filled (f blank_context)).

(** The instance the script creates when it is loaded in a page:
    [new AsciiToCanvas({ pixelSize: 2.5, scale: 1, charWidth: 5,
    charHeight: 7, replaceOriginal: true })]. *)
Definition asciiConverter (cssPrimary : jsstring) : t :=
  constructor cssPrimary
    {| opt_pixelSize := Some (decimal 25 10);
       opt_scale := Some (of_Z 1);
       opt_replaceOriginal := Some true;
       opt_charWidth := Some 5%nat;
       opt_charHeight := Some 7%nat;
       opt_lineColor := None |}.

(** The same in a document that does not define [--color-primary]. *)
Definition page_default : t := asciiConverter [].

End AsciiToCanvas.

(** ** The specification's vocabulary

    The notions the specification states its properties with, defined
    from its words and independently of the code above. *)

Module Spec.

(** "strip a trailing carriage return" *)
Definition strip_cr (line : jsstring) : jsstring :=
  if decide (list.last line = Some CR) then take (length line - 1) line
  else line.

(** TextGrid: the text split on line breaks, trailing carriage returns
    stripped. *)
Definition rows (text : jsstring) : list jsstring :=
  strip_cr <$> split LF text.

Definition rowCount (text : jsstring) : Z := Z.of_nat (length (rows text)).

(** columns = max(row length) *)
Definition columns (text : jsstring) : Z :=
  foldr (λ row m, Z.max (Z.of_nat (length row)) m) 0 (rows text).

(** The true cells of a grid, as (row, column), in reading order. *)
Definition on_cells (g : list (list bool)) : list (nat * nat) :=
  concat (imap (λ y row,
    omap (λ xb : nat * bool, if xb.2 then Some (y, xb.1) else None)
         (imap pair row)) g).

(** A grid of [h] rows of [w] cells. *)
Definition is_grid (h w : nat) (g : list (list bool)) : Prop :=
  length g = h ∧ Forall (λ row, length row = w) g.

(** The white-space characters the specification names. *)
Definition whitespace : list Z := [SPACE; TAB; LF; CR].

(** The light list of the brightness table claim, read as a statement
    about every position of the list. *)
Definition light_steps_of_ten : Prop :=
  ∀ (i : nat) (c : Z),
    AsciiToImage.lightChars !! i = Some [c] →
    AsciiToImage.brightness c = 255 - 10 * Z.of_nat i.

(** Letters are compared without regard to case. *)
Definition fold_case (c : Z) : Z :=
  if decide (97 ≤ c ≤ 122) then c - 32 else c.

Definition same_ignoring_case (a b : jsstring) : Prop :=
  fold_case <$> a = fold_case <$> b.

Definition quote (c : Z) : Prop := c = DQUOTE ∨ c = SQUOTE.

(** An opening tag: [<pre], anything but [>], then [>]. *)
Definition pre_open (tag : jsstring) : Prop :=
  ∃ name attrs,
    tag = name ++ attrs ++ [62]
    ∧ same_ignoring_case name (js "<pre") ∧ (62 ∉ attrs).

(** An opening tag that carries [class="ascii"], in either quotes. *)
Definition ascii_pre_open (tag : jsstring) : Prop :=
  ∃ name a1 cls q1 val q2 a2,
    tag = name ++ a1 ++ cls ++ [q1] ++ val ++ [q2] ++ a2 ++ [62]
    ∧ same_ignoring_case name (js "<pre")
    ∧ same_ignoring_case cls (js "class=")
    ∧ same_ignoring_case val (js "ascii")
    ∧ quote q1 ∧ quote q2 ∧ (62 ∉ a1) ∧ (62 ∉ a2).

Definition pre_close (tag : jsstring) : Prop :=
  same_ignoring_case tag (js "</pre>").

(** A block of [html]: an opening tag after [before], the [body], and a
    closing tag. *)
Definition block (opening : jsstring → Prop) (html before body : jsstring)
    : Prop :=
  ∃ tag close rest,
    html = before ++ tag ++ body ++ close ++ rest
    ∧ opening tag ∧ pre_close close.

Definition has_block (opening : jsstring → Prop) (html : jsstring) : Prop :=
  ∃ before body, block opening html before body.

(** The first block: the one that starts leftmost, its body ending at
    the nearest closing tag. *)
Definition first_block (opening : jsstring → Prop) (html body : jsstring)
    : Prop :=
  ∃ before,
    block opening html before body
    ∧ ∀ before' body',
        block opening html before' body' →
        (length before < length before')%nat
        ∨ ((length before = length before')%nat
           ∧ (length body ≤ length body')%nat).

(** The extraction claim read literally: the text returned is the
    content of the block, as it stands in the markup. *)
Definition returns_raw_contents : Prop :=
  ∀ (readFileSync : jsstring → completion jsstring) (path html body : jsstring),
    readFileSync path = Return html →
    first_block ascii_pre_open html body →
    AsciiToImage.extractFromHtml readFileSync path = Return body.

End Spec.

(** ** What a pattern matches

    The language of a pattern, without the order in which backtracking
    explores it: [matches icase r s s' cap cap'] when [r] can consume the
    part of [s] that precedes [s'], taking the capture from [cap] to
    [cap']. *)

Module Denotation.

Fixpoint matches (icase : bool) (r : regex) (s s' : jsstring)
    (cap cap' : option jsstring) : Prop :=
  match r with
  | Empty => s' = s ∧ cap' = cap
  | Atom a => ∃ c, s = c :: s' ∧ atom_matches icase a c = true ∧ cap' = cap
  | Star a | LazyStar a =>
      ∃ run, s = run ++ s'
        ∧ Forall (λ c, atom_matches icase a c = true) run ∧ cap' = cap
  | Group r1 =>
      ∃ cap1, matches icase r1 s s' cap cap1
        ∧ cap' = Some (take (length s - length s') s)
  | Cat r1 r2 =>
      ∃ s1 cap1, matches icase r1 s s1 cap cap1
        ∧ matches icase r2 s1 s' cap1 cap'
  | EndOfInput => s = [] ∧ s' = [] ∧ cap' = cap
  end.

End Denotation.

(** ** The layout of the output

    The grid of cells and the rectangles that belong to them, stated
    without the drawing context. *)

Module Layout.

(** The cells of a grid of [h] rows and [w] columns, in reading order. *)
Definition cells (h w : nat) : list (nat * nat) :=
  concat ((λ y, (λ x, (y, x)) <$> seq 0 w) <$> seq 0 h).

(** The character of cell [(y, x)] of a ragged grid: a row that is too
    short counts as continued with spaces. *)
Definition cell_char (rows : list jsstring) (y x : nat) : Z :=
  default SPACE (default [] (rows !! y) !! x).

(** Lines put together with a separator between them. *)
Fixpoint join (sep : jsstring) (ls : list jsstring) : jsstring :=
  match ls with
  | [] => []
  | [l] => l
  | l :: ls' => l ++ sep ++ join sep ls'
  end.

(** The square block of cell [(y, x)] in the Intensity Renderer. *)
Definition pixel_block (self : AsciiToImage.t) (y x : nat)
    : AsciiToImage.rect :=
  let pixelSize := AsciiToImage.pixelSize self in
  let scale := AsciiToImage.scale self in
  AsciiToImage.Rect (of_nat x * pixelSize * scale)%num
                    (of_nat y * pixelSize * scale)%num
                    (pixelSize * scale)%num (pixelSize * scale)%num.

(** The square of glyph pixel [(py, px)] of a character drawn at
    [(charX, charY)] in the Glyph Renderer. *)
Definition glyph_pixel (self : AsciiToCanvas.t) (charX charY : number)
    (py px : nat) : AsciiToCanvas.rect :=
  let pixelSize := AsciiToCanvas.pixelSize self in
  let scale := AsciiToCanvas.scale self in
  AsciiToCanvas.Rect (charX + of_nat px * pixelSize * scale)%num
                     (charY + of_nat py * pixelSize * scale)%num
                     (pixelSize * scale)%num (pixelSize * scale)%num.

(** The cells of a glyph that are on, within the configured grid, in
    reading order. *)
Definition lit_cells (self : AsciiToCanvas.t) (g : AsciiToCanvas.glyph)
    : list (nat * nat) :=
  filter (λ yx, AsciiToCanvas.pixel_on g yx.1 yx.2 = true)
         (cells (AsciiToCanvas.charHeight self) (AsciiToCanvas.charWidth self)).

(** The squares of cell [(y, x)] of the text in the Glyph Renderer:
    none for a skipped character, else those of the cells that are on
    in its glyph. *)
Definition cell_pixels (self : AsciiToCanvas.t)
    (cellWidth lineHeight : number)
    (rows : list jsstring) (y x : nat) : list AsciiToCanvas.rect :=
  let c := cell_char rows y x in
  if AsciiToCanvas.is_skipped c then []
  else
    (λ pyx, glyph_pixel self (of_nat x * cellWidth)%num
              (of_nat y * lineHeight)%num pyx.1 pyx.2)
      <$> lit_cells self (AsciiToCanvas.glyph_of self c).

(** A rectangle within a canvas of the given size, by the exact values
    of its coordinates. *)
Definition inside (width height : Z) (r : AsciiToCanvas.rect) : Prop :=
  (0 <= real (AsciiToCanvas.rx r))%Q
  ∧ (real (AsciiToCanvas.rx r) + real (AsciiToCanvas.rw r)
     <= inject_Z width)%Q
  ∧ (0 <= real (AsciiToCanvas.ry r))%Q
  ∧ (real (AsciiToCanvas.ry r) + real (AsciiToCanvas.rh r)
     <= inject_Z height)%Q.

End Layout.

(** ** Numbers that are computed exactly

    A number [z / 2 ^ k] with [z] below 2^53 is its own nearest number,
    and products, sums and differences of such numbers are exact as long
    as the result is of that form again. *)

Section Numbers.

(** The number of binary digits, and the exponent rounding aims at. *)
Lemma digits2_log2 p : Z.pos (digits2_pos p) = Z.log2 (Z.pos p) + 1.
Proof.
  induction p as [p IH|p IH|]; simpl; try reflexivity.
  - rewrite Pos2Z.inj_succ. destruct p; simpl in *; lia.
  - rewrite Pos2Z.inj_succ. destruct p; simpl in *; lia.
Qed.

Lemma fexp_cexp z k : 0 < z → fexp prec emax (Z.log2 z + 1 - k) = cexp z k.
Proof. intros _. unfold fexp, emin, cexp, prec, emax. lia. Qed.

(** Shifting a mantissa right loses nothing when the bits shifted out
    are zeros. *)
Lemma iter_pos_nat {A} (f : A → A) p x :
  SpecFloat.iter_pos f p x = Nat.iter (Pos.to_nat p) f x.
Proof.
  revert x. induction p as [p IH|p IH|]; intros x;
    cbn [SpecFloat.iter_pos].
  - rewrite !IH, Pos2Nat.inj_xI, <- Nat.iter_add, <- Nat.iter_succ_r.
    f_equal. lia.
  - rewrite !IH, Pos2Nat.inj_xO, <- Nat.iter_add. f_equal. lia.
  - reflexivity.
Qed.

Lemma shr_1_even m :
  0 < m →
  shr_1 (Build_shr_record (2 * m) false false) = Build_shr_record m false false.
Proof. intros Hm. destruct m as [|p|p]; try lia. reflexivity. Qed.

Lemma shr_iter_exact (n : nat) m :
  0 < m →
  Nat.iter n shr_1 (Build_shr_record (m * 2 ^ Z.of_nat n) false false)
  = Build_shr_record m false false.
Proof.
  intros Hm. induction n as [|n IH].
  - simpl. by rewrite Z.mul_1_r.
  - rewrite Nat.iter_succ_r.
    replace (m * 2 ^ Z.of_nat (S n)) with (2 * (m * 2 ^ Z.of_nat n)).
    + rewrite shr_1_even; [exact IH|]. apply Z.mul_pos_pos; [done|].
      apply Z.pow_pos_nonneg; lia.
    + rewrite Nat2Z.inj_succ, Z.pow_succ_r by lia. ring.
Qed.

Lemma shr_exact m e n :
  0 < m → 0 ≤ n →
  shr (Build_shr_record (m * 2 ^ n) false false) e n
  = (Build_shr_record m false false, e + n).
Proof.
  intros Hm Hn. destruct n as [|p|p]; try lia.
  - unfold shr. by rewrite Z.pow_0_r, Z.mul_1_r, Z.add_0_r.
  - unfold shr. rewrite iter_pos_nat.
    f_equal. rewrite <- (positive_nat_Z p). by apply shr_iter_exact.
Qed.

(** Rounding a value that is already a canonical double gives it back. *)
Lemma round_aux_exact s mc ec n :
  0 < mc → 0 ≤ n →
  cexp mc (- ec) = ec → ec ≤ 971 →
  binary_round_aux prec emax s (mc * 2 ^ n) (ec - n) loc_Exact
  = S754_finite s (Z.to_pos mc) ec.
Proof.
  intros Hmc Hn Hcan Hec.
  assert (0 < 2 ^ n) as Hpow by (apply Z.pow_pos_nonneg; lia).
  assert (0 < mc * 2 ^ n) as HM by lia.
  unfold binary_round_aux, shr_fexp.
  assert (∀ M, 0 < M → Zdigits2 M = Z.log2 M + 1) as Hdig.
  { intros [|p|p] ?; try lia. apply digits2_log2. }
  rewrite (Hdig _ HM), Z.log2_mul_pow2 by lia.
  replace (n + Z.log2 mc + 1 + (ec - n)) with (Z.log2 mc + 1 - - ec) by lia.
  rewrite fexp_cexp, Hcan by done.
  replace (ec - (ec - n)) with n by lia.
  cbn [shr_record_of_loc]. rewrite shr_exact by lia.
  cbn [shr_m loc_of_shr_record round_nearest_even].
  rewrite (Hdig _ Hmc).
  replace (Z.log2 mc + 1 + (ec - n + n)) with (Z.log2 mc + 1 - - ec) by lia.
  rewrite fexp_cexp, Hcan by done.
  replace (ec - (ec - n + n)) with 0 by lia.
  cbn [shr_record_of_loc shr shr_m].
  destruct mc as [|p|p]; try lia.
  replace (ec - n + n) with ec by lia.
  unfold emax, prec. replace (ec <=? 1024 - 53) with true; [done|].
  symmetry. apply Z.leb_le. lia.
Qed.

Lemma cexp_le z k : 0 < z < 2 ^ 53 → 0 ≤ k ≤ 1074 → cexp z k ≤ - k.
Proof.
  intros [Hz0 Hz] Hk. unfold cexp.
  assert (Z.log2 z < 53) by (apply Z.log2_lt_pow2; lia). lia.
Qed.

(** Rounding [z / 2 ^ k], in whatever way it is written, gives its
    canonical form. *)
Lemma round_aux_dyadic s z k j :
  0 < z < 2 ^ 53 → 0 ≤ k ≤ 1074 → 0 ≤ j → - k - j ≤ cexp z k →
  binary_round_aux prec emax s (z * 2 ^ j) (- k - j) loc_Exact = canon s z k.
Proof.
  intros Hz Hk Hj HE. pose proof (cexp_le z k Hz Hk) as Hle.
  set (ec := cexp z k) in *.
  assert (0 < 2 ^ (- k - ec)) as Hpow by (apply Z.pow_pos_nonneg; lia).
  pose proof (round_aux_exact s (z * 2 ^ (- k - ec)) ec (ec - (- k - j)))
    as H.
  replace (ec - (ec - (- k - j))) with (- k - j) in H by lia.
  rewrite <- Z.mul_assoc, <- Z.pow_add_r in H by lia.
  replace (- k - ec + (ec - (- k - j))) with j in H by lia.
  apply H; [lia|lia| |lia].
  unfold cexp. rewrite Z.log2_mul_pow2 by lia. unfold ec, cexp. lia.
Qed.

Lemma iter_xO p d : Z.pos (Pos.iter xO p d) = Z.pos p * 2 ^ Z.pos d.
Proof.
  induction d as [|d IH] using Pos.peano_ind.
  - simpl. lia.
  - rewrite Pos.iter_succ, Pos2Z.inj_xO, IH, Pos2Z.inj_succ, Z.pow_succ_r
      by lia. ring.
Qed.

Lemma shl_align_spec p e e' :
  let r := shl_align p e e' in
  Z.pos (fst r) = Z.pos p * 2 ^ (e - Z.min e e') ∧ snd r = Z.min e e'.
Proof.
  unfold shl_align. destruct (e' - e) as [|d|d] eqn:Hd; cbn [fst snd].
  - replace (Z.min e e') with e by lia. rewrite Z.sub_diag. lia.
  - replace (Z.min e e') with e by lia. rewrite Z.sub_diag. lia.
  - replace (Z.min e e') with e' by lia. split; [|done].
    rewrite iter_xO. f_equal. f_equal. lia.
Qed.

Lemma normalize_exact z k j :
  0 < z < 2 ^ 53 → 0 ≤ k ≤ 1074 → 0 ≤ j →
  binary_normalize prec emax (z * 2 ^ j) (- k - j) false = canon false z k.
Proof.
  intros Hz Hk Hj. pose proof (cexp_le z k Hz Hk) as Hle.
  assert (0 < 2 ^ j) as Hpow by (apply Z.pow_pos_nonneg; lia).
  destruct (z * 2 ^ j) as [|p|p] eqn:HM; try lia.
  unfold binary_normalize, binary_round.
  pose proof (shl_align_spec p (- k - j)
                (fexp prec emax (Z.pos (digits2_pos p) + (- k - j)))) as Hs.
  destruct (shl_align _ _ _) as [mz ez]. cbn [fst snd] in Hs.
  destruct Hs as [Hm He].
  rewrite digits2_log2, <- HM, Z.log2_mul_pow2 in He, Hm by lia.
  replace (j + Z.log2 z + 1 + (- k - j)) with (Z.log2 z + 1 - k) in He, Hm
    by lia.
  rewrite fexp_cexp in He, Hm by lia.
  rewrite Hm, He, <- Z.mul_assoc, <- Z.pow_add_r by lia.
  set (E := Z.min (- k - j) (cexp z k)).
  replace (j + (- k - j - E)) with (- k - E) by lia.
  replace E with (- k - (- k - E)) at 2 by lia.
  apply round_aux_dyadic; lia.
Qed.

Lemma dyadic_zero k : dyadic 0 k = S754_zero false.
Proof. reflexivity. Qed.

Lemma dyadic_canon z k :
  0 < z < 2 ^ 53 → 0 ≤ k ≤ 1074 → dyadic z k = canon false z k.
Proof.
  intros Hz Hk. unfold dyadic.
  pose proof (normalize_exact z k 0 Hz Hk) as H.
  rewrite Z.pow_0_r, Z.mul_1_r, Z.sub_0_r in H. apply H. lia.
Qed.

(** The same number written with a larger denominator. *)
Lemma dyadic_shift z k i :
  fits z k → 0 ≤ i → dyadic (z * 2 ^ i) (k + i) = dyadic z k.
Proof.
  intros [Hz Hk] Hi. destruct (decide (z = 0)) as [->|Hz0]; [done|].
  rewrite (dyadic_canon z k) by lia. unfold dyadic.
  replace (- (k + i)) with (- k - i) by lia. apply normalize_exact; lia.
Qed.

(** Products, sums and differences of such numbers. *)
Lemma to_pos_mul a b :
  0 < a → 0 < b → Z.pos (Z.to_pos a * Z.to_pos b) = a * b.
Proof. intros. rewrite Pos2Z.inj_mul, !Z2Pos.id by done. done. Qed.

Lemma dyadic_mul a ka b kb :
  fits a ka → fits b kb → fits (a * b) (ka + kb) →
  mul (dyadic a ka) (dyadic b kb) = dyadic (a * b) (ka + kb).
Proof.
  intros [Ha Hka] [Hb Hkb] [Hab Hk].
  destruct (decide (a = 0)) as [->|Ha0].
  { rewrite Z.mul_0_l, !dyadic_zero.
    destruct (decide (b = 0)) as [->|Hb0]; [done|].
    by rewrite dyadic_canon by lia. }
  destruct (decide (b = 0)) as [->|Hb0].
  { rewrite Z.mul_0_r, !dyadic_zero. by rewrite dyadic_canon by lia. }
  assert (0 < a * b) by nia.
  rewrite (dyadic_canon a), (dyadic_canon b), (dyadic_canon (a * b)) by lia.
  pose proof (cexp_le a ka ltac:(lia) Hka) as Hea.
  pose proof (cexp_le b kb ltac:(lia) Hkb) as Heb.
  assert (0 < 2 ^ (- ka - cexp a ka)) by (apply Z.pow_pos_nonneg; lia).
  assert (0 < 2 ^ (- kb - cexp b kb)) by (apply Z.pow_pos_nonneg; lia).
  unfold mul, canon at 1 2. cbn [SFmul xorb].
  change (Z.pos (?x * ?y)) with (Z.pos (Pos.mul x y)).
  rewrite to_pos_mul by nia.
  replace (a * 2 ^ (- ka - cexp a ka) * (b * 2 ^ (- kb - cexp b kb)))
    with (a * b * 2 ^ ((- ka - cexp a ka) + (- kb - cexp b kb)))
    by (rewrite Z.pow_add_r by lia; ring).
  replace (cexp a ka + cexp b kb)
    with (- (ka + kb) - ((- ka - cexp a ka) + (- kb - cexp b kb))) by lia.
  apply round_aux_dyadic; [lia|lia|lia|].
  pose proof (Z.log2_mul_below a b ltac:(lia) ltac:(lia)).
  assert (Z.log2 a < 53) by (apply Z.log2_lt_pow2; lia).
  assert (Z.log2 b < 53) by (apply Z.log2_lt_pow2; lia).
  unfold cexp. lia.
Qed.

Lemma dyadic_add a ka b kb :
  fits a ka → fits b kb →
  let k := Z.max ka kb in
  let c := a * 2 ^ (k - ka) + b * 2 ^ (k - kb) in
  c < 2 ^ 53 →
  add (dyadic a ka) (dyadic b kb) = dyadic c k.
Proof.
  intros [Ha Hka] [Hb Hkb] k c Hc.
  assert (0 < 2 ^ (k - ka)) by (apply Z.pow_pos_nonneg; lia).
  assert (0 < 2 ^ (k - kb)) by (apply Z.pow_pos_nonneg; lia).
  destruct (decide (a = 0)) as [->|Ha0].
  { subst c. rewrite Z.mul_0_l, Z.add_0_l, dyadic_zero.
    replace k with (kb + (k - kb)) at 2 by lia.
    rewrite dyadic_shift by (unfold fits; lia).
    destruct (decide (b = 0)) as [->|Hb0]; [done|].
    by rewrite dyadic_canon by lia. }
  destruct (decide (b = 0)) as [->|Hb0].
  { subst c. rewrite Z.mul_0_l, Z.add_0_r, dyadic_zero.
    replace k with (ka + (k - ka)) at 2 by lia.
    rewrite dyadic_shift by (unfold fits; lia).
    by rewrite dyadic_canon by lia. }
  rewrite (dyadic_canon a), (dyadic_canon b) by lia.
  pose proof (cexp_le a ka ltac:(lia) Hka) as Hea.
  pose proof (cexp_le b kb ltac:(lia) Hkb) as Heb.
  assert (0 < 2 ^ (- ka - cexp a ka)) by (apply Z.pow_pos_nonneg; lia).
  assert (0 < 2 ^ (- kb - cexp b kb)) by (apply Z.pow_pos_nonneg; lia).
  unfold add, canon. cbn [SFadd cond_Zopp].
  set (ez := Z.min (cexp a ka) (cexp b kb)).
  destruct (shl_align_spec (Z.to_pos (a * 2 ^ (- ka - cexp a ka)))
              (cexp a ka) ez) as [-> _].
  destruct (shl_align_spec (Z.to_pos (b * 2 ^ (- kb - cexp b kb)))
              (cexp b kb) ez) as [-> _].
  rewrite !Z2Pos.id by nia.
  replace (Z.min (cexp a ka) ez) with ez by lia.
  replace (Z.min (cexp b kb) ez) with ez by lia.
  rewrite <- !Z.mul_assoc, <- !Z.pow_add_r by lia.
  replace (a * 2 ^ (- ka - cexp a ka + (cexp a ka - ez))
           + b * 2 ^ (- kb - cexp b kb + (cexp b kb - ez)))
    with (c * 2 ^ (- k - ez)).
  - assert (0 < c) by (subst c; nia).
    rewrite (dyadic_canon c k) by lia.
    replace ez with (- k - (- k - ez)) at 2 by lia.
    apply normalize_exact; lia.
  - subst c. rewrite Z.mul_add_distr_r, <- !Z.mul_assoc, <- !Z.pow_add_r
      by lia. do 2 f_equal; f_equal; lia.
Qed.

Lemma dyadic_sub a ka b kb :
  fits a ka → fits b kb →
  let k := Z.max ka kb in
  let c := a * 2 ^ (k - ka) - b * 2 ^ (k - kb) in
  0 ≤ c < 2 ^ 53 →
  sub (dyadic a ka) (dyadic b kb) = dyadic c k.
Proof.
  intros [Ha Hka] [Hb Hkb] k c Hc.
  assert (0 < 2 ^ (k - ka)) by (apply Z.pow_pos_nonneg; lia).
  assert (0 < 2 ^ (k - kb)) by (apply Z.pow_pos_nonneg; lia).
  destruct (decide (b = 0)) as [->|Hb0].
  { subst c. rewrite Z.mul_0_l, Z.sub_0_r, dyadic_zero.
    replace k with (ka + (k - ka)) at 2 by lia.
    rewrite dyadic_shift by (unfold fits; lia).
    destruct (decide (a = 0)) as [->|Ha0]; [done|].
    by rewrite dyadic_canon by lia. }
  assert (a ≠ 0) as Ha0 by (intros ->; subst c; nia).
  rewrite (dyadic_canon a), (dyadic_canon b) by lia.
  pose proof (cexp_le a ka ltac:(lia) Hka) as Hea.
  pose proof (cexp_le b kb ltac:(lia) Hkb) as Heb.
  assert (0 < 2 ^ (- ka - cexp a ka)) by (apply Z.pow_pos_nonneg; lia).
  assert (0 < 2 ^ (- kb - cexp b kb)) by (apply Z.pow_pos_nonneg; lia).
  unfold sub, canon. cbn [SFsub cond_Zopp].
  set (ez := Z.min (cexp a ka) (cexp b kb)).
  destruct (shl_align_spec (Z.to_pos (a * 2 ^ (- ka - cexp a ka)))
              (cexp a ka) ez) as [-> _].
  destruct (shl_align_spec (Z.to_pos (b * 2 ^ (- kb - cexp b kb)))
              (cexp b kb) ez) as [-> _].
  rewrite !Z2Pos.id by nia.
  replace (Z.min (cexp a ka) ez) with ez by lia.
  replace (Z.min (cexp b kb) ez) with ez by lia.
  rewrite <- !Z.mul_assoc, <- !Z.pow_add_r by lia.
  replace (a * 2 ^ (- ka - cexp a ka + (cexp a ka - ez))
           - b * 2 ^ (- kb - cexp b kb + (cexp b kb - ez)))
    with (c * 2 ^ (- k - ez)).
  - destruct (decide (c = 0)) as [->|Hc0]; [done|].
    rewrite (dyadic_canon c k) by lia.
    replace ez with (- k - (- k - ez)) at 2 by lia.
    apply normalize_exact; lia.
  - subst c. rewrite Z.mul_sub_distr_r, <- !Z.mul_assoc, <- !Z.pow_add_r
      by lia. do 2 f_equal; f_equal; lia.
Qed.

(** Integer part, ceiling and exact value. *)
Lemma truncate_dyadic z k : fits z k → truncate (dyadic z k) = z / 2 ^ k.
Proof.
  intros [Hz Hk]. destruct (decide (z = 0)) as [->|Hz0]; [done|].
  rewrite dyadic_canon by lia. pose proof (cexp_le z k ltac:(lia) Hk) as Hle.
  assert (0 < 2 ^ (- k - cexp z k)) by (apply Z.pow_pos_nonneg; lia).
  assert (0 < 2 ^ k) by (apply Z.pow_pos_nonneg; lia).
  unfold canon, truncate. cbn [cond_Zopp]. rewrite Z2Pos.id by nia.
  destruct (Z.leb_spec 0 (cexp z k)) as [He|He].
  - replace (cexp z k) with 0 by lia. replace k with 0 by lia.
    rewrite Z.pow_0_r, Z.div_1_r. simpl. lia.
  - replace (2 ^ (- cexp z k)) with (2 ^ k * 2 ^ (- k - cexp z k))
      by (rewrite <- Z.pow_add_r by lia; f_equal; lia).
    rewrite Z.div_mul_cancel_r by lia. done.
Qed.

Lemma ceil_dyadic z k :
  fits z k → Math_ceil (dyadic z k) = of_Z (- (- z / 2 ^ k)).
Proof.
  intros [Hz Hk]. destruct (decide (z = 0)) as [->|Hz0]; [done|].
  rewrite dyadic_canon by lia. pose proof (cexp_le z k ltac:(lia) Hk) as Hle.
  assert (0 < 2 ^ (- k - cexp z k)) by (apply Z.pow_pos_nonneg; lia).
  assert (0 < 2 ^ k) by (apply Z.pow_pos_nonneg; lia).
  unfold canon, Math_ceil. cbn [cond_Zopp].
  destruct (Z.leb_spec 0 (cexp z k)) as [He|He].
  - fold (canon false z k). rewrite <- dyadic_canon by lia.
    assert (k = 0) as -> by lia.
    by rewrite Z.pow_0_r, Z.div_1_r, Z.opp_involutive.
  - rewrite Z2Pos.id by nia.
    replace (2 ^ (- cexp z k)) with (2 ^ k * 2 ^ (- k - cexp z k))
      by (rewrite <- Z.pow_add_r by lia; f_equal; lia).
    rewrite <- Z.mul_opp_l, Z.div_mul_cancel_r by lia.
    assert (- z / 2 ^ k < 0) by (apply Z.div_lt_upper_bound; lia).
    destruct (- (- z / 2 ^ k)) eqn:E; [lia|done|done].
Qed.

Lemma real_dyadic z k :
  fits z k → (real (dyadic z k) == Qmake z (Z.to_pos (2 ^ k)))%Q.
Proof.
  intros [Hz Hk]. destruct (decide (z = 0)) as [->|Hz0]; [done|].
  rewrite dyadic_canon by lia. pose proof (cexp_le z k ltac:(lia) Hk) as Hle.
  assert (0 < 2 ^ (- k - cexp z k)) by (apply Z.pow_pos_nonneg; lia).
  assert (0 < 2 ^ k) by (apply Z.pow_pos_nonneg; lia).
  assert (0 < 2 ^ (- cexp z k)) by (apply Z.pow_pos_nonneg; lia).
  unfold canon, real. cbn [cond_Zopp]. rewrite Z2Pos.id by nia.
  destruct (Z.leb_spec 0 (cexp z k)) as [He|He].
  - replace (cexp z k) with 0 by lia. replace k with 0 by lia.
    simpl. unfold Qeq. simpl. lia.
  - unfold Qeq. cbn [Qnum Qden]. rewrite !Z2Pos.id by lia.
    replace (2 ^ (- cexp z k)) with (2 ^ k * 2 ^ (- k - cexp z k))
      by (rewrite <- Z.pow_add_r by lia; f_equal; lia).
    ring.
Qed.

Lemma truncate_of_Z z : 0 ≤ z < 2 ^ 53 → truncate (of_Z z) = z.
Proof.
  intros Hz. unfold of_Z. rewrite truncate_dyadic by (unfold fits; lia).
  by rewrite Z.pow_0_r, Z.div_1_r.
Qed.

(** The shapes the renderers compute: an integer times a size, a size
    times a size, the sum of two sizes, a count less one. *)
Lemma times_exact n z k :
  0 ≤ n < 2 ^ 53 → 0 ≤ z < 2 ^ 53 → n * z < 2 ^ 53 → 0 ≤ k ≤ 1074 →
  (of_Z n * dyadic z k)%num = dyadic (n * z) k.
Proof.
  intros Hn Hz Hnz Hk. unfold of_Z.
  rewrite dyadic_mul by (unfold fits; simpl; lia). done.
Qed.

Lemma side_exact mp kp ms ks :
  0 < mp → 0 < ms → mp * ms < 2 ^ 53 → 0 ≤ kp ≤ 500 → 0 ≤ ks ≤ 500 →
  (dyadic mp kp * dyadic ms ks)%num = dyadic (mp * ms) (kp + ks).
Proof.
  intros Hmp Hms Hlt Hkp Hks.
  assert (mp < 2 ^ 53 ∧ ms < 2 ^ 53) as [? ?] by nia.
  apply dyadic_mul; unfold fits; lia.
Qed.

(** [n * pixelSize * scale] for an index [n], as the code computes it. *)
Lemma index_exact n mp kp ms ks :
  0 ≤ n < 2 ^ 53 → 0 < mp → 0 < ms →
  mp * ms < 2 ^ 53 → n * (mp * ms) < 2 ^ 53 →
  0 ≤ kp ≤ 500 → 0 ≤ ks ≤ 500 →
  (of_Z n * dyadic mp kp * dyadic ms ks)%num
  = dyadic (n * (mp * ms)) (kp + ks).
Proof.
  intros Hn Hmp Hms Hlt Hnlt Hkp Hks.
  assert (mp < 2 ^ 53 ∧ ms < 2 ^ 53) as [? ?] by nia.
  assert (n * mp < 2 ^ 53) by nia.
  rewrite times_exact by lia.
  rewrite dyadic_mul by (unfold fits; nia).
  f_equal. ring.
Qed.

Lemma plus_exact a b k :
  0 ≤ a → 0 ≤ b → a + b < 2 ^ 53 → 0 ≤ k ≤ 1074 →
  (dyadic a k + dyadic b k)%num = dyadic (a + b) k.
Proof.
  intros Ha Hb Hlt Hk.
  pose proof (dyadic_add a k b k) as H. cbv zeta in H.
  rewrite Z.max_id, Z.sub_diag, Z.pow_0_r, !Z.mul_1_r in H.
  apply H; unfold fits; lia.
Qed.

Lemma pred_exact n : 1 ≤ n < 2 ^ 53 → (of_Z n - of_Z 1)%num = of_Z (n - 1).
Proof.
  intros Hn. unfold of_Z.
  pose proof (dyadic_sub n 0 1 0) as H. cbv zeta in H.
  rewrite Z.max_id, Z.sub_diag, Z.pow_0_r, !Z.mul_1_r in H.
  apply H; unfold fits; lia.
Qed.

Lemma le_mul_pos a m : 0 ≤ a → 0 < m → a ≤ a * m.
Proof. nia. Qed.

(** The least integer that is not below [z / 2 ^ k]. *)
Lemma ceiling_bounds z k :
  0 ≤ k → z ≤ - (- z / 2 ^ k) * 2 ^ k < z + 2 ^ k.
Proof.
  intros Hk. assert (0 < 2 ^ k) as Hpow by (apply Z.pow_pos_nonneg; lia).
  pose proof (Z.div_mod (- z) (2 ^ k) ltac:(lia)) as Hdm.
  pose proof (Z.mod_pos_bound (- z) (2 ^ k) Hpow). nia.
Qed.

End Numbers.


(** ** From the text to the grid

    Both renderers split the text the same way. *)

Section TextGrid.

Lemma split_nonempty sep s : split sep s ≠ [].
Proof.
  destruct s as [|c s]; simpl; [done|].
  destruct (decide (c = sep)); [done|]. by destruct (split sep s).
Qed.

Lemma match_here_trailing_cr s :
  match_here false (Cat (Atom (Chr CR)) EndOfInput) s =
    if decide (s = [CR]) then Some (Found [] [CR] None []) else None.
Proof.
  unfold match_here. destruct s as [|c s]; [done|].
  cbn [rmatch atom_matches]. unfold unit_eqb, canonicalize. cbn [andb].
  destruct (Z.eqb_spec CR c) as [<-|Hc].
  - by destruct s.
  - destruct (decide (c :: s = [CR])) as [[= -> ->]|]; done.
Qed.

Lemma search_trailing_cr s :
  search false (Cat (Atom (Chr CR)) EndOfInput) s =
    if decide (list.last s = Some CR)
    then Some (Found (take (length s - 1) s) [CR] None [])
    else None.
Proof.
  induction s as [|c s IH]; [done|].
  cbn [search]. rewrite match_here_trailing_cr.
  destruct (decide (c :: s = [CR])) as [[= -> ->]|Hne]; [done|].
  rewrite IH. destruct s as [|d s]; [|rewrite last_cons_cons].
  - simpl. rewrite decide_False; [done|]. intros [= ->]. done.
  - destruct (decide (list.last (d :: s) = Some CR)); [|done].
    simpl. by rewrite Nat.sub_0_r.
Qed.

(** The pattern [/\\r$/] removes exactly a trailing carriage return. *)
Lemma replace_trailing_cr s :
  replace false (Cat (Atom (Chr CR)) EndOfInput) [] s = Spec.strip_cr s.
Proof.
  unfold replace, Spec.strip_cr. rewrite search_trailing_cr.
  destruct (decide (list.last s = Some CR)); [|done].
  simpl. by rewrite app_nil_r.
Qed.

Lemma foldl_max_foldr (f : jsstring → Z) a (ls : list jsstring) :
  (∀ l, 0 ≤ f l) → 0 ≤ a →
  foldl Z.max a (f <$> ls) = Z.max a (foldr (λ l m, Z.max (f l) m) 0 ls).
Proof.
  intros Hf. revert a. induction ls as [|l ls IH]; intros a Ha; simpl.
  - lia.
  - rewrite IH by (specialize (Hf l); lia). lia.
Qed.

(** [Math.max] over the lengths of a non-empty array of lines is the
    largest length. *)
Lemma Math_max_lengths (ls : list jsstring) :
  ls ≠ [] →
  Math_max ((λ line, Z.of_nat (length line)) <$> ls)
  = Some (foldr (λ row m, Z.max (Z.of_nat (length row)) m) 0 ls).
Proof.
  destruct ls as [|l ls]; [done|]. intros _. simpl. f_equal.
  rewrite (foldl_max_foldr (λ line, Z.of_nat (length line))); lia.
Qed.

Lemma columns_nonneg (text : jsstring) : 0 ≤ Spec.columns text.
Proof.
  unfold Spec.columns. induction (Spec.rows text) as [|row l IH]; simpl; lia.
Qed.

End TextGrid.

(** ** The matcher against the language of a pattern *)

Section Matching.
Import Denotation.
Context {R : Type}.
Implicit Types (p : Z → bool) (s run : jsstring) (res : R).

Lemma star_greedy_sound p s (k : jsstring → option R) res :
  star_greedy p s k = Some res →
  ∃ run s', s = run ++ s' ∧ Forall (λ c, p c = true) run ∧ k s' = Some res.
Proof.
  induction s as [|c s IH]; simpl; intros H.
  - by exists [], [].
  - destruct (p c) eqn:Hp; [|by exists [], (c :: s)].
    destruct (star_greedy p s k) as [r|] eqn:Hg.
    + injection H as ->.
      destruct (IH eq_refl) as (run & s' & -> & Hrun & Hk).
      exists (c :: run), s'. by repeat split; [constructor|].
    + by exists [], (c :: s).
Qed.

Lemma star_greedy_complete p run s' (k : jsstring → option R) :
  Forall (λ c, p c = true) run → is_Some (k s') →
  is_Some (star_greedy p (run ++ s') k).
Proof.
  intros Hrun Hk. induction Hrun as [|c run Hc Hrun IH]; simpl.
  - destruct s' as [|c s']; simpl; [done|].
    destruct (p c); [|done]. by destruct (star_greedy p s' k).
  - rewrite Hc. by destruct IH as [r ->].
Qed.

(** The lazy star stops at the first place where the continuation
    succeeds. *)
Lemma star_lazy_first p s (k : jsstring → option R) res :
  star_lazy p s k = Some res →
  ∃ run s', s = run ++ s' ∧ Forall (λ c, p c = true) run
    ∧ k s' = Some res
    ∧ ∀ run1 run2, run = run1 ++ run2 → run2 ≠ [] → k (run2 ++ s') = None.
Proof.
  induction s as [|c s IH]; simpl; intros H.
  - destruct (k []) as [r|] eqn:Hk; [|done]. injection H as ->.
    exists [], []. repeat split; [done..|].
    intros run1 run2 Hnil. by destruct run1, run2.
  - destruct (k (c :: s)) as [r|] eqn:Hk.
    + injection H as ->. exists [], (c :: s). repeat split; [done..|].
      intros run1 run2 Hnil. by destruct run1, run2.
    + destruct (p c) eqn:Hp; [|done].
      destruct (IH H) as (run & s' & -> & Hrun & Hk' & Hfirst).
      exists (c :: run), s'. repeat split; [by constructor|done|].
      intros run1 run2 Heq Hne. destruct run1 as [|c1 run1].
      * simpl in Heq. by subst run2.
      * injection Heq as -> ->. by apply (Hfirst run1).
Qed.

Lemma star_lazy_complete p run s' (k : jsstring → option R) :
  Forall (λ c, p c = true) run → is_Some (k s') →
  is_Some (star_lazy p (run ++ s') k).
Proof.
  intros Hrun Hk. induction Hrun as [|c run Hc Hrun IH]; simpl.
  - destruct s' as [|c s']; simpl; by destruct Hk as [r ->].
  - destruct (k (c :: run ++ s')); [done|]. by rewrite Hc.
Qed.

(** A match consumes a prefix of the text. *)
Lemma matches_consumes icase r s s' cap cap' :
  matches icase r s s' cap cap' → ∃ t, s = t ++ s'.
Proof.
  revert s s' cap cap'. induction r as [|a|a|a|r1 IH1|r1 IH1 r2 IH2|];
    intros s s' cap cap' Hm; simpl in Hm.
  - destruct Hm as [-> _]. by exists [].
  - destruct Hm as (c & -> & _). by exists [c].
  - destruct Hm as (run & -> & _). by exists run.
  - destruct Hm as (run & -> & _). by exists run.
  - destruct Hm as (cap1 & Hm & _). by eapply IH1.
  - destruct Hm as (s1 & cap1 & Hm1 & Hm2).
    apply IH1 in Hm1 as [t1 ->]. apply IH2 in Hm2 as [t2 ->].
    exists (t1 ++ t2). by rewrite app_assoc.
  - destruct Hm as (-> & -> & _). by exists [].
Qed.

(** Whatever the matcher returns comes from a match of the pattern. *)
Lemma rmatch_sound icase r s cap
    (k : jsstring → option jsstring → option R) res :
  rmatch icase r s cap k = Some res →
  ∃ s' cap', matches icase r s s' cap cap' ∧ k s' cap' = Some res.
Proof.
  revert s cap k. induction r as [|a|a|a|r1 IH1|r1 IH1 r2 IH2|];
    intros s cap k H; simpl in H.
  - by exists s, cap.
  - destruct s as [|c s]; [done|].
    destruct (atom_matches icase a c) eqn:Ha; [|done].
    exists s, cap. split; [|done]. by exists c.
  - apply star_greedy_sound in H as (run & s' & -> & Hrun & Hk).
    exists s', cap. split; [|done]. by exists run.
  - apply star_lazy_first in H as (run & s' & -> & Hrun & Hk & _).
    exists s', cap. split; [|done]. by exists run.
  - apply IH1 in H as (s' & cap1 & Hm & Hk).
    eexists s', _. split; [|exact Hk]. by exists cap1.
  - apply IH1 in H as (s1 & cap1 & Hm1 & H).
    apply IH2 in H as (s' & cap' & Hm2 & Hk).
    exists s', cap'. split; [|done]. by exists s1, cap1.
  - destruct s; [|done]. by exists [], cap.
Qed.

(** Where the pattern has a match after which the continuation
    succeeds, the matcher returns something. *)
Lemma rmatch_complete icase r s s' cap cap'
    (k : jsstring → option jsstring → option R) :
  matches icase r s s' cap cap' → is_Some (k s' cap') →
  is_Some (rmatch icase r s cap k).
Proof.
  revert s s' cap cap' k. induction r as [|a|a|a|r1 IH1|r1 IH1 r2 IH2|];
    intros s s' cap cap' k Hm Hk; simpl in Hm |- *.
  - by destruct Hm as [-> ->].
  - destruct Hm as (c & -> & Ha & ->). by rewrite Ha.
  - destruct Hm as (run & -> & Hrun & ->).
    by apply (star_greedy_complete _ run s' (λ s0, k s0 cap)).
  - destruct Hm as (run & -> & Hrun & ->).
    by apply (star_lazy_complete _ run s' (λ s0, k s0 cap)).
  - destruct Hm as (cap1 & Hm & ->). by eapply IH1.
  - destruct Hm as (s1 & cap1 & Hm1 & Hm2).
    eapply IH1; [exact Hm1|]. by eapply IH2.
  - by destruct Hm as (-> & -> & ->).
Qed.

End Matching.

(** ** The patterns of the markup extraction *)

Section ExtractionPatterns.
Import Denotation AsciiToImage.

Lemma canonicalize_fold_case c : canonicalize true c = Spec.fold_case c.
Proof.
  unfold canonicalize, Spec.fold_case. cbn [andb].
  destruct (decide (97 ≤ c ≤ 122)) as [Hc|Hc].
  - destruct (Z.leb_spec 97 c), (Z.leb_spec c 122); simpl; lia.
  - destruct (Z.leb_spec 97 c), (Z.leb_spec c 122); simpl; lia.
Qed.

Lemma unit_eqb_fold_case a b :
  unit_eqb true a b = true ↔ Spec.fold_case a = Spec.fold_case b.
Proof.
  unfold unit_eqb. rewrite !canonicalize_fold_case. apply Z.eqb_eq.
Qed.

Lemma fold_case_gt c : Spec.fold_case c = 62 ↔ c = 62.
Proof. unfold Spec.fold_case. destruct (decide (97 ≤ c ≤ 122)); lia. Qed.

Lemma atom_gt c : atom_matches true (Chr 62) c = true ↔ c = 62.
Proof.
  cbn [atom_matches]. rewrite unit_eqb_fold_case.
  change (Spec.fold_case 62) with 62. split; [intros H|intros ->; done].
  by apply fold_case_gt.
Qed.

Lemma atom_not_gt c : atom_matches true (NoneOf [62]) c = true ↔ c ≠ 62.
Proof.
  cbn [atom_matches existsb]. rewrite orb_false_r, negb_true_iff.
  rewrite <- not_true_iff_false, unit_eqb_fold_case.
  change (Spec.fold_case 62) with 62. split; intros H E; apply H.
  - by subst c.
  - by apply fold_case_gt.
Qed.

Lemma atom_quote c :
  atom_matches true (OneOf [DQUOTE; SQUOTE]) c = true ↔ Spec.quote c.
Proof.
  cbn [atom_matches existsb]. rewrite orb_false_r, orb_true_iff.
  rewrite !unit_eqb_fold_case. unfold Spec.quote, Spec.fold_case, DQUOTE, SQUOTE.
  simpl. destruct (decide (97 ≤ c ≤ 122)); lia.
Qed.

Lemma Forall_not_gt run :
  Forall (λ c, atom_matches true (NoneOf [62]) c = true) run ↔ 62 ∉ run.
Proof.
  rewrite list.Forall_forall. split.
  - intros H Hin. by apply (proj1 (atom_not_gt 62) (H 62 Hin)).
  - intros H c Hin. apply atom_not_gt. by intros ->.
Qed.

(** A literal consumes a text equal to it up to the case of letters. *)
Lemma matches_units (l : list Z) s s' cap cap' :
  matches true (foldr (λ c r, Cat (Atom (Chr c)) r) Empty l) s s' cap cap'
  ↔ ∃ t, s = t ++ s' ∧ Spec.same_ignoring_case t l ∧ cap' = cap.
Proof.
  unfold Spec.same_ignoring_case.
  revert s cap. induction l as [|c l IH]; intros s cap; simpl.
  - split.
    + intros [-> ->]. by exists [].
    + intros (t & -> & Ht & ->). by destruct t.
  - split.
    + intros (s1 & cap1 & (d & -> & Hd & ->) & Hm).
      apply IH in Hm as (t & -> & Ht & ->).
      exists (d :: t). repeat split. simpl. f_equal; [|done].
      symmetry. by apply unit_eqb_fold_case.
    + intros (t & -> & Ht & ->). destruct t as [|d t]; [done|].
      injection Ht as Hd Ht. exists (t ++ s'), cap. split.
      * exists d. repeat split. by apply unit_eqb_fold_case.
      * apply IH. by exists t.
Qed.

Lemma matches_lit (p : string) s s' cap cap' :
  matches true (lit p) s s' cap cap'
  ↔ ∃ t, s = t ++ s' ∧ Spec.same_ignoring_case t (js p) ∧ cap' = cap.
Proof. apply matches_units. Qed.

Lemma matches_open_pre s s' cap cap' :
  matches true re_open_pre s s' cap cap'
  ↔ ∃ tag, s = tag ++ s' ∧ Spec.pre_open tag ∧ cap' = cap.
Proof.
  unfold re_open_pre, cat, Spec.pre_open. cbn [foldr matches]. split.
  - intros (s1 & cap1 & Hlit & s2 & cap2 & (run & -> & Hrun & ->)
            & s3 & cap3 & (c & -> & Hc & ->) & -> & ->).
    apply matches_lit in Hlit as (name & -> & Hname & ->).
    apply atom_gt in Hc as ->. apply Forall_not_gt in Hrun.
    exists (name ++ run ++ [62]). split; [by rewrite <- !app_assoc|].
    split; [|done]. by exists name, run.
  - intros (tag & -> & (name & attrs & -> & Hname & Hattrs) & ->).
    exists ((attrs ++ [62]) ++ s'), cap. split.
    { apply matches_lit. exists name. by rewrite <- !app_assoc. }
    exists ([62] ++ s'), cap. split.
    { exists attrs. rewrite <- app_assoc. by rewrite Forall_not_gt. }
    exists s', cap. split; [|done]. exists 62. by rewrite atom_gt.
Qed.

Lemma matches_open_ascii s s' cap cap' :
  matches true re_open_ascii s s' cap cap'
  ↔ ∃ tag, s = tag ++ s' ∧ Spec.ascii_pre_open tag ∧ cap' = cap.
Proof.
  unfold re_open_ascii, cat, Spec.ascii_pre_open. cbn [foldr matches].
  split.
  - intros (s1 & cap1 & Hname
            & s2 & cap2 & (a1 & -> & Ha1 & ->)
            & s3 & cap3 & Hcls
            & s4 & cap4 & (q1 & -> & Hq1 & ->)
            & s5 & cap5 & Hval
            & s6 & cap6 & (q2 & -> & Hq2 & ->)
            & s7 & cap7 & (a2 & -> & Ha2 & ->)
            & s8 & cap8 & (c & -> & Hc & ->) & -> & ->).
    apply matches_lit in Hname as (name & -> & Hname & ->).
    apply matches_lit in Hcls as (cls & -> & Hcls & ->).
    apply matches_lit in Hval as (val & -> & Hval & ->).
    apply atom_gt in Hc as ->.
    apply Forall_not_gt in Ha1. apply Forall_not_gt in Ha2.
    apply atom_quote in Hq1. apply atom_quote in Hq2.
    exists (name ++ a1 ++ cls ++ [q1] ++ val ++ [q2] ++ a2 ++ [62]).
    split; [by rewrite <- !app_assoc|]. split; [|done].
    by exists name, a1, cls, q1, val, q2, a2.
  - intros (tag & -> & (name & a1 & cls & q1 & val & q2 & a2 & ->
                        & Hname & Hcls & Hval & Hq1 & Hq2 & Ha1 & Ha2) & ->).
    rewrite <- !app_assoc.
    eexists _, cap. split.
    { apply matches_lit. by exists name. }
    eexists _, cap. split.
    { exists a1. by rewrite Forall_not_gt. }
    eexists _, cap. split.
    { apply matches_lit. by exists cls. }
    eexists _, cap. split.
    { exists q1. by rewrite atom_quote. }
    eexists _, cap. split.
    { apply matches_lit. by exists val. }
    eexists _, cap. split.
    { exists q2. by rewrite atom_quote. }
    eexists _, cap. split.
    { exists a2. by rewrite Forall_not_gt. }
    exists s', cap. split; [|done]. exists 62. by rewrite atom_gt.
Qed.

Lemma take_consumed (run s' : jsstring) :
  take (length (run ++ s') - length s') (run ++ s') = run.
Proof.
  rewrite length_app.
  replace (length run + length s' - length s')%nat with (length run) by lia.
  by rewrite take_app_length.
Qed.

Section BodyAndClose.
Context {R : Type} (k : jsstring → option jsstring → option R).
Hypothesis k_total : ∀ s cap, is_Some (k s cap).

(** The captured body runs up to the nearest closing tag. *)
Lemma body_close_sound s1 cap1 res :
  rmatch true re_body_close s1 cap1 k = Some res →
  ∃ body close rest,
    s1 = body ++ close ++ rest ∧ Spec.pre_close close
    ∧ k rest (Some body) = Some res
    ∧ ∀ body' close' rest',
        s1 = body' ++ close' ++ rest' → Spec.pre_close close' →
        (length body ≤ length body')%nat.
Proof.
  unfold re_body_close. cbn [rmatch]. intros H.
  apply star_lazy_first in H as (run & s' & -> & _ & H & Hfirst).
  apply rmatch_sound in H as (rest & cap' & Hm & Hk).
  apply matches_lit in Hm as (close & -> & Hclose & ->).
  rewrite take_consumed in Hk.
  exists run, close, rest. repeat split; [done..|].
  intros body' close' rest' Heq Hclose'.
  destruct (decide (length run ≤ length body')%nat) as [|Hlt]; [done|].
  exfalso. apply app_eq_inv in Heq as [(t & -> & Ht)|(t & -> & Ht)].
  2: { rewrite length_app in Hlt. lia. }
  destruct t as [|c t]; [rewrite app_nil_r in Hlt; lia|].
  specialize (Hfirst body' (c :: t) eq_refl ltac:(done)).
  assert (is_Some (rmatch true (lit "</pre>") ((c :: t) ++ close ++ rest)
    (Some (take (length ((body' ++ c :: t) ++ close ++ rest)
                 - length ((c :: t) ++ close ++ rest))
                ((body' ++ c :: t) ++ close ++ rest))) k)) as [r Hr].
  { rewrite <- Ht. eapply rmatch_complete; [|apply k_total].
    apply matches_lit. by exists close'. }
  cbv beta in Hfirst. rewrite Hr in Hfirst. done.
Qed.

Lemma body_close_complete cap1 body close rest :
  Spec.pre_close close →
  is_Some (rmatch true re_body_close (body ++ close ++ rest) cap1 k).
Proof.
  intros Hclose. eapply rmatch_complete; [|apply k_total].
  unfold re_body_close. cbn [matches].
  exists (close ++ rest), (Some body). split.
  - exists cap1. split.
    + exists body. repeat split. by apply Forall_true.
    + by rewrite take_consumed.
  - apply matches_lit. by exists close.
Qed.
End BodyAndClose.

Lemma match_here_Some icase r s m :
  match_here icase r s = Some m →
  before m = [] ∧ s = matched m ++ after m.
Proof.
  unfold match_here. intros Hm.
  apply rmatch_sound in Hm as (s' & cap' & Hm & Hk).
  apply matches_consumes in Hm as [t ->]. injection Hk as <-.
  by rewrite take_consumed.
Qed.

(** The leftmost match. *)
Lemma search_Some icase r s m :
  search icase r s = Some m →
  ∃ rest m0,
    s = before m ++ rest
    ∧ match_here icase r rest = Some m0
    ∧ matched m = matched m0 ∧ group1 m = group1 m0 ∧ after m = after m0
    ∧ ∀ b1 b2, before m = b1 ++ b2 → b2 ≠ [] →
        match_here icase r (b2 ++ rest) = None.
Proof.
  revert m. induction s as [|c s IH]; intros m; cbn [search].
  - destruct (match_here icase r []) as [m0|] eqn:Hm; [|done].
    intros [= <-]. exists [], m0.
    destruct (match_here_Some _ _ _ _ Hm) as [Hb _].
    rewrite Hb. repeat split; [done..|].
    intros b1 b2 Hnil. by destruct b1, b2.
  - destruct (match_here icase r (c :: s)) as [m0|] eqn:Hm.
    + intros [= <-]. exists (c :: s), m0.
      destruct (match_here_Some _ _ _ _ Hm) as [Hb _].
      rewrite Hb. repeat split; [done..|].
      intros b1 b2 Hnil. by destruct b1, b2.
    + destruct (search icase r s) as [m1|] eqn:Hs; [|done].
      intros [= <-]. cbn [before matched group1 after].
      destruct (IH m1 eq_refl)
        as (rest & m0 & Heq & Hm0 & Hmt & Hg & Haf & Hfirst).
      exists rest, m0. repeat split; [by rewrite Heq at 1|done..|].
      intros b1 b2 Hb Hne. destruct b1 as [|c1 b1].
      * simpl in Hb. subst b2. simpl. by rewrite <- Heq.
      * injection Hb as -> Hb. by apply (Hfirst b1).
Qed.

Lemma search_decompose icase r s m :
  search icase r s = Some m → s = before m ++ matched m ++ after m.
Proof.
  intros Hs.
  apply search_Some in Hs as (rest & m0 & -> & Hm0 & -> & _ & -> & _).
  by destruct (match_here_Some _ _ _ _ Hm0) as [_ <-].
Qed.

(** The global replacement never exhausts its fuel: any fuel above the
    length of the text gives the same result. *)
Lemma replace_all_from_enough icase r repl (n n' : nat) s :
  (length s < n)%nat → (length s < n')%nat →
  replace_all_from n icase r repl s = replace_all_from n' icase r repl s.
Proof.
  revert n' s. induction n as [|n IH]; intros n' s Hn Hn'; [lia|].
  destruct n' as [|n']; [lia|]. cbn [replace_all_from].
  destruct (search icase r s) as [m|] eqn:Hs; [|done].
  apply search_decompose in Hs. apply (f_equal length) in Hs.
  rewrite !length_app in Hs.
  destruct (matched m) as [|c0 mt], (after m) as [|c rest]; [done|..];
    simpl in Hs.
  - do 3 f_equal. apply IH; lia.
  - do 2 f_equal. apply IH; simpl; lia.
  - do 2 f_equal. apply IH; simpl; lia.
Qed.

Lemma search_None icase r s :
  search icase r s = None →
  ∀ b rest, s = b ++ rest → match_here icase r rest = None.
Proof.
  induction s as [|c s IH]; cbn [search]; intros H b rest Heq.
  - destruct b, rest; try done.
    by destruct (match_here icase r []).
  - destruct (match_here icase r (c :: s)) eqn:Hm; [done|].
    destruct (search icase r s) eqn:Hs; [done|].
    destruct b as [|c1 b]; simpl in Heq.
    + by subst rest.
    + injection Heq as -> Heq. by apply (IH eq_refl b).
Qed.

(** An opening tag ends at the first [>] that follows its start. *)
Lemma tag_end_unique (u1 u2 r1 r2 : jsstring) :
  62 ∉ u1 → 62 ∉ u2 → u1 ++ 62 :: r1 = u2 ++ 62 :: r2 →
  u1 = u2 ∧ r1 = r2.
Proof.
  intros H1 H2 Heq.
  by destruct (not_elem_of_app_cons_inv_l _ _ _ _ _ _ H2 H1 Heq) as (? & _ & ?).
Qed.

Lemma same_ignoring_case_no_gt (t l : jsstring) :
  Spec.same_ignoring_case t l → 62 ∉ l → 62 ∉ t.
Proof.
  unfold Spec.same_ignoring_case. intros Heq Hl Ht.
  apply (list_elem_of_fmap_2 Spec.fold_case) in Ht. rewrite Heq in Ht.
  apply list_elem_of_fmap in Ht as (d & Hd & Hin).
  symmetry in Hd. change (Spec.fold_case 62) with 62 in Hd.
  apply (proj1 (fold_case_gt d)) in Hd. by subst d.
Qed.

Lemma no_gt_in_literal (p : string) :
  bool_decide (62 ∉ js p) = true → 62 ∉ js p.
Proof. apply bool_decide_eq_true_1. Qed.

Lemma pre_open_ends (tag : jsstring) :
  Spec.pre_open tag → ∃ u, tag = u ++ [62] ∧ 62 ∉ u.
Proof.
  intros (name & attrs & -> & Hname & Hattrs).
  exists (name ++ attrs). split; [by rewrite <- app_assoc|].
  apply same_ignoring_case_no_gt in Hname;
    [|by apply no_gt_in_literal].
  by apply not_elem_of_app.
Qed.

Lemma ascii_pre_open_pre_open (tag : jsstring) :
  Spec.ascii_pre_open tag → Spec.pre_open tag.
Proof.
  intros (name & a1 & cls & q1 & val & q2 & a2 & ->
          & Hname & Hcls & Hval & Hq1 & Hq2 & Ha1 & Ha2).
  exists name, (a1 ++ cls ++ [q1] ++ val ++ [q2] ++ a2).
  split; [by rewrite <- !app_assoc|]. split; [done|].
  apply same_ignoring_case_no_gt in Hcls; [|by apply no_gt_in_literal].
  apply same_ignoring_case_no_gt in Hval; [|by apply no_gt_in_literal].
  assert (62 ∉ [q1]).
  { apply not_elem_of_cons. split; [|apply not_elem_of_nil].
    by destruct Hq1 as [->| ->]. }
  assert (62 ∉ [q2]).
  { apply not_elem_of_cons. split; [|apply not_elem_of_nil].
    by destruct Hq2 as [->| ->]. }
  repeat (apply not_elem_of_app; split; [done|]). done.
Qed.

(** Both patterns are an opening tag of some kind followed by the body
    and the closing tag; what the search finds is stated once, for any
    kind [opening] that the pattern [ro] of the tag denotes. *)
Section Blocks.
Variable ro : regex.
Variable opening : jsstring → Prop.
Hypothesis ro_denotes : ∀ s s' cap cap',
  matches true ro s s' cap cap'
  ↔ ∃ tag, s = tag ++ s' ∧ opening tag ∧ cap' = cap.
Hypothesis opening_ends : ∀ tag,
  opening tag → ∃ u, tag = u ++ [62] ∧ 62 ∉ u.

Lemma match_here_block tag body close rest :
  opening tag → Spec.pre_close close →
  is_Some (match_here true (Cat ro re_body_close)
             (tag ++ body ++ close ++ rest)).
Proof.
  intros Htag Hclose. unfold match_here. cbn [rmatch].
  eapply rmatch_complete.
  - apply ro_denotes. by exists tag.
  - by apply body_close_complete.
Qed.

Lemma search_no_block html :
  search true (Cat ro re_body_close) html = None →
  ¬ Spec.has_block opening html.
Proof.
  intros Hs (before & body & tag & close & rest & -> & Htag & Hclose).
  pose proof (search_None _ _ _ Hs before _ eq_refl) as Hnone.
  destruct (match_here_block tag body close rest Htag Hclose) as [m Hm].
  by rewrite Hm in Hnone.
Qed.

Lemma search_first_block html m :
  search true (Cat ro re_body_close) html = Some m →
  ∃ body, group1 m = Some body ∧ Spec.first_block opening html body.
Proof.
  intros Hs.
  apply search_Some
    in Hs as (rest & m0 & Hhtml & Hm0 & _ & Hg & _ & Hfirst).
  unfold match_here in Hm0. cbn [rmatch] in Hm0.
  apply rmatch_sound in Hm0 as (s1 & cap1 & Hopen & Hm0).
  apply ro_denotes in Hopen as (tag & -> & Htag & ->).
  apply body_close_sound in Hm0
    as (body & close & rest' & -> & Hclose & Hm0 & Hmin); [|done].
  injection Hm0 as <-. cbn [group1] in Hg.
  exists body. split; [done|]. exists (before m). split.
  { exists tag, close, rest'. by rewrite Hhtml at 1. }
  intros before' body' (tag' & close' & rest'' & Hhtml' & Htag' & Hclose').
  destruct (decide (length (before m) < length before')%nat) as [|Hge];
    [by left|right].
  rewrite Hhtml in Hhtml' at 1.
  apply app_eq_inv in Hhtml' as [(t & Hb & Ht)|(t & Hb & Ht)].
  - (* an earlier start: the search would have stopped there *)
    destruct t as [|c t].
    2: { exfalso. specialize (Hfirst before' (c :: t) Hb ltac:(done)).
         rewrite <- Ht in Hfirst.
         destruct (match_here_block tag' body' close' rest'' Htag' Hclose')
           as [m' Hm']. by rewrite Hm' in Hfirst. }
    rewrite app_nil_r in Hb. split; [by rewrite Hb|].
    simpl in Ht.
    destruct (opening_ends _ Htag) as (u & -> & Hu).
    destruct (opening_ends _ Htag') as (u' & -> & Hu').
    rewrite <- !app_assoc in Ht. simpl in Ht.
    apply tag_end_unique in Ht as [_ Ht]; [|done..].
    by eapply Hmin.
  - rewrite Hb, length_app in Hge.
    destruct t; [|simpl in Hge; lia].
    rewrite app_nil_r in Hb. split; [by rewrite Hb|].
    simpl in Ht.
    destruct (opening_ends _ Htag) as (u & -> & Hu).
    destruct (opening_ends _ Htag') as (u' & -> & Hu').
    rewrite <- !app_assoc in Ht. simpl in Ht.
    apply tag_end_unique in Ht as [_ Ht]; [|done..].
    by eapply Hmin.
Qed.

(** There is one first block at most. *)
Lemma first_block_unique html body1 body2 :
  Spec.first_block opening html body1 →
  Spec.first_block opening html body2 → body1 = body2.
Proof.
  intros (b1 & Hb1 & Hmin1) (b2 & Hb2 & Hmin2).
  assert (length b1 = length b2 ∧ length body1 = length body2)
    as [Hlb Hlbody].
  { destruct (Hmin1 _ _ Hb2) as [?|[? ?]], (Hmin2 _ _ Hb1) as [?|[? ?]];
      lia. }
  destruct Hb1 as (tag1 & close1 & rest1 & -> & Htag1 & _).
  destruct Hb2 as (tag2 & close2 & rest2 & Heq & Htag2 & _).
  apply app_inj_1 in Heq as [_ Heq]; [|done].
  destruct (opening_ends _ Htag1) as (u1 & -> & Hu1).
  destruct (opening_ends _ Htag2) as (u2 & -> & Hu2).
  rewrite <- !app_assoc in Heq. simpl in Heq.
  apply tag_end_unique in Heq as [_ Heq]; [|done..].
  by apply app_inj_1 in Heq as [? _].
Qed.

Lemma search_block_cases html :
  match search true (Cat ro re_body_close) html with
  | Some m => ∃ body, group1 m = Some body
                ∧ Spec.first_block opening html body
  | None => ¬ Spec.has_block opening html
  end.
Proof.
  destruct (search true (Cat ro re_body_close) html) as [m|] eqn:Hs.
  - by apply search_first_block.
  - by apply search_no_block.
Qed.
End Blocks.

Lemma first_block_has_block opening html body :
  Spec.first_block opening html body → Spec.has_block opening html.
Proof. intros (before & Hb & _). by exists before, body. Qed.

Lemma search_pre_ascii html :
  match search true re_pre_ascii html with
  | Some m => ∃ body, group1 m = Some body
                ∧ Spec.first_block Spec.ascii_pre_open html body
  | None => ¬ Spec.has_block Spec.ascii_pre_open html
  end.
Proof.
  apply search_block_cases.
  - apply matches_open_ascii.
  - intros tag Htag. by apply pre_open_ends, ascii_pre_open_pre_open.
Qed.

Lemma search_pre html :
  match search true re_pre html with
  | Some m => ∃ body, group1 m = Some body
                ∧ Spec.first_block Spec.pre_open html body
  | None => ¬ Spec.has_block Spec.pre_open html
  end.
Proof.
  apply search_block_cases.
  - apply matches_open_pre.
  - apply pre_open_ends.
Qed.

(** The first block of a given text, read off a run of the search. *)
Lemma first_ascii_block_found html m body :
  search true re_pre_ascii html = Some m → group1 m = Some body →
  Spec.first_block Spec.ascii_pre_open html body.
Proof.
  intros Hs Hg. pose proof (search_pre_ascii html) as H.
  rewrite Hs in H. destruct H as (body' & Hg' & H). congruence.
Qed.

Lemma first_pre_block_found html m body :
  search true re_pre html = Some m → group1 m = Some body →
  Spec.first_block Spec.pre_open html body.
Proof.
  intros Hs Hg. pose proof (search_pre html) as H.
  rewrite Hs in H. destruct H as (body' & Hg' & H). congruence.
Qed.

End ExtractionPatterns.

(** ** Properties of the Intensity Renderer *)

Section IntensityRenderer.
Import AsciiToImage.

Lemma lightChars_units :
  lightChars =
    [[64]; [35]; [36]; [37]; [38]; [42]; [43]; [61]; [126];
     [9608]; [9619]; [9618]; [9617]].
Proof. vm_compute. reflexivity. Qed.

(** C1, as stated, fails: ['#'] is second in the list, so the claim
    gives it 245, and the table holds 240 for it. *)
Lemma light_steps_of_ten_fails : ¬ Spec.light_steps_of_ten.
Proof.
  intros H. specialize (H 1%nat 35 eq_refl).
  vm_compute in H. discriminate H.
Qed.

(** C1, amended: a character at position [i] of the light list has
    brightness [255 - 10 * i] unless it is one of the five that a later
    assignment of the table replaces; those five have the later values:
    ['#'] 240, ['*'] 220, ['+'] 160, ['='] 200 and ['~'] 130. *)
Theorem light_brightness (i : nat) (c : Z) :
  lightChars !! i = Some [c] →
  brightness c =
    if decide (c = 35) then 240
    else if decide (c = 42) then 220
    else if decide (c = 43) then 160
    else if decide (c = 61) then 200
    else if decide (c = 126) then 130
    else 255 - 10 * Z.of_nat i.
Proof.
  rewrite lightChars_units. intros H.
  do 13 (destruct i as [|i];
         [injection H as <-; vm_compute; reflexivity|simpl in H]).
  discriminate H.
Qed.

Lemma light_brightness_witness : brightness 36 = 235.
Proof. apply (light_brightness 2 36). vm_compute. reflexivity. Defined.

(** C3: space, tab and line feed are keys of the table with value 0; the
    carriage return is not a key, and the fallback gives it its code. *)
Theorem whitespace_brightness :
  brightness SPACE = 0 ∧ brightness TAB = 0 ∧ brightness LF = 0
  ∧ charTable !! [CR] = None ∧ brightness CR = 13.
Proof. vm_compute. repeat split. Qed.

(** A carriage return inside a line reaches the map: in the text
    [a\rb] it is cell 1 of the only row, filled with gray 13. *)
Example carriage_return_cell :
  (λ s, filled (ctx2d s) !! 2%nat) <$>
    convert (constructor no_options) [97; CR; 98]
  = Some (Some (Rgb 13 13 13, Rect (of_Z 8) (of_Z 0) (of_Z 8) (of_Z 8))).
Proof. vm_compute. reflexivity. Qed.

Lemma lines_of_rows text : lines_of text = Spec.rows text.
Proof.
  unfold lines_of, Spec.rows, re_trailing_cr. apply list_fmap_ext.
  intros _ l _. apply replace_trailing_cr.
Qed.

Lemma convert_returns (self : t) (text : jsstring) :
  is_Some (convert self text).
Proof.
  unfold convert. rewrite lines_of_rows, Math_max_lengths; [done|].
  unfold Spec.rows. intros H%fmap_nil_inv. by apply split_nonempty in H.
Qed.

(** What [convert] draws in any mode, with the styles left open. *)
Lemma convert_unfold (self : t) (text : jsstring) :
  convert self text
  = Some (Surface
      (ToInt32 (of_Z (Spec.columns text) * pixelSize self * scale self)%num)
      (ToInt32 (of_Z (Spec.rowCount text) * pixelSize self * scale self)%num)
      (foldl (draw_row self (Spec.rows text) (Spec.columns text))
         (Context (Css (backgroundColor self))
            [(Css (backgroundColor self),
              Rect (of_Z 0) (of_Z 0)
                (of_Z (Spec.columns text) * pixelSize self * scale self)%num
                (of_Z (Spec.rowCount text) * pixelSize self
                 * scale self)%num)])
         (seq 0 (length (Spec.rows text))))).
Proof.
  unfold convert. rewrite lines_of_rows, Math_max_lengths; [done|].
  unfold Spec.rows. intros H%fmap_nil_inv. by apply split_nonempty in H.
Qed.

(** The size of a surface for whole numbers: the product itself. *)
Lemma whole_size (n p q : Z) :
  0 ≤ n → 0 < p → 0 < q → n * p * q < 2 ^ 31 →
  ToInt32 (of_Z n * of_Z p * of_Z q)%num = n * p * q.
Proof.
  intros Hn Hp Hq Hlt.
  destruct (decide (n = 0)) as [->|Hn0].
  { generalize (of_Z p) (of_Z q). by intros [] []. }
  assert (n * p < 2 ^ 31) by nia.
  assert (n < 2 ^ 31 ∧ p < 2 ^ 31 ∧ q < 2 ^ 31) as (? & ? & ?) by nia.
  unfold of_Z.
  rewrite !dyadic_mul by (unfold fits; simpl; lia).
  unfold ToInt32, ToUint32. rewrite truncate_dyadic by (unfold fits; lia).
  simpl (0 + 0 + 0). rewrite Z.pow_0_r, Z.div_1_r.
  rewrite Z.mod_small by lia.
  destruct (Z.ltb_spec (n * p * q) (2 ^ 31)); [done|lia].
Qed.

(** C6, as stated, fails: a row of 45 characters at pixel size 8 and
    scale 0.7 gives a surface 251 wide, where 45 * 8 * 0.7 is 252; the
    product the code computes is the number just below 252, and the
    surface keeps its integer part. *)
Lemma convert_size_not_exact :
  ∃ s, convert scaled (replicate 45 65) = Some s
    ∧ Spec.columns (replicate 45 65) = 45
    ∧ pixelSize scaled = of_Z 8 ∧ scale scaled = decimal 7 10
    ∧ width s = 251
    ∧ of_Z (width s)
      ≠ (of_Z (Spec.columns (replicate 45 65)) * pixelSize scaled
         * scale scaled)%num
    ∧ ¬ (inject_Z (width s) == 45 * 8 * (7 # 10))%Q.
Proof.
  eexists. split; [vm_compute; reflexivity|].
  repeat (split; [reflexivity|]).
  split; [vm_compute; discriminate|].
  vm_compute. discriminate.
Qed.

(** C6, amended: for every text, [convert] produces a surface of whole
    pixels; its size is the integer part of the products
    [columns * pixelSize * scale] and [rows * pixelSize * scale] as the
    code computes them, the rows being the text split at line feeds with
    a trailing carriage return stripped from each and the columns the
    longest row.  When the pixel size and the scale are positive whole
    numbers, that is exactly [columns * pixelSize * scale] by
    [rows * pixelSize * scale]. *)
Theorem convert_size (self : t) (text : jsstring) :
  ∃ s, convert self text = Some s
    ∧ width s
      = ToInt32 (of_Z (Spec.columns text) * pixelSize self * scale self)%num
    ∧ height s
      = ToInt32 (of_Z (Spec.rowCount text) * pixelSize self * scale self)%num
    ∧ ∀ p q : Z,
        pixelSize self = of_Z p → scale self = of_Z q →
        0 < p → 0 < q →
        Spec.columns text * p * q < 2 ^ 31 →
        Spec.rowCount text * p * q < 2 ^ 31 →
        width s = Spec.columns text * p * q
        ∧ height s = Spec.rowCount text * p * q.
Proof.
  rewrite convert_unfold. eexists. split; [reflexivity|].
  cbn [width height]. split; [reflexivity|]. split; [reflexivity|].
  intros p q -> -> Hp Hq Hw Hh. split.
  - apply whole_size; [apply columns_nonneg|done..].
  - apply whole_size; [unfold Spec.rowCount; lia|done..].
Qed.

(** The text [A B] under the default options, pixel size 8 and scale 1:
    24 by 8 pixels. *)
Lemma convert_size_witness :
  ∃ s, convert (constructor no_options) (js "A B") = Some s
    ∧ width s = 24 ∧ height s = 8.
Proof.
  destruct (convert_size (constructor no_options) (js "A B"))
    as (s & Hs & _ & _ & Hwhole).
  exists s. split; [exact Hs|].
  apply (Hwhole 8 1); reflexivity.
Defined.

(** The text [A B] under the default options: three cells in one row,
    24 by 8 pixels, gray 180 for the letters and black for the space,
    over the background. *)
Example convert_A_B :
  ∃ s, convert (constructor no_options) (js "A B") = Some s
    ∧ width s = 24 ∧ height s = 8
    ∧ (filled (ctx2d s)).*1
      = [Css (js "#000000"); Rgb 180 180 180; Rgb 0 0 0; Rgb 180 180 180].
Proof.
  destruct (convert_returns (constructor no_options) (js "A B"))
    as [s Hs].
  exists s. split; [exact Hs|].
  vm_compute in Hs. injection Hs as <-.
  repeat split; reflexivity.
Qed.

(** C7: in monochrome mode the cell is filled in the foreground colour
    when its intensity exceeds 128 and in the background colour
    otherwise, 128 included; with two distinct colours, the fill is the
    foreground exactly when the intensity exceeds 128. *)
Theorem monochrome_threshold (self : t) (line : jsstring) (y x : nat)
    (ctx : context) :
  colorMode self = js "monochrome" →
  let char := match line !! x with Some c => [c] | None => [SPACE] end in
  let intensity := charMap_get (charMap self) char in
  ∃ st r,
    filled (draw_cell self line y x ctx) = filled ctx ++ [(st, r)]
    ∧ (128 < intensity → st = Css (foregroundColor self))
    ∧ (intensity ≤ 128 → st = Css (backgroundColor self))
    ∧ (foregroundColor self ≠ backgroundColor self →
       (st = Css (foregroundColor self) ↔ 128 < intensity)).
Proof.
  intros Hmode char intensity.
  unfold draw_cell, cell_style. fold char. fold intensity.
  rewrite decide_True by exact Hmode.
  eexists _, _. split; [reflexivity|].
  destruct (Z.ltb_spec 128 intensity) as [Hi|Hi].
  - split; [done|]. split; [lia|]. done.
  - split; [lia|]. split; [done|]. intros Hne. split; [|lia].
    intros [= Heq]. by destruct Hne.
Qed.

(** Brightness 128 exactly: the character whose code is 128, which the
    table does not hold, drawn in the background colour. *)
Lemma monochrome_threshold_witness :
  ∃ st r,
    filled (draw_cell monochrome [128] 0 0 (Context (Css []) []))
      = [(st, r)]
    ∧ (128 < 128 → st = Css (js "#ffffff"))
    ∧ (128 ≤ 128 → st = Css (js "#000000"))
    ∧ (js "#ffffff" ≠ js "#000000" → (st = Css (js "#ffffff") ↔ 128 < 128)).
Proof.
  exact (monochrome_threshold monochrome [128] 0 0 (Context (Css []) [])
           eq_refl).
Defined.

(** The text [@] in monochrome mode with the default colours: one
    cell, filled in the foreground colour. *)
Example convert_at_monochrome :
  (λ s, (filled (ctx2d s)).*1) <$> convert monochrome (js "@")
  = Some [Css (js "#000000"); Css (js "#ffffff")].
Proof. vm_compute. reflexivity. Qed.

(** C9, as stated, fails: the text returned is not the content of the
    block as it stands when the content holds a character reference;
    [a&amp;b] comes back as [a&b]. *)
Lemma returns_raw_contents_fails : ¬ Spec.returns_raw_contents.
Proof.
  intros H.
  specialize (H (λ _, Return (js "<pre class='ascii'>a&amp;b</pre>")) []
                (js "<pre class='ascii'>a&amp;b</pre>") (js "a&amp;b")
                eq_refl).
  assert (extractFromHtml
            (λ _, Return (js "<pre class='ascii'>a&amp;b</pre>")) []
          = Return (js "a&b")) as Hrun by (vm_compute; reflexivity).
  rewrite Hrun in H.
  assert (Return (js "a&b") = Return (js "a&amp;b")) as Habs.
  { apply H. eapply first_ascii_block_found; vm_compute; reflexivity. }
  vm_compute in Habs. discriminate Habs.
Qed.

(** C9, amended: where the markup has a block opened by a [<pre ...>]
    tag with [class="ascii"] (letters in any case, either quotes),
    [extractFromHtml] returns the content of the first such block after
    [stripHtml] (tags replaced by spaces, character references decoded);
    where it has none, the same of the first block opened by any
    [<pre ...>] tag; where it has no such block at all, it throws the
    error "No ASCII art found in HTML file".  A block reaches from its
    opening tag to the nearest closing [</pre>], and the first block is
    the one that starts leftmost; whenever there is a block there is a
    first one. *)
Theorem extractFromHtml_blocks
    (readFileSync : jsstring → completion jsstring) (path html : jsstring) :
  readFileSync path = Return html →
  (∀ body,
     Spec.first_block Spec.ascii_pre_open html body →
     extractFromHtml readFileSync path = Return (stripHtml body))
  ∧ (¬ Spec.has_block Spec.ascii_pre_open html →
     ∀ body,
       Spec.first_block Spec.pre_open html body →
       extractFromHtml readFileSync path = Return (stripHtml body))
  ∧ (¬ Spec.has_block Spec.pre_open html →
     extractFromHtml readFileSync path = Throw no_art)
  ∧ (Spec.has_block Spec.ascii_pre_open html →
     ∃ body, Spec.first_block Spec.ascii_pre_open html body)
  ∧ (Spec.has_block Spec.pre_open html →
     ∃ body, Spec.first_block Spec.pre_open html body).
Proof.
  intros Hread. unfold extractFromHtml, str_match. rewrite Hread.
  pose proof (search_pre_ascii html) as Hascii.
  pose proof (search_pre html) as Hpre.
  destruct (search true re_pre_ascii html) as [m|];
    destruct (search true re_pre html) as [m'|]; cbn [fmap option_fmap option_map].
  - destruct Hascii as (body1 & Hg1 & Hfb1).
    destruct Hpre as (body2 & Hg2 & Hfb2).
    repeat split.
    + intros body Hfb. unfold group_text. cbn [snd]. rewrite Hg1.
      do 2 f_equal. eapply first_block_unique; [|exact Hfb1|exact Hfb].
      intros tag Htag. by apply pre_open_ends, ascii_pre_open_pre_open.
    + intros Hno. destruct Hno. by eapply first_block_has_block.
    + intros Hno. destruct Hno. by eapply first_block_has_block.
    + intros _. by exists body1.
    + intros _. by exists body2.
  - destruct Hascii as (body1 & Hg1 & Hfb1). destruct Hpre.
    apply first_block_has_block in Hfb1
      as (before & body & tag & close & rest & Heq & Htag & Hclose).
    exists before, body, tag, close, rest.
    by split; [|split; [apply ascii_pre_open_pre_open|]].
  - destruct Hpre as (body2 & Hg2 & Hfb2).
    repeat split.
    + intros body Hfb. destruct Hascii. by eapply first_block_has_block.
    + intros _ body Hfb. unfold group_text. cbn [snd]. rewrite Hg2.
      do 2 f_equal. eapply first_block_unique; [|exact Hfb2|exact Hfb].
      apply pre_open_ends.
    + intros Hno. destruct Hno. by eapply first_block_has_block.
    + intros Hhas. by destruct Hascii.
    + intros _. by exists body2.
  - repeat split.
    + intros body Hfb. destruct Hascii. by eapply first_block_has_block.
    + intros _ body Hfb. destruct Hpre. by eapply first_block_has_block.
    + intros Hhas. by destruct Hascii.
    + intros Hhas. by destruct Hpre.
Qed.

(** The scenario of the specification: the block [X\nY]. *)
Lemma extractFromHtml_blocks_witness :
  extractFromHtml
    (λ _, Return (js "<pre class='ascii'>X" ++ [LF] ++ js "Y</pre>")) []
  = Return (stripHtml [88; LF; 89]).
Proof.
  apply (proj1 (extractFromHtml_blocks
           (λ _, Return (js "<pre class='ascii'>X" ++ [LF] ++ js "Y</pre>"))
           [] (js "<pre class='ascii'>X" ++ [LF] ++ js "Y</pre>") eq_refl)).
  eapply first_ascii_block_found; vm_compute; reflexivity.
Defined.

(** Three runs: the classed block wins over an earlier plain one; the
    plain block is the fallback; without a block, the error. *)
Example extractFromHtml_runs :
  extractFromHtml
    (λ _, Return (js "<pre>plain</pre><PRE id=1 CLASS='ascii'>art</Pre>")) []
  = Return (js "art")
  ∧ extractFromHtml (λ _, Return (js "<p>x</p><pre id=a>plain</pre>")) []
    = Return (js "plain")
  ∧ extractFromHtml (λ _, Return (js "<p>no art here</p>")) []
    = Throw (js "No ASCII art found in HTML file").
Proof. repeat split; vm_compute; reflexivity. Qed.

End IntensityRenderer.
(** ** Properties of the Glyph Renderer *)

Section GlyphRenderer.
Import AsciiToCanvas.

Lemma glyph_lines_of_rows text : lines_of text = Spec.rows text.
Proof.
  unfold lines_of, Spec.rows, re_trailing_cr. apply list_fmap_ext.
  intros _ l _. apply replace_trailing_cr.
Qed.

Lemma rows_nonempty text : Spec.rows text ≠ [].
Proof.
  unfold Spec.rows. intros H%fmap_nil_inv. by apply split_nonempty in H.
Qed.

(** C2, as stated, fails: the grid of ['.'] has not exactly one true
    cell. *)
Lemma dot_glyph_not_single_cell :
  ¬ ∃ cell, Spec.on_cells (glyph_of page_default 46) = [cell].
Proof. intros [cell H]. vm_compute in H. discriminate H. Qed.

(** C2, amended: the pattern of ['.'] is a grid of 7 rows of 5 cells
    with exactly two true cells, column 2 of rows 5 and 6 (the two
    bottom rows); every other cell is false. *)
Theorem dot_glyph (cssPrimary : jsstring) :
  let g := glyph_of (asciiConverter cssPrimary) 46 in
  Spec.is_grid 7 5 g
  ∧ Spec.on_cells g = [(5, 2); (6, 2)]%nat
  ∧ g = [[false; false; false; false; false];
         [false; false; false; false; false];
         [false; false; false; false; false];
         [false; false; false; false; false];
         [false; false; false; false; false];
         [false; false; true; false; false];
         [false; false; true; false; false]].
Proof.
  assert (glyph_of (asciiConverter cssPrimary) 46
          = [[false; false; false; false; false];
             [false; false; false; false; false];
             [false; false; false; false; false];
             [false; false; false; false; false];
             [false; false; false; false; false];
             [false; false; true; false; false];
             [false; false; true; false; false]]) as ->
    by (vm_compute; reflexivity).
  split; [|split; reflexivity].
  split; [reflexivity|]. repeat constructor.
Qed.

(** C4, as stated, fails: one column at the default cell width 12.5
    gives a canvas 13 wide (and 18 high for the cell height 17.5). *)
Lemma createCanvas_size_not_exact :
  ∃ c, createCanvas page_default (js "A") None = Some c
    ∧ Spec.columns (js "A") = 1
    ∧ charPixelWidth page_default None = decimal 25 2
    ∧ width c = 13
    ∧ of_Z (width c)
      ≠ (of_Z (Spec.columns (js "A"))
         * charPixelWidth page_default None)%num.
Proof.
  eexists. split; [vm_compute; reflexivity|].
  repeat (split; [reflexivity|]).
  vm_compute. discriminate.
Qed.

(** The size of the canvas, for a text with a non-empty row. *)
Lemma createCanvas_dims (self : t) (text : jsstring)
    (originalElement : option element) :
  0 < Spec.columns text →
  createCanvas self text originalElement
  = Some (Canvas
      (dimension 300
         (Math_ceil (of_Z (Spec.columns text)
                     * charPixelWidth self originalElement)%num))
      (dimension 150
         (Math_ceil ((of_Z (Spec.rowCount text) - of_Z 1)
                     * resolved_lineHeight self originalElement
                     + charPixelHeight self)%num))
      (foldl (draw_row self (charPixelWidth self originalElement)
                (resolved_lineHeight self originalElement)
                (Spec.rows text) (Spec.columns text))
         (Context false (lineColor self) [])
         (seq 0 (length (Spec.rows text))))).
Proof.
  intros Hcols. unfold createCanvas. rewrite glyph_lines_of_rows.
  rewrite Math_max_lengths by apply rows_nonempty.
  fold (Spec.columns text).
  rewrite bool_decide_eq_false_2 by lia.
  rewrite bool_decide_eq_false_2; [done|].
  pose proof (rows_nonempty text) as Hne.
  destruct (Spec.rows text); [done|]. simpl. lia.
Qed.

(** C4, amended: for every text with a non-empty row, the canvas is
    [Math.ceil (columns * cellWidth)] wide and
    [Math.ceil ((rows - 1) * lineHeight + cellHeight)] high: the claimed
    size as the code computes it, rounded up to an integer, and taken by
    the canvas element as an unsigned 32-bit integer (when that exceeds
    2147483647, as it does for a negative size, the element keeps its
    default, 300 by 150). *)
Theorem createCanvas_size (self : t) (text : jsstring)
    (originalElement : option element) :
  0 < Spec.columns text →
  ∃ c, createCanvas self text originalElement = Some c
    ∧ width c
      = dimension 300
          (Math_ceil (of_Z (Spec.columns text)
                      * charPixelWidth self originalElement)%num)
    ∧ height c
      = dimension 150
          (Math_ceil ((of_Z (Spec.rowCount text) - of_Z 1)
                      * resolved_lineHeight self originalElement
                      + charPixelHeight self)%num).
Proof.
  intros Hcols. rewrite createCanvas_dims by done.
  eexists. split; [reflexivity|]. split; reflexivity.
Qed.

Lemma createCanvas_size_witness :
  ∃ c, createCanvas page_default (js "A .") None = Some c
    ∧ width c = 38 ∧ height c = 18.
Proof.
  destruct (createCanvas_size page_default (js "A .") None)
    as (c & Hc & Hw & Hh); [reflexivity|].
  exists c. split; [exact Hc|]. split.
  - rewrite Hw. reflexivity.
  - rewrite Hh. reflexivity.
Defined.

(** Ten rows at pixel size 0.6: the height the code computes,
    [9 * 4.2 + 4.2] in its own arithmetic, lies just above 42, and the
    canvas is 43 high. *)
Example createCanvas_rounded_sum :
  (λ c, (width c, height c)) <$>
    createCanvas
      (constructor [] (Options (Some (decimal 6 10)) None None None None None))
      (concat (replicate 9 [65; LF]) ++ [65]) None
  = Some (3, 43).
Proof. vm_compute. reflexivity. Qed.

(** A negative pixel size: the canvas element takes neither dimension
    and keeps its defaults. *)
Example createCanvas_negative_size :
  (λ c, (width c, height c)) <$>
    createCanvas
      (constructor []
         (Options (Some (SFopp (decimal 25 10))) None None None None None))
      (js "A") None
  = Some (300, 150).
Proof. vm_compute. reflexivity. Qed.

(** With a reference element of font size 16 and line height 20, the
    cell is [16 * 0.6] wide and a line 20 high. *)
Example createCanvas_reference_element :
  (λ c, (width c, height c)) <$>
    createCanvas page_default (js "AB") (Some (Element (of_Z 16) (of_Z 20)))
  = Some (20, 18).
Proof. vm_compute. reflexivity. Qed.

(** Without a non-empty row there is no canvas. *)
Lemma createCanvas_empty (self : t) (text : jsstring)
    (originalElement : option element) :
  Spec.columns text = 0 → createCanvas self text originalElement = None.
Proof.
  intros Hcols. unfold createCanvas. rewrite glyph_lines_of_rows.
  rewrite Math_max_lengths by apply rows_nonempty.
  fold (Spec.columns text). by rewrite Hcols.
Qed.

(** Every step of the rendering loops only appends rectangles. *)
Lemma appends_skip : appends (λ ctx, ctx).
Proof. intros [ise st rs]. simpl. by rewrite app_nil_r. Qed.

Lemma appends_fillRect x y w h : appends (fillRect x y w h).
Proof. by intros [ise st rs]. Qed.

Lemma appends_foldl {A} (step : context → A → context) (l : list A) :
  (∀ a, appends (λ ctx, step ctx a)) →
  appends (λ ctx, foldl step ctx l)
  ∧ filled (foldl step blank_context l)
    = concat ((λ a, filled (step blank_context a)) <$> l).
Proof.
  intros Hstep. induction l as [|a l [IHa IHf]]; simpl.
  - split; [apply appends_skip|done].
  - split.
    + intros ctx. rewrite (IHa (step ctx a)), (IHa (step blank_context a)).
      rewrite (Hstep a ctx). simpl. by rewrite app_assoc.
    + rewrite (IHa (step blank_context a)). simpl. by rewrite IHf.
Qed.

Lemma appends_draw_glyph self pattern charX charY :
  appends (draw_glyph self pattern charX charY).
Proof.
  unfold draw_glyph. apply appends_foldl. intros py.
  apply appends_foldl. intros px.
  destruct (pixel_on pattern py px);
    [apply appends_fillRect|apply appends_skip].
Qed.

Lemma appends_draw_cell self cpw lineY line x :
  appends (draw_cell self cpw lineY line x).
Proof.
  unfold draw_cell. destruct (is_skipped _); [apply appends_skip|].
  destruct (negb _); [apply appends_skip|apply appends_draw_glyph].
Qed.

(** The rectangles of a canvas are those of its cells, row by row and
    left to right, all in the line colour. *)
Lemma createCanvas_rectangles (self : t) (text : jsstring)
    (originalElement : option element) (c : canvas) :
  createCanvas self text originalElement = Some c →
  fillStyle (ctx2d c) = lineColor self
  ∧ filled (ctx2d c)
    = concat ((λ y,
        concat ((λ x,
          cell_rects self (charPixelWidth self originalElement)
            (of_nat y * resolved_lineHeight self originalElement)%num
            (default [] (Spec.rows text !! y)) x)
          <$> seq 0 (Z.to_nat (Spec.columns text))))
        <$> seq 0 (length (Spec.rows text))).
Proof.
  unfold createCanvas. rewrite glyph_lines_of_rows.
  rewrite Math_max_lengths by apply rows_nonempty.
  fold (Spec.columns text).
  destruct (_ || _); [done|]. intros [= <-]. cbn [ctx2d].
  set (cpw := charPixelWidth self originalElement).
  set (lh := resolved_lineHeight self originalElement).
  assert (∀ y, appends (λ ctx, draw_row self cpw lh (Spec.rows text)
                                 (Spec.columns text) ctx y)) as Hrow.
  { intros y. unfold draw_row. apply appends_foldl. intros x.
    apply appends_draw_cell. }
  destruct (appends_foldl
              (draw_row self cpw lh (Spec.rows text) (Spec.columns text))
              (seq 0 (length (Spec.rows text))) Hrow) as [Happ Hfilled].
  rewrite (Happ (Context false (lineColor self) [])). cbn [fillStyle filled].
  split; [done|]. rewrite app_nil_l, Hfilled.
  f_equal. apply list_fmap_ext. intros _ y _. unfold draw_row.
  apply (appends_foldl (λ ctx x, draw_cell self cpw _ _ x ctx)).
  intros x. apply appends_draw_cell.
Qed.

(** C8: a cell whose character is a space, a tab, a line feed or a
    carriage return leaves the context as it was: no rectangle is
    filled for it. *)
Theorem whitespace_cell_untouched (self : t) (charPixelWidth lineY : number)
    (line : jsstring) (x : nat) (c : Z) (ctx : context) :
  line !! x = Some c →
  c ∈ Spec.whitespace →
  draw_cell self charPixelWidth lineY line x ctx = ctx
  ∧ filled (draw_cell self charPixelWidth lineY line x ctx) = filled ctx
  ∧ cell_rects self charPixelWidth lineY line x = [].
Proof.
  intros Hx Hc. unfold cell_rects, draw_cell. rewrite Hx. simpl.
  assert (is_skipped c = true) as ->; [|done].
  unfold Spec.whitespace in Hc. set_unfold in Hc.
  destruct Hc as [->|[->|[->|[->|[]]]]]; reflexivity.
Qed.

Lemma whitespace_cell_untouched_witness :
  draw_cell page_default (decimal 25 2) (of_Z 0) (js "A B") 1
            (Context false (js "#ff0000") [])
  = Context false (js "#ff0000") [].
Proof.
  apply (whitespace_cell_untouched page_default (decimal 25 2) (of_Z 0)
           (js "A B") 1 SPACE (Context false (js "#ff0000") [])).
  - reflexivity.
  - apply list_elem_of_here.
Defined.

(** The padding of a short row is a space, and draws nothing either. *)
Lemma padding_cell_untouched (self : t) (charPixelWidth lineY : number)
    (line : jsstring) (x : nat) (ctx : context) :
  line !! x = None →
  draw_cell self charPixelWidth lineY line x ctx = ctx.
Proof. intros Hx. unfold draw_cell. by rewrite Hx. Qed.

(** The two copying assignments and the patterns they replace, at
    their places in the source. *)
Lemma fontSource_O_X :
  ∃ strO strX stro strx,
    fontSource !! 18%nat = Some (js "O", Pattern strO)
    ∧ fontSource !! 27%nat = Some (js "X", Pattern strX)
    ∧ fontSource !! 72%nat = Some (js "o", Pattern stro)
    ∧ fontSource !! 73%nat = Some (js "O", SameAs (js "o"))
    ∧ fontSource !! 74%nat = Some (js "x", Pattern strx)
    ∧ fontSource !! 75%nat = Some (js "X", SameAs (js "x"))
    ∧ pattern 7 5 strO ≠ pattern 7 5 stro
    ∧ pattern 7 5 strX ≠ pattern 7 5 strx.
Proof.
  eexists _, _, _, _. repeat (split; [reflexivity|]).
  split; vm_compute; discriminate.
Qed.

(** C10: whatever the options, the table holds for ['O'] what it holds
    for ['o'] and for ['X'] what it holds for ['x'], namely the patterns
    of the lowercase assignments; in the default 7 by 5 font these are
    not the full-height patterns first assigned to ['O'] and ['X']. *)
Theorem uppercase_O_X_overwritten (cssPrimary : jsstring) (o : options) :
  let self := constructor cssPrimary o in
  let h := charHeight self in
  let w := charWidth self in
  (∃ stro, (js "o", Pattern stro) ∈ fontSource
     ∧ pixelFont self !! js "o" = Some (pattern h w stro)
     ∧ pixelFont self !! js "O" = Some (pattern h w stro))
  ∧ (∃ strx, (js "x", Pattern strx) ∈ fontSource
     ∧ pixelFont self !! js "x" = Some (pattern h w strx)
     ∧ pixelFont self !! js "X" = Some (pattern h w strx))
  ∧ glyph_of self 79 = glyph_of self 111
  ∧ glyph_of self 88 = glyph_of self 120
  ∧ (∃ strO strX,
       (js "O", Pattern strO) ∈ fontSource
       ∧ (js "X", Pattern strX) ∈ fontSource
       ∧ glyph_of page_default 79 ≠ pattern 7 5 strO
       ∧ glyph_of page_default 88 ≠ pattern 7 5 strX).
Proof.
  intros self h w.
  assert (∀ h w, ∃ stro strx,
            fontSource !! 72%nat = Some (js "o", Pattern stro)
            ∧ fontSource !! 74%nat = Some (js "x", Pattern strx)
            ∧ fontTable h w !! js "o" = Some (pattern h w stro)
            ∧ fontTable h w !! js "O" = Some (pattern h w stro)
            ∧ fontTable h w !! js "x" = Some (pattern h w strx)
            ∧ fontTable h w !! js "X" = Some (pattern h w strx)) as Htab.
  { intros h' w'. eexists _, _.
    split; [reflexivity|]. split; [reflexivity|].
    repeat split; vm_compute; reflexivity. }
  destruct (Htab h w) as (stro & strx & Hso & Hsx & Ho & HO & Hx & HX).
  split; [|split; [|split; [|split]]].
  - exists stro. change (pixelFont self) with (fontTable h w).
    split; [eapply list_elem_of_lookup_2, Hso|]. split; assumption.
  - exists strx. change (pixelFont self) with (fontTable h w).
    split; [eapply list_elem_of_lookup_2, Hsx|]. split; assumption.
  - unfold glyph_of, pixelFont_get. fold h w.
    change (pixelFont self) with (fontTable h w).
    change [79] with (js "O"). change [111] with (js "o").
    by rewrite Ho, HO.
  - unfold glyph_of, pixelFont_get. fold h w.
    change (pixelFont self) with (fontTable h w).
    change [88] with (js "X"). change [120] with (js "x").
    by rewrite Hx, HX.
  - destruct fontSource_O_X
      as (strO & strX & stro' & strx' & HO0 & HX0 & Ho0 & _ & Hx0 & _ & HneO & HneX).
    exists strO, strX.
    split; [eapply list_elem_of_lookup_2, HO0|].
    split; [eapply list_elem_of_lookup_2, HX0|].
    assert (glyph_of page_default 79 = pattern 7 5 stro') as ->.
    { injection Ho0 as <-. vm_compute. reflexivity. }
    assert (glyph_of page_default 88 = pattern 7 5 strx') as ->.
    { injection Hx0 as <-. vm_compute. reflexivity. }
    split; [intros E; by apply HneO|intros E; by apply HneX].
Qed.

(** The two shapes of ['O']: the one the table ends with, and the
    full-height one of the first assignment. *)
Example glyph_O_default :
  glyph_of page_default 79
    = [[false; false; false; false; false];
       [false; false; false; false; false];
       [false; true; true; false; false];
       [true; false; false; true; false];
       [true; false; false; true; false];
       [false; true; true; false; false];
       [false; false; false; false; false]]
  ∧ pattern 7 5 (template [".##.."; "#..#."; "#..#."; "#..#.";
                           "#..#."; "#..#."; ".##.."]%string)
    = [[false; true; true; false; false];
       [true; false; false; true; false];
       [true; false; false; true; false];
       [true; false; false; true; false];
       [true; false; false; true; false];
       [true; false; false; true; false];
       [false; true; true; false; false]].
Proof. split; vm_compute; reflexivity. Qed.

End GlyphRenderer.

(** ** Characters outside the tables *)

Section UnknownCharacters.

(** C5: a character that is not a key of the brightness table has
    brightness [min 255 (code mod 256)], and a character that is not a
    key of the font table has the all-false pattern of [charHeight] rows
    of [charWidth] cells. *)
Theorem unknown_character (c : Z) (self : AsciiToCanvas.t) :
  (AsciiToImage.charTable !! [c] = None →
   AsciiToImage.brightness c = Z.min 255 (c mod 256))
  ∧ (AsciiToCanvas.pixelFont self !! [c] = None →
     let g := AsciiToCanvas.glyph_of self c in
     g = replicate (AsciiToCanvas.charHeight self)
           (replicate (AsciiToCanvas.charWidth self) false)
     ∧ Spec.is_grid (AsciiToCanvas.charHeight self)
         (AsciiToCanvas.charWidth self) g).
Proof.
  split.
  - intros H. unfold AsciiToImage.brightness, AsciiToImage.charMap_get.
    rewrite H. reflexivity.
  - intros H g. subst g.
    unfold AsciiToCanvas.glyph_of, AsciiToCanvas.pixelFont_get.
    rewrite H. simpl. unfold AsciiToCanvas.blank.
    split; [reflexivity|].
    split; [apply length_replicate|].
    apply Forall_replicate, length_replicate.
Qed.

(** The letter [a] is in neither table: brightness 97 and nothing to
    draw. *)
Lemma unknown_character_witness :
  AsciiToImage.brightness 97 = Z.min 255 (97 mod 256)
  ∧ AsciiToCanvas.glyph_of AsciiToCanvas.page_default 97 = replicate 7 (replicate 5 false).
Proof.
  destruct (unknown_character 97 AsciiToCanvas.page_default) as [Hb Hg].
  split.
  - apply Hb. reflexivity.
  - apply Hg. reflexivity.
Defined.

End UnknownCharacters.

(** ** More on the Intensity Renderer *)

Section IntensityLayout.
Import AsciiToImage.

Lemma charMap_get_range (prop : jsstring) :
  0 ≤ charMap_get charTable prop ≤ 255.
Proof.
  unfold charMap_get.
  destruct (charTable !! prop) as [v|] eqn:Hv.
  - assert (map_Forall (λ _ v, 0 ≤ v ≤ 255) charTable) as Hall.
    { refine (bool_decide_unpack _ _). vm_compute. exact I. }
    exact (Hall _ _ Hv).
  - case_decide; [|lia].
    pose proof (Z.mod_pos_bound (charCodeAt0 prop) 256). lia.
Qed.

(** X1: the brightness of every character, in the table or not, lies
    between 0 and 255. *)
Theorem brightness_range (c : Z) : 0 ≤ brightness c ≤ 255.
Proof. apply charMap_get_range. Qed.

Lemma mediumChars_units :
  mediumChars = (λ c, [c]) <$>
    [65; 66; 67; 68; 69; 70; 71; 72; 73; 74; 75; 76; 77; 78; 79; 80; 81;
     82; 83; 84; 85; 86; 87; 88; 89; 90;
     48; 49; 50; 51; 52; 53; 54; 55; 56; 57].
Proof. vm_compute. reflexivity. Qed.

(** X2: the uppercase letters and the digits have brightness 180, but
    for ['X'], which a later assignment sets to 190. *)
Theorem medium_brightness (c : Z) :
  [c] ∈ mediumChars →
  brightness c = if decide (c = 88) then 190 else 180.
Proof.
  rewrite mediumChars_units. intros Hc.
  apply list_elem_of_fmap in Hc as (d & [= ->] & Hd).
  repeat (apply elem_of_cons in Hd as [->|Hd];
          [vm_compute; reflexivity|]).
  by apply elem_of_nil in Hd.
Qed.

Lemma medium_brightness_witness : brightness 65 = 180.
Proof.
  apply (medium_brightness 65). apply (list_elem_of_lookup_2 _ 0%nat).
  reflexivity.
Defined.


(** A loop over a list whose every step appends to a view of the state
    appends the steps' contributions in order. *)
Lemma foldl_view {S A B : Type} (V : S → list B) (step : S → A → S)
    (g : A → list B) (l : list A) (s0 : S) :
  (∀ s a, V (step s a) = V s ++ g a) →
  V (foldl step s0 l) = V s0 ++ concat (g <$> l).
Proof.
  intros Hstep. revert s0. induction l as [|a l IH]; intros s0; simpl.
  - by rewrite app_nil_r.
  - by rewrite IH, Hstep, app_assoc.
Qed.

Lemma foldl_preserves {S A : Type} (P : S → Prop) (step : S → A → S)
    (l : list A) (s0 : S) :
  (∀ s a, P s → P (step s a)) → P s0 → P (foldl step s0 l).
Proof.
  intros Hstep. revert s0. induction l as [|a l IH]; intros s0 H0; simpl;
    [done|]. by apply IH, Hstep.
Qed.

Lemma concat_singletons {A B : Type} (f : A → B) (l : list A) :
  concat ((λ a, [f a]) <$> l) = f <$> l.
Proof. induction l as [|a l IH]; simpl; [done|]. by f_equal. Qed.

Lemma cells_fmap {B : Type} (f : nat → nat → B) (h w : nat) :
  concat ((λ y, (λ x, f y x) <$> seq 0 w) <$> seq 0 h)
  = (λ yx, f yx.1 yx.2) <$> Layout.cells h w.
Proof.
  unfold Layout.cells. induction (seq 0 h) as [|y l IH]; csimpl; [done|].
  rewrite fmap_app, IH. f_equal. by rewrite <- list_fmap_compose.
Qed.

Lemma length_cells (h w : nat) : length (Layout.cells h w) = (h * w)%nat.
Proof.
  unfold Layout.cells.
  assert (∀ l : list nat,
            length (concat ((λ y, (λ x, (y, x)) <$> seq 0 w) <$> l))
            = (length l * w)%nat) as H.
  { induction l as [|y l IH]; csimpl; [done|].
    by rewrite length_app, length_fmap, length_seq, IH. }
  by rewrite H, length_seq.
Qed.

Lemma cell_style_filled self char intensity ctx :
  filled (cell_style self char intensity ctx) = filled ctx.
Proof. unfold cell_style. by repeat case_decide. Qed.

Lemma draw_cell_block self line y x ctx :
  filled (draw_cell self line y x ctx)
  = filled ctx
    ++ [(fillStyle (cell_style self [default SPACE (line !! x)]
           (charMap_get (charMap self) [default SPACE (line !! x)]) ctx),
         Layout.pixel_block self y x)].
Proof.
  unfold draw_cell, fillRect, Layout.pixel_block. cbn [filled].
  rewrite cell_style_filled.
  by destruct (line !! x).
Qed.


(** X3: whatever the mode, [convert] fills the whole surface once, then
    one square block per cell of the grid, row by row and left to right:
    cell [(y, x)] at [(x * pixelSize * scale, y * pixelSize * scale)]
    with side [pixelSize * scale], short rows included up to the longest
    one. *)
Theorem convert_blocks (self : t) (text : jsstring) :
  ∃ s, convert self text = Some s
    ∧ (filled (ctx2d s)).*2
      = Rect (of_Z 0) (of_Z 0)
          (of_Z (Spec.columns text) * pixelSize self * scale self)%num
          (of_Z (Spec.rowCount text) * pixelSize self * scale self)%num
        :: ((λ yx, Layout.pixel_block self yx.1 yx.2)
              <$> Layout.cells (length (Spec.rows text))
                    (Z.to_nat (Spec.columns text)))
    ∧ length (filled (ctx2d s))
      = S (length (Spec.rows text) * Z.to_nat (Spec.columns text)).
Proof.
  rewrite convert_unfold. eexists. split; [reflexivity|].
  cbn [ctx2d width height].
  assert (∀ ctx0,
    (filled (foldl (draw_row self (Spec.rows text) (Spec.columns text))
               ctx0 (seq 0 (length (Spec.rows text))))).*2
    = (filled ctx0).*2
      ++ ((λ yx, Layout.pixel_block self yx.1 yx.2)
            <$> Layout.cells (length (Spec.rows text))
                  (Z.to_nat (Spec.columns text)))) as Hrects.
  { intros ctx0. rewrite <- cells_fmap.
    apply (foldl_view (λ ctx, (filled ctx).*2)). intros ctx y.
    unfold draw_row.
    rewrite <- (concat_singletons (λ x, Layout.pixel_block self y x)).
    apply (foldl_view (λ ctx, (filled ctx).*2)
             (λ c x, draw_cell self _ y x c)).
    intros c x. by rewrite draw_cell_block, fmap_app. }
  split.
  - by rewrite Hrects.
  - rewrite <- (length_fmap snd), Hrects. simpl.
    by rewrite length_fmap, length_cells.
Qed.

(** X4: in grayscale mode, the block of a cell is filled with the gray
    of its character's brightness, a cell past the end of its row with
    that of a space. *)
Theorem convert_grayscale (self : t) (text : jsstring) :
  colorMode self = js "grayscale" →
  ∃ s, convert self text = Some s
    ∧ filled (ctx2d s)
      = (Css (backgroundColor self),
         Rect (of_Z 0) (of_Z 0)
           (of_Z (Spec.columns text) * pixelSize self * scale self)%num
           (of_Z (Spec.rowCount text) * pixelSize self * scale self)%num)
        :: ((λ yx,
               let b := charMap_get (charMap self)
                          [Layout.cell_char (Spec.rows text) yx.1 yx.2] in
               (Rgb b b b, Layout.pixel_block self yx.1 yx.2))
              <$> Layout.cells (length (Spec.rows text))
                    (Z.to_nat (Spec.columns text))).
Proof.
  intros Hmode. rewrite convert_unfold. eexists. split; [reflexivity|].
  cbn [ctx2d width height].
  rewrite <- (cells_fmap (λ y x,
    let b := charMap_get (charMap self)
               [Layout.cell_char (Spec.rows text) y x] in
    (Rgb b b b, Layout.pixel_block self y x))).
  change (?a :: ?l) with ([a] ++ l).
  apply (foldl_view filled). intros ctx y.
  unfold draw_row.
  rewrite <- (concat_singletons (λ x,
    let b := charMap_get (charMap self)
               [Layout.cell_char (Spec.rows text) y x] in
    (Rgb b b b, Layout.pixel_block self y x))).
  apply (foldl_view filled (λ c x, draw_cell self _ y x c)).
  intros c x. rewrite draw_cell_block. do 3 f_equal.
  unfold cell_style, Layout.cell_char.
  rewrite decide_False by (rewrite Hmode; done).
  by rewrite decide_True.
Qed.

Lemma convert_grayscale_witness :
  ∃ s, convert (constructor no_options) (js "A B") = Some s
    ∧ (filled (ctx2d s)).*1
      = [Css (js "#000000"); Rgb 180 180 180; Rgb 0 0 0; Rgb 180 180 180].
Proof.
  destruct (convert_grayscale (constructor no_options) (js "A B") eq_refl)
    as (s & Hs & Hf).
  exists s. split; [exact Hs|]. rewrite Hf. reflexivity.
Defined.

(** X5: a mode other than the three the code tests for assigns no
    style, so every block is filled in the background colour: the
    image is blank. *)
Theorem convert_unknown_mode (self : t) (text : jsstring) :
  colorMode self ≠ js "monochrome" →
  colorMode self ≠ js "grayscale" →
  colorMode self ≠ js "color" →
  ∃ s, convert self text = Some s
    ∧ Forall (λ sr, sr.1 = Css (backgroundColor self)) (filled (ctx2d s)).
Proof.
  intros Hm Hg Hc. rewrite convert_unfold. eexists. split; [reflexivity|].
  cbn [ctx2d].
  set (Inv := λ ctx : context,
         fillStyle ctx = Css (backgroundColor self)
         ∧ Forall (λ sr, sr.1 = Css (backgroundColor self)) (filled ctx)).
  assert (∀ line y x ctx, Inv ctx → Inv (draw_cell self line y x ctx))
    as Hcell.
  { intros line y x ctx [Hst Hall]. unfold Inv.
    rewrite draw_cell_block. unfold draw_cell, cell_style.
    rewrite !decide_False by done. cbn [fillStyle fillRect].
    split; [done|]. apply Forall_app. split; [done|].
    by repeat constructor. }
  apply (foldl_preserves Inv).
  - intros ctx y Hctx. unfold draw_row.
    apply (foldl_preserves Inv (λ c x, draw_cell self _ y x c)); [|done].
    intros c x. apply Hcell.
  - split; [done|]. by repeat constructor.
Qed.

Lemma convert_unknown_mode_witness :
  ∃ s, convert sepia (js "A B") = Some s
    ∧ Forall (λ sr, sr.1 = Css (js "#000000")) (filled (ctx2d s)).
Proof.
  apply (convert_unknown_mode sepia (js "A B")); vm_compute; discriminate.
Defined.

Lemma Qc_rem_bounds (x m : Qc) :
  (0 < m)%Qc → (0 ≤ Qc_rem x m)%Qc ∧ (Qc_rem x m < m)%Qc.
Proof.
  intros Hm. unfold Qc_rem.
  assert (m ≠ 0%Qc) as Hm0.
  { intros ->. by apply Qclt_not_eq in Hm. }
  match goal with
  | |- context [Qfloor ?e] =>
      generalize (Qfloor e) (Qfloor_le e) (Qlt_floor e)
  end.
  intros f Hlo Hhi.
  assert (Qc_of_Z f ≤ x / m)%Qc as Hlo'.
  { unfold Qcle, Qcdiv, Qcmult, Qcinv, Q2Qc. cbn [this].
    by rewrite !Qred_correct. }
  assert (x / m < Qc_of_Z (f + 1))%Qc as Hhi'.
  { unfold Qclt, Qcdiv, Qcmult, Qcinv, Q2Qc. cbn [this].
    by rewrite !Qred_correct. }
  clear Hlo Hhi. rewrite Z2Qc_inj_add, Z2Qc_inj_1 in Hhi'.
  apply (Qcmult_le_mono_pos_l _ _ m Hm) in Hlo'.
  apply (Qcmult_lt_mono_pos_l _ _ m Hm) in Hhi'.
  rewrite Qcmult_div_r in Hlo', Hhi' by done. split.
  - apply (proj2 (Qcplus_le_mono_r _ _ (m * Qc_of_Z f))).
    replace (x - m * Qc_of_Z f + m * Qc_of_Z f)%Qc with x by ring.
    by rewrite Qcplus_0_l.
  - apply (proj2 (Qcplus_lt_mono_r _ _ (m * Qc_of_Z f))).
    replace (x - m * Qc_of_Z f + m * Qc_of_Z f)%Qc with x by ring.
    by replace (m + m * Qc_of_Z f)%Qc with (m * (Qc_of_Z f + 1))%Qc by ring.
Qed.

Lemma percent_range (i : Z) :
  0 ≤ i ≤ 255 →
  (0 ≤ Qc_of_Z i / Q2Qc (255 # 100))%Qc
  ∧ (Qc_of_Z i / Q2Qc (255 # 100) ≤ Qc_of_Z 100)%Qc.
Proof.
  intros [Hlo Hhi].
  assert (Qc_of_Z i / Q2Qc (255 # 100) = Qc_of_Z i * Q2Qc (100 # 255))%Qc
    as -> by (apply Qc_is_canon; reflexivity).
  assert (0 ≤ Q2Qc (100 # 255))%Qc as Hpos by (vm_compute; discriminate).
  split.
  - apply Qcmult_nonneg_nonneg; [|done]. by apply (proj1 (Z2Qc_inj_le 0 _)).
  - replace (Qc_of_Z 100) with (Qc_of_Z 255 * Q2Qc (100 # 255))%Qc
      by (apply Qc_is_canon; reflexivity).
    apply Qcmult_le_compat_r; [|done]. by apply (proj1 (Z2Qc_inj_le _ _)).
Qed.

(** X21: in colour mode every cell gets a proper colour: the hue is at
    least 0 and below 360, saturation and lightness lie between 0 and
    100. *)
Theorem color_mode_hsl (o : options) (c : Z) (ctx : context) :
  let self := constructor o in
  colorMode self = js "color" →
  0 ≤ c →
  ∃ h s l,
    fillStyle (cell_style self [c] (charMap_get (charMap self) [c]) ctx)
    = Hsl h s l
    ∧ (0 ≤ h)%Qc ∧ (h < Qc_of_Z 360)%Qc
    ∧ (0 ≤ s)%Qc ∧ (s ≤ Qc_of_Z 100)%Qc
    ∧ (0 ≤ l)%Qc ∧ (l ≤ Qc_of_Z 100)%Qc.
Proof.
  intros self Hmode Hc. unfold cell_style.
  rewrite decide_False by (rewrite Hmode; done).
  rewrite decide_False by (rewrite Hmode; done).
  rewrite decide_True by done. cbn [fillStyle set_fillStyle].
  eexists _, _, _. split; [reflexivity|].
  change (charMap self) with charTable.
  destruct (percent_range _ (charMap_get_range [c])) as [Hlo Hhi].
  destruct (Qc_rem_bounds
              (Qc_of_Z (charCodeAt0 [c]) * Q2Qc (137508 # 1000))
              (Qc_of_Z 360)) as [Hh0 Hh1]; [vm_compute; reflexivity|].
  split; [exact Hh0|]. split; [exact Hh1|].
  split; [by case_decide|]. split; [|done].
  case_decide; [apply Qcle_refl|done].
Qed.

Lemma color_mode_hsl_witness :
  ∃ h s l,
    fillStyle (cell_style in_colour [65]
                 (charMap_get (charMap in_colour) [65]) (Context (Css []) []))
    = Hsl h s l
    ∧ (0 ≤ h)%Qc ∧ (h < Qc_of_Z 360)%Qc
    ∧ (0 ≤ s)%Qc ∧ (s ≤ Qc_of_Z 100)%Qc
    ∧ (0 ≤ l)%Qc ∧ (l ≤ Qc_of_Z 100)%Qc.
Proof.
  apply (color_mode_hsl (Options None None None None (Some (js "color")))
           65 (Context (Css []) [])); [reflexivity|lia].
Defined.

End IntensityLayout.

(** ** More on the text and the markup *)

Section TextAndMarkup.
Import AsciiToImage.

Lemma split_no_sep sep (l : jsstring) : sep ∉ l → split sep l = [l].
Proof.
  induction l as [|c l IH]; intros Hl; simpl; [done|].
  apply not_elem_of_cons in Hl as [Hc Hl].
  rewrite decide_False by done. by rewrite IH.
Qed.

Lemma split_at_sep sep (l rest : jsstring) :
  sep ∉ l → split sep (l ++ sep :: rest) = l :: split sep rest.
Proof.
  induction l as [|c l IH]; intros Hl; simpl.
  - by rewrite decide_True.
  - apply not_elem_of_cons in Hl as [Hc Hl].
    rewrite decide_False by done. by rewrite IH.
Qed.

Lemma split_snoc_sep sep (s : jsstring) :
  split sep (s ++ [sep]) = split sep s ++ [[]].
Proof.
  induction s as [|c s IH]; simpl.
  - by rewrite decide_True.
  - destruct (decide (c = sep)); rewrite IH; [done|].
    pose proof (split_nonempty sep s). by destruct (split sep s).
Qed.

Lemma strip_cr_keeps (l : jsstring) :
  list.last l ≠ Some CR → Spec.strip_cr l = l.
Proof. intros Hl. unfold Spec.strip_cr. by rewrite decide_False. Qed.

Lemma strip_cr_snoc (l : jsstring) : Spec.strip_cr (l ++ [CR]) = l.
Proof.
  unfold Spec.strip_cr. rewrite last_snoc, decide_True by done.
  rewrite length_app. simpl.
  replace (length l + 1 - 1)%nat with (length l) by lia.
  by rewrite take_app_length.
Qed.

Lemma rows_join (crlf : bool) (ls : list jsstring) :
  ls ≠ [] →
  Forall (λ l, (LF ∉ l) ∧ list.last l ≠ Some CR) ls →
  Spec.rows (Layout.join (if crlf then [CR; LF] else [LF]) ls) = ls.
Proof.
  intros Hne Hall. unfold Spec.rows.
  induction Hall as [|l ls [Hlf Hcr] Hall IH]; [done|].
  destruct ls as [|l' ls].
  - simpl. rewrite split_no_sep by done. simpl.
    by rewrite strip_cr_keeps.
  - specialize (IH ltac:(done)).
    change (Layout.join ?sep (l :: l' :: ls))
      with (l ++ sep ++ Layout.join sep (l' :: ls)).
    destruct crlf.
    + change (l ++ [CR; LF] ++ ?r) with (l ++ [CR] ++ LF :: r).
      rewrite app_assoc, split_at_sep.
      * rewrite fmap_cons, IH. by rewrite strip_cr_snoc.
      * apply not_elem_of_app. split; [done|].
        apply not_elem_of_cons. split; [done|apply not_elem_of_nil].
    + change (l ++ [LF] ++ ?r) with (l ++ LF :: r).
      rewrite split_at_sep by done.
      rewrite fmap_cons, IH. by rewrite strip_cr_keeps.
Qed.

(** X6: splitting into lines undoes joining them, whether the lines were
    joined with a line feed or with carriage return and line feed, for
    lines that hold no line feed and do not end in a carriage
    return: both renderers see the same rows for the two line-end
    conventions. *)
Theorem lines_of_join (crlf : bool) (ls : list jsstring) :
  ls ≠ [] →
  Forall (λ l, (LF ∉ l) ∧ list.last l ≠ Some CR) ls →
  AsciiToImage.lines_of (Layout.join (if crlf then [CR; LF] else [LF]) ls)
  = ls
  ∧ AsciiToCanvas.lines_of
      (Layout.join (if crlf then [CR; LF] else [LF]) ls) = ls.
Proof.
  intros Hne Hall. rewrite lines_of_rows, glyph_lines_of_rows.
  split; by apply rows_join.
Qed.

Lemma lines_of_join_witness :
  AsciiToImage.lines_of (Layout.join [CR; LF] [js "ab"; js ""; js "c"])
  = [js "ab"; js ""; js "c"].
Proof.
  apply (lines_of_join true [js "ab"; js ""; js "c"]); [done|].
  repeat constructor; vm_compute; try discriminate;
    intros H; repeat (apply elem_of_cons in H as [H|H]; [discriminate H|]);
    by apply elem_of_nil in H.
Defined.

(** X7: a line feed at the end of the text makes a last, empty row: the
    image keeps its width and is as high as for one row more; when the
    pixel size and the scale are positive whole numbers, that is one row
    of blocks higher. *)
Theorem trailing_line_feed (self : t) (text : jsstring) :
  Spec.rows (text ++ [LF]) = Spec.rows text ++ [[]]
  ∧ ∃ s s', convert self text = Some s
      ∧ convert self (text ++ [LF]) = Some s'
      ∧ width s' = width s
      ∧ height s'
        = ToInt32 (of_Z (Spec.rowCount text + 1) * pixelSize self
                   * scale self)%num
      ∧ ∀ p q : Z,
          pixelSize self = of_Z p → scale self = of_Z q →
          0 < p → 0 < q →
          (Spec.rowCount text + 1) * p * q < 2 ^ 31 →
          height s' = height s + p * q.
Proof.
  assert (Spec.rows (text ++ [LF]) = Spec.rows text ++ [[]]) as Hrows.
  { unfold Spec.rows. by rewrite split_snoc_sep, fmap_app. }
  split; [done|].
  assert (Spec.columns (text ++ [LF]) = Spec.columns text) as Hcols.
  { unfold Spec.columns. by rewrite Hrows, foldr_app. }
  assert (Spec.rowCount (text ++ [LF]) = Spec.rowCount text + 1) as Hcount.
  { unfold Spec.rowCount. rewrite Hrows, length_app. simpl. lia. }
  rewrite !convert_unfold. eexists _, _.
  split; [reflexivity|]. split; [reflexivity|]. cbn [width height].
  rewrite Hcols, Hcount. split; [done|]. split; [done|].
  intros p q -> -> Hp Hq Hlt.
  assert (0 ≤ Spec.rowCount text) by (unfold Spec.rowCount; lia).
  rewrite !whole_size by nia. ring.
Qed.

(** At the default pixel size 8 and scale 1, [A] with a line feed after
    it is 8 wide and 16 high. *)
Lemma trailing_line_feed_witness :
  ∃ s s', convert (constructor no_options) (js "A") = Some s
    ∧ convert (constructor no_options) (js "A" ++ [LF]) = Some s'
    ∧ width s' = width s
    ∧ height s' = height s + 8 * 1.
Proof.
  destruct (trailing_line_feed (constructor no_options) (js "A"))
    as (_ & s & s' & Hs & Hs' & Hw & _ & Hh).
  exists s, s'. split; [exact Hs|]. split; [exact Hs'|].
  split; [exact Hw|]. apply Hh; reflexivity.
Defined.


(** A pattern that begins with a character finds nothing in a text
    without that character. *)
Lemma search_absent (p : Z) (r : regex) (s : jsstring) :
  p ∉ s → search false (Cat (Atom (Chr p)) r) s = None.
Proof.
  induction s as [|c s IH]; intros Hp; cbn [search].
  - done.
  - apply not_elem_of_cons in Hp as [Hc Hp].
    assert (match_here false (Cat (Atom (Chr p)) r) (c :: s) = None) as ->.
    { unfold match_here. cbn [rmatch atom_matches].
      unfold unit_eqb, canonicalize. cbn [andb].
      destruct (Z.eqb_spec p c); [by subst|done]. }
    by rewrite IH.
Qed.

Lemma replace_all_absent (p : Z) (r : regex) (repl s : jsstring) :
  p ∉ s → replace_all false (Cat (Atom (Chr p)) r) repl s = s.
Proof.
  intros Hp. unfold replace_all. cbn [replace_all_from].
  by rewrite search_absent.
Qed.

Lemma stripHtml_plain (s : jsstring) : 60 ∉ s → 38 ∉ s → stripHtml s = s.
Proof.
  intros Hlt Hamp. unfold stripHtml.
  change re_tag with (Cat (Atom (Chr 60)) (cat [Star (NoneOf [62]); Atom (Chr 62)])).
  rewrite replace_all_absent by done.
  change (lit "&nbsp;") with (Cat (Atom (Chr 38)) (lit "nbsp;")).
  change (lit "&amp;") with (Cat (Atom (Chr 38)) (lit "amp;")).
  change (lit "&lt;") with (Cat (Atom (Chr 38)) (lit "lt;")).
  change (lit "&gt;") with (Cat (Atom (Chr 38)) (lit "gt;")).
  change (lit "&quot;") with (Cat (Atom (Chr 38)) (lit "quot;")).
  change (lit "&#39;") with (Cat (Atom (Chr 38)) (lit "#39;")).
  by rewrite !(replace_all_absent 38 _ _ s) by done.
Qed.

(** X8: a text without [<] and without [&] passes through [stripHtml]
    unchanged. *)
Theorem stripHtml_identity (s : jsstring) :
  60 ∉ s → 38 ∉ s → stripHtml s = s.
Proof. apply stripHtml_plain. Qed.

Lemma stripHtml_identity_witness : stripHtml (js "(o>") = js "(o>".
Proof.
  apply (stripHtml_identity (js "(o>"));
    intros H; repeat (apply elem_of_cons in H as [H|H]; [discriminate H|]);
    by apply elem_of_nil in H.
Defined.


(** A pattern that begins with a character or a class never matches
    the empty text. *)
Lemma search_matched_nonempty icase (a : atom) (r : regex) (s : jsstring) m :
  search icase (Cat (Atom a) r) s = Some m → matched m ≠ [].
Proof.
  intros Hs.
  apply search_Some in Hs as (rest & m0 & _ & Hm0 & -> & _).
  unfold match_here in Hm0. cbn [rmatch] in Hm0.
  destruct rest as [|c rest]; [done|].
  destruct (atom_matches icase a c); [|done].
  apply rmatch_sound in Hm0 as (s' & cap' & Hm & Hk).
  apply matches_consumes in Hm as [t ->].
  injection Hk as <-. cbn [matched].
  rewrite length_app.
  replace (S (length t + length s') - length s')%nat
    with (S (length t)) by lia.
  done.
Qed.

Lemma replace_all_from_length icase (a : atom) (r : regex)
    (repl s : jsstring) (n : nat) :
  (length repl ≤ 1)%nat →
  (length (replace_all_from n icase (Cat (Atom a) r) repl s) ≤ length s)%nat.
Proof.
  intros Hrepl. revert s. induction n as [|n IH]; intros s;
    cbn [replace_all_from]; [done|].
  destruct (search icase (Cat (Atom a) r) s) as [m|] eqn:Hs; [|done].
  pose proof (search_matched_nonempty _ _ _ _ _ Hs) as Hne.
  apply search_decompose in Hs. apply (f_equal length) in Hs.
  rewrite !length_app in Hs.
  destruct (matched m) as [|c0 mt]; [done|]. simpl in Hs.
  rewrite !length_app. specialize (IH (after m)). lia.
Qed.

(** X9: [stripHtml] never lengthens a text: a tag, however long, leaves
    one space and a character reference one character. *)
Theorem stripHtml_length (s : jsstring) :
  (length (stripHtml s) ≤ length s)%nat.
Proof.
  unfold stripHtml, replace_all.
  change re_tag
    with (Cat (Atom (Chr 60)) (cat [Star (NoneOf [62]); Atom (Chr 62)])).
  change (lit "&nbsp;") with (Cat (Atom (Chr 38)) (lit "nbsp;")).
  change (lit "&amp;") with (Cat (Atom (Chr 38)) (lit "amp;")).
  change (lit "&lt;") with (Cat (Atom (Chr 38)) (lit "lt;")).
  change (lit "&gt;") with (Cat (Atom (Chr 38)) (lit "gt;")).
  change (lit "&quot;") with (Cat (Atom (Chr 38)) (lit "quot;")).
  change (lit "&#39;") with (Cat (Atom (Chr 38)) (lit "#39;")).
  repeat (etrans; [apply replace_all_from_length; simpl; lia|]).
  done.
Qed.

(** What [extractFromHtml] returns, by the outcome of the two searches. *)
Lemma extractFromHtml_searches readFileSync path html :
  readFileSync path = Return html →
  extractFromHtml readFileSync path
  = match search true re_pre_ascii html with
    | Some m => group_text (matched m, group1 m)
    | None =>
        match search true re_pre html with
        | Some m => group_text (matched m, group1 m)
        | None => Throw no_art
        end
    end.
Proof.
  intros Hread. unfold extractFromHtml, str_match. rewrite Hread.
  by destruct (search true re_pre_ascii html), (search true re_pre html).
Qed.

(** X10: when the content of the block that [extractFromHtml] selects
    holds neither [<] nor [&], the text returned is that content as it
    stands in the markup, and converting the markup file gives what
    converting a text file with that content gives. *)
Theorem extract_plain_block (self : t)
    (readFileSync : jsstring → completion jsstring)
    (path html body : jsstring) :
  readFileSync path = Return html →
  60 ∉ body → 38 ∉ body →
  Spec.first_block Spec.ascii_pre_open html body
  ∨ (¬ Spec.has_block Spec.ascii_pre_open html
     ∧ Spec.first_block Spec.pre_open html body) →
  extractFromHtml readFileSync path = Return body
  ∧ convertFromHtml self readFileSync path
    = convertFromText self (λ _, Return body) path.
Proof.
  intros Hread Hlt Hamp Hblock.
  assert (extractFromHtml readFileSync path = Return body) as Hx.
  { rewrite (extractFromHtml_searches _ _ _ Hread).
    pose proof (search_pre_ascii html) as Hascii.
    pose proof (search_pre html) as Hpre.
    destruct Hblock as [Hfb|[Hno Hfb]].
    - destruct (search true re_pre_ascii html) as [m|].
      + destruct Hascii as (body' & Hg & Hfb').
        unfold group_text. cbn [snd]. rewrite Hg.
        rewrite (first_block_unique Spec.ascii_pre_open
                   (λ tag H, pre_open_ends tag (ascii_pre_open_pre_open tag H))
                   html body' body Hfb' Hfb).
        by rewrite stripHtml_plain.
      + destruct Hascii. by eapply first_block_has_block.
    - destruct (search true re_pre_ascii html) as [m|].
      + destruct Hascii as (body' & _ & Hfb').
        destruct Hno. by eapply first_block_has_block.
      + destruct (search true re_pre html) as [m|].
        * destruct Hpre as (body' & Hg & Hfb').
          unfold group_text. cbn [snd]. rewrite Hg.
          rewrite (first_block_unique Spec.pre_open pre_open_ends
                     html body' body Hfb' Hfb).
          by rewrite stripHtml_plain.
        * destruct Hpre. by eapply first_block_has_block. }
  split; [done|]. unfold convertFromHtml, convertFromText. by rewrite Hx.
Qed.

Lemma extract_plain_block_witness :
  extractFromHtml
    (λ _, Return (js "<html><pre class='ascii'>(o>" ++ [LF]
                  ++ js " | </pre></html>")) []
  = Return (js "(o>" ++ [LF] ++ js " | ").
Proof.
  apply (extract_plain_block monochrome
           (λ _, Return (js "<html><pre class='ascii'>(o>" ++ [LF]
                         ++ js " | </pre></html>")) []
           (js "<html><pre class='ascii'>(o>" ++ [LF]
            ++ js " | </pre></html>")
           (js "(o>" ++ [LF] ++ js " | ") eq_refl).
  - intros H; repeat (apply elem_of_cons in H as [H|H]; [discriminate H|]);
      by apply elem_of_nil in H.
  - intros H; repeat (apply elem_of_cons in H as [H|H]; [discriminate H|]);
      by apply elem_of_nil in H.
  - left. eapply first_ascii_block_found; vm_compute; reflexivity.
Defined.

End TextAndMarkup.

(** ** More on the Glyph Renderer *)

Section GlyphLayout.
Import AsciiToCanvas.

Lemma pattern_is_grid (h w : nat) (str : jsstring) :
  Spec.is_grid h w (pattern h w str).
Proof.
  unfold pattern. split.
  - by rewrite length_fmap, length_seq.
  - apply Forall_fmap, Forall_true. intros y. simpl.
    by rewrite length_fmap, length_seq.
Qed.

Lemma blank_is_grid (h w : nat) : Spec.is_grid h w (blank h w).
Proof.
  unfold blank. split; [apply length_replicate|].
  apply Forall_replicate, length_replicate.
Qed.

Lemma assign_keeps_grids (h w : nat) (font : gmap jsstring glyph) stmt :
  map_Forall (λ _ g, Spec.is_grid h w g) font →
  map_Forall (λ _ g, Spec.is_grid h w g) (assign h w font stmt).
Proof.
  intros Hfont. unfold assign. destruct (stmt.2) as [|str|key].
  - apply map_Forall_insert_2; [apply blank_is_grid|done].
  - apply map_Forall_insert_2; [apply pattern_is_grid|done].
  - destruct (font !! key) as [g|] eqn:Hg; [|done].
    apply map_Forall_insert_2; [|done]. exact (Hfont _ _ Hg).
Qed.

Lemma fontTable_grids (h w : nat) :
  map_Forall (λ _ g, Spec.is_grid h w g) (fontTable h w).
Proof.
  unfold fontTable.
  apply (foldl_preserves (map_Forall (λ _ g, Spec.is_grid h w g))).
  - intros font stmt. apply assign_keeps_grids.
  - apply map_Forall_empty.
Qed.

(** X11: whatever the options, every pattern the font answers with, for
    a character of the table or not, is a grid of [charHeight] rows of
    [charWidth] cells; rows of the source that are too long, too short
    or missing do not change that. *)
Theorem glyph_is_grid (cssPrimary : jsstring) (o : options) (c : Z) :
  let self := constructor cssPrimary o in
  Spec.is_grid (charHeight self) (charWidth self) (glyph_of self c).
Proof.
  intros self. unfold glyph_of, pixelFont_get.
  destruct (pixelFont self !! [c]) as [g|] eqn:Hg.
  - exact (fontTable_grids _ _ _ _ Hg).
  - simpl. apply blank_is_grid.
Qed.

(** X12: no options make a renderer with a pixel size or a scale that
    is zero or not a number, an empty character grid or an empty line
    colour: zero, [NaN] and the empty string fall back to the
    defaults. *)
Theorem constructor_nonzero (cssPrimary : jsstring) (o : options) :
  let self := constructor cssPrimary o in
  falsy (pixelSize self) = false ∧ falsy (scale self) = false
  ∧ (0 < charWidth self)%nat ∧ (0 < charHeight self)%nat
  ∧ lineColor self ≠ [].
Proof.
  intros self. subst self. unfold constructor.
  cbn [pixelSize scale charWidth charHeight lineColor].
  repeat split.
  - unfold or_num. destruct (opt_pixelSize o) as [q|]; [|done].
    by destruct (falsy q) eqn:Hq.
  - unfold or_num. destruct (opt_scale o) as [q|]; [|done].
    by destruct (falsy q) eqn:Hq.
  - unfold or_nat. destruct (opt_charWidth o) as [[|n]|]; lia.
  - unfold or_nat. destruct (opt_charHeight o) as [[|n]|]; lia.
  - unfold or_str. destruct (opt_lineColor o) as [[|c s]|]; [|done|];
      by destruct (trim cssPrimary).
Qed.

Lemma columns_zero_iff (text : jsstring) :
  Spec.columns text = 0 ↔ Forall (λ row, row = []) (Spec.rows text).
Proof.
  unfold Spec.columns.
  induction (Spec.rows text) as [|row rows IH]; simpl.
  - split; [constructor|done].
  - assert (0 ≤ foldr (λ row m, Z.of_nat (length row) `max` m) 0 rows).
    { clear. induction rows as [|r rows IH]; simpl; lia. }
    rewrite list.Forall_cons, <- IH. destruct row as [|c row].
    + simpl. split; [intros; split; [done|lia]|intros [_ ?]; lia].
    + rewrite length_cons. split; [lia|by intros [? _]].
Qed.

(** X13: [createCanvas] returns [null] exactly when no row of the text
    has a character: for the empty text, and for a text of line ends
    only. *)
Theorem createCanvas_null_iff (self : t) (text : jsstring)
    (originalElement : option element) :
  createCanvas self text originalElement = None
  ↔ Forall (λ row, row = []) (Spec.rows text).
Proof.
  rewrite <- columns_zero_iff. unfold createCanvas.
  rewrite glyph_lines_of_rows.
  rewrite Math_max_lengths by apply rows_nonempty.
  fold (Spec.columns text).
  destruct (decide (Spec.columns text = 0)) as [Hz|Hnz].
  - rewrite Hz. by rewrite bool_decide_eq_true_2.
  - rewrite bool_decide_eq_false_2 by done.
    rewrite bool_decide_eq_false_2; [done|].
    pose proof (rows_nonempty text). by destruct (Spec.rows text).
Qed.

Lemma createCanvas_columns (self : t) (text : jsstring)
    (originalElement : option element) (c : canvas) :
  createCanvas self text originalElement = Some c → 0 < Spec.columns text.
Proof.
  intros Hc. pose proof (columns_nonneg text).
  destruct (decide (Spec.columns text = 0)) as [Hz|]; [|lia].
  by rewrite (createCanvas_empty _ _ _ Hz) in Hc.
Qed.

Lemma createCanvas_width_height (self : t) (text : jsstring)
    (originalElement : option element) (c : canvas) :
  createCanvas self text originalElement = Some c →
  width c
  = dimension 300
      (Math_ceil (of_Z (Spec.columns text)
                  * charPixelWidth self originalElement)%num)
  ∧ height c
    = dimension 150
        (Math_ceil ((of_Z (Spec.rowCount text) - of_Z 1)
                    * resolved_lineHeight self originalElement
                    + charPixelHeight self)%num).
Proof.
  intros Hc. pose proof (createCanvas_columns _ _ _ _ Hc) as Hcols.
  rewrite createCanvas_dims in Hc by done. by injection Hc as <-.
Qed.

Lemma dimension_of_Z (dflt z : Z) :
  0 ≤ z ≤ 2147483647 → dimension dflt (of_Z z) = z.
Proof.
  intros Hz. unfold dimension, ToUint32.
  rewrite truncate_of_Z, Z.mod_small by lia.
  destruct (Z.leb_spec z 2147483647); [done|lia].
Qed.

(** The size that [createCanvas] computes without a reference element,
    for a pixel size [mp / 2 ^ kp] and a scale [ms / 2 ^ ks] with which
    it is computed exactly: [n] cells of [cell] pixels of the glyph
    grid each. *)
Lemma grid_size_exact (n cell mp kp ms ks : Z) :
  0 < mp → 0 < ms → 0 ≤ kp ≤ 500 → 0 ≤ ks ≤ 500 →
  0 < n * cell * mp * ms < 2 ^ 31 → 0 ≤ n → 0 ≤ cell →
  (of_Z cell * dyadic mp kp * dyadic ms ks)%num
    = dyadic (cell * (mp * ms)) (kp + ks)
  ∧ (of_Z n * dyadic (cell * (mp * ms)) (kp + ks))%num
    = dyadic (n * cell * mp * ms) (kp + ks)
  ∧ ((of_Z n - of_Z 1) * dyadic (cell * (mp * ms)) (kp + ks)
     + dyadic (cell * (mp * ms)) (kp + ks))%num
    = dyadic (n * cell * mp * ms) (kp + ks)
  ∧ 0 < n < 2 ^ 31 ∧ 0 < cell < 2 ^ 31 ∧ mp * ms < 2 ^ 31
  ∧ cell * (mp * ms) < 2 ^ 31.
Proof.
  intros Hmp Hms Hkp Hks Hsize Hn Hcell.
  assert (0 < n) by nia. assert (0 < cell) by nia.
  assert (n ≤ n * cell) by nia.
  assert (n * cell ≤ n * cell * mp) by nia.
  assert (n * cell * mp ≤ n * cell * mp * ms) by nia.
  assert (cell * (mp * ms) ≤ n * cell * mp * ms) by nia.
  assert (mp * ms ≤ cell * (mp * ms)) by nia.
  assert (cell ≤ n * cell) by nia.
  assert (2 ^ 31 < 2 ^ 53) by done.
  split; [apply index_exact; lia|].
  split.
  { rewrite times_exact by lia. f_equal. ring. }
  split; [|lia].
  rewrite pred_exact, times_exact by nia.
  rewrite plus_exact by nia. f_equal. ring.
Qed.

(** The exact value of [n * cell * pixelSize * scale] for such a pixel
    size and scale. *)
Lemma real_product (n cell mp kp ms ks : Z) :
  0 < mp < 2 ^ 53 → 0 < ms < 2 ^ 53 → 0 ≤ kp ≤ 500 → 0 ≤ ks ≤ 500 →
  (inject_Z n * (inject_Z cell * real (dyadic mp kp) * real (dyadic ms ks))
   == (n * cell * mp * ms) # Z.to_pos (2 ^ (kp + ks)))%Q.
Proof.
  intros Hmp Hms Hkp Hks.
  rewrite !real_dyadic by (unfold fits; lia).
  assert (0 < 2 ^ kp) by (apply Z.pow_pos_nonneg; lia).
  assert (0 < 2 ^ ks) by (apply Z.pow_pos_nonneg; lia).
  unfold Qeq, Qmult, inject_Z. cbn [Qnum Qden].
  rewrite !Pos2Z.inj_mul, !Z2Pos.id, Z.pow_add_r by
    (try apply Z.pow_pos_nonneg; lia).
  ring.
Qed.

(** X14: when the pixel size [mp / 2 ^ kp] and the scale [ms / 2 ^ ks]
    are such that the sizes of the grid are computed exactly (they are
    whole multiples of [1 / 2 ^ (kp + ks)] below 2^31, as for the
    default 2.5 and 1), the canvas made without a reference element is
    the smallest whole number of pixels that holds the grid: never
    narrower or lower than [columns * cellWidth] by
    [(rows - 1) * lineHeight + cellHeight], and less than one pixel
    wider or higher. *)
Theorem canvas_holds_grid (self : t) (text : jsstring) (c : canvas)
    (mp kp ms ks : Z) :
  createCanvas self text None = Some c →
  pixelSize self = dyadic mp kp → scale self = dyadic ms ks →
  0 < mp → 0 < ms → 0 ≤ kp ≤ 500 → 0 ≤ ks ≤ 500 →
  0 < Spec.columns text * Z.of_nat (charWidth self) * mp * ms < 2 ^ 31 →
  0 < Spec.rowCount text * Z.of_nat (charHeight self) * mp * ms < 2 ^ 31 →
  let cellWidth :=
    (inject_Z (Z.of_nat (charWidth self)) * real (pixelSize self)
     * real (scale self))%Q in
  let cellHeight :=
    (inject_Z (Z.of_nat (charHeight self)) * real (pixelSize self)
     * real (scale self))%Q in
  let w := (inject_Z (Spec.columns text) * cellWidth)%Q in
  let h := (inject_Z (Spec.rowCount text - 1) * cellHeight + cellHeight)%Q in
  (w <= inject_Z (width c))%Q ∧ (inject_Z (width c) < w + 1)%Q
  ∧ (h <= inject_Z (height c))%Q ∧ (inject_Z (height c) < h + 1)%Q.
Proof.
  intros Hc Hps Hsc Hmp Hms Hkp Hks Hw Hh cellWidth cellHeight w h.
  pose proof (createCanvas_columns _ _ _ _ Hc) as Hcols.
  destruct (createCanvas_width_height _ _ _ _ Hc) as [-> ->].
  unfold charPixelWidth, resolved_lineHeight, charPixelHeight, of_nat.
  rewrite Hps, Hsc.
  destruct (grid_size_exact (Spec.columns text) (Z.of_nat (charWidth self))
              mp kp ms ks) as (-> & -> & _ & ? & ? & ? & ?);
    [lia..|].
  destruct (grid_size_exact (Spec.rowCount text) (Z.of_nat (charHeight self))
              mp kp ms ks) as (-> & _ & -> & ? & ? & ? & ?);
    [lia| lia| lia| lia| lia| unfold Spec.rowCount; lia| lia|].
  set (gw := Spec.columns text * Z.of_nat (charWidth self) * mp * ms) in *.
  set (gh := Spec.rowCount text * Z.of_nat (charHeight self) * mp * ms) in *.
  set (k := kp + ks).
  assert (0 < 2 ^ k) as Hpow by (apply Z.pow_pos_nonneg; lia).
  pose proof (ceiling_bounds gw k ltac:(lia)) as HW.
  pose proof (ceiling_bounds gh k ltac:(lia)) as HH.
  assert (2 ^ 31 = 2147483648) as E31 by done.
  rewrite !ceil_dyadic by (unfold fits; lia).
  rewrite !dimension_of_Z by nia.
  assert (mp < 2 ^ 53 ∧ ms < 2 ^ 53) as [? ?] by nia.
  assert (w == gw # Z.to_pos (2 ^ k))%Q as ->.
  { subst w cellWidth. rewrite Hps, Hsc, <- !Qmult_assoc.
    rewrite (Qmult_assoc (inject_Z (Z.of_nat (charWidth self)))).
    by apply real_product. }
  assert (h == gh # Z.to_pos (2 ^ k))%Q as ->.
  { subst h cellHeight. rewrite Hps, Hsc.
    transitivity
      (inject_Z (Spec.rowCount text)
       * (inject_Z (Z.of_nat (charHeight self)) * real (dyadic mp kp)
          * real (dyadic ms ks)))%Q.
    - unfold Z.sub. rewrite inject_Z_plus, inject_Z_opp.
      change (inject_Z 1) with 1%Q. ring.
    - by apply real_product. }
  unfold Qle, Qlt, Qplus, inject_Z. cbn [Qnum Qden].
  rewrite !Pos.mul_1_r, !Z2Pos.id by done. lia.
Qed.

(** Three columns of the default cell, 12.5 wide: 37.5, held by a
    canvas 38 wide. *)
Lemma canvas_holds_grid_witness :
  ∃ c, createCanvas page_default (js "A .") None = Some c
    ∧ (inject_Z (Spec.columns (js "A ."))
       * (inject_Z (Z.of_nat (charWidth page_default))
          * real (pixelSize page_default) * real (scale page_default))
       <= inject_Z (width c))%Q
    ∧ (inject_Z (width c)
       < inject_Z (Spec.columns (js "A ."))
         * (inject_Z (Z.of_nat (charWidth page_default))
            * real (pixelSize page_default) * real (scale page_default))
         + 1)%Q.
Proof.
  destruct (createCanvas page_default (js "A .") None) as [c|] eqn:Hc;
    [|vm_compute in Hc; discriminate Hc].
  exists c. split; [reflexivity|].
  pose proof (canvas_holds_grid page_default (js "A .") c 5 1 1 0 Hc)
    as (Hw1 & Hw2 & _);
    [reflexivity|reflexivity|lia|lia|lia|lia|vm_compute; done
    |vm_compute; done|].
  split; [exact Hw1|exact Hw2].
Defined.


Lemma concat_if_filter {A B : Type} (P : A → bool) (f : A → B) (l : list A) :
  concat ((λ a, if P a then [f a] else []) <$> l)
  = f <$> filter (λ a, P a = true) l.
Proof.
  induction l as [|a l IH]; csimpl; [done|].
  rewrite IH, filter_cons. destruct (P a) eqn:Ha.
  - by rewrite decide_True.
  - by rewrite decide_False.
Qed.

Lemma cells_concat {B : Type} (f : nat → nat → list B) (h w : nat) :
  concat ((λ y, concat ((λ x, f y x) <$> seq 0 w)) <$> seq 0 h)
  = concat ((λ yx, f yx.1 yx.2) <$> Layout.cells h w).
Proof.
  unfold Layout.cells. induction (seq 0 h) as [|y l IH]; csimpl; [done|].
  rewrite fmap_app, concat_app, IH. f_equal.
  by rewrite <- list_fmap_compose.
Qed.

Lemma draw_glyph_closed self g cx cy :
  filled (draw_glyph self g cx cy blank_context)
  = (λ pyx, Layout.glyph_pixel self cx cy pyx.1 pyx.2)
      <$> Layout.lit_cells self g.
Proof.
  unfold draw_glyph, Layout.lit_cells.
  rewrite <- (concat_if_filter (λ yx, pixel_on g yx.1 yx.2)
                (λ pyx, Layout.glyph_pixel self cx cy pyx.1 pyx.2)).
  rewrite <- (cells_concat (λ py px,
    if pixel_on g py px then [Layout.glyph_pixel self cx cy py px] else [])).
  assert (∀ py px, appends (λ ctx,
            if pixel_on g py px then
              fillRect (cx + of_nat px * pixelSize self * scale self)%num
                       (cy + of_nat py * pixelSize self * scale self)%num
                       (pixelSize self * scale self)%num
                       (pixelSize self * scale self)%num ctx
            else ctx)) as Hpx.
  { intros py px. destruct (pixel_on g py px);
      [apply appends_fillRect|apply appends_skip]. }
  match goal with
  | |- filled (foldl ?step _ ?l) = _ =>
      destruct (appends_foldl step l) as [_ ->]
  end.
  { intros py. apply appends_foldl. intros px. apply Hpx. }
  f_equal. apply list_fmap_ext. intros _ py _.
  match goal with
  | |- filled (foldl ?step _ ?l) = _ =>
      destruct (appends_foldl step l) as [_ ->]
  end.
  { intros px. apply Hpx. }
  f_equal. apply list_fmap_ext. intros _ px _.
  destruct (pixel_on g py px); [|done].
  by unfold fillRect, Layout.glyph_pixel.
Qed.

Lemma hasPixels_false self g :
  hasPixels self g = false → Layout.lit_cells self g = [].
Proof.
  unfold hasPixels, Layout.lit_cells, Layout.cells. intros H.
  induction (seq 0 (charHeight self)) as [|py l IH]; [done|].
  cbn [existsb] in H. apply orb_false_iff in H as [Hrow H].
  csimpl. rewrite list.filter_app, (IH H), app_nil_r. clear IH H.
  induction (seq 0 (charWidth self)) as [|px l' IH]; [done|].
  cbn [existsb] in Hrow. apply orb_false_iff in Hrow as [Hpx Hrow].
  csimpl. rewrite filter_cons, decide_False; [by apply IH|].
  simpl. by rewrite Hpx.
Qed.

Lemma cell_rects_closed self cpw lineY line x :
  cell_rects self cpw lineY line x
  = if is_skipped (default SPACE (line !! x)) then []
    else
      (λ pyx, Layout.glyph_pixel self (of_nat x * cpw)%num lineY
                pyx.1 pyx.2)
        <$> Layout.lit_cells self
              (glyph_of self (default SPACE (line !! x))).
Proof.
  unfold cell_rects, draw_cell.
  destruct (is_skipped _); [done|].
  destruct (hasPixels self _) eqn:Hp; cbn [negb].
  - apply draw_glyph_closed.
  - by rewrite (hasPixels_false _ _ Hp).
Qed.

Lemma createCanvas_cells (self : t) (text : jsstring)
    (originalElement : option element) (c : canvas) :
  createCanvas self text originalElement = Some c →
  filled (ctx2d c)
  = concat ((λ yx,
      Layout.cell_pixels self (charPixelWidth self originalElement)
        (resolved_lineHeight self originalElement) (Spec.rows text)
        yx.1 yx.2)
      <$> Layout.cells (length (Spec.rows text))
            (Z.to_nat (Spec.columns text))).
Proof.
  intros Hc. apply createCanvas_rectangles in Hc as [_ ->].
  rewrite <- (cells_concat (λ y x,
    Layout.cell_pixels self (charPixelWidth self originalElement)
      (resolved_lineHeight self originalElement) (Spec.rows text) y x)).
  f_equal. apply list_fmap_ext. intros _ y _. f_equal.
  apply list_fmap_ext. intros _ x _.
  by rewrite cell_rects_closed.
Qed.

(** X15: what [createCanvas] draws: for each cell of the grid, row by
    row and left to right, nothing if its character is a space, a tab, a
    line feed or a carriage return, else one square of side [pixelSize
    * scale] for each cell that is on in the character's glyph, at
    [(x * cellWidth + px * pixelSize * scale,
      y * lineHeight + py * pixelSize * scale)], in reading order of the
    glyph; the test for an empty glyph changes nothing. *)
Theorem createCanvas_drawing (self : t) (text : jsstring)
    (originalElement : option element) (c : canvas) :
  createCanvas self text originalElement = Some c →
  filled (ctx2d c)
  = concat ((λ yx,
      Layout.cell_pixels self (charPixelWidth self originalElement)
        (resolved_lineHeight self originalElement) (Spec.rows text)
        yx.1 yx.2)
      <$> Layout.cells (length (Spec.rows text))
            (Z.to_nat (Spec.columns text))).
Proof. apply createCanvas_cells. Qed.

Lemma createCanvas_drawing_witness :
  ∃ c, createCanvas page_default (js ". ") None = Some c
    ∧ filled (ctx2d c)
      = [Layout.glyph_pixel page_default (of_Z 0) (of_Z 0) 5 2;
         Layout.glyph_pixel page_default (of_Z 0) (of_Z 0) 6 2].
Proof.
  destruct (createCanvas page_default (js ". ") None) as [c|] eqn:Hc;
    [|vm_compute in Hc; discriminate Hc].
  exists c. split; [reflexivity|].
  rewrite (createCanvas_drawing page_default (js ". ") None c Hc).
  vm_compute. reflexivity.
Defined.


Lemma elem_of_cells (h w y x : nat) :
  (y, x) ∈ Layout.cells h w ↔ (y < h ∧ x < w)%nat.
Proof.
  unfold Layout.cells.
  assert (∀ l : list nat,
            (y, x) ∈ concat ((λ y, (λ x, (y, x)) <$> seq 0 w) <$> l)
            ↔ y ∈ l ∧ (x < w)%nat) as H.
  { induction l as [|y' l IH]; csimpl.
    - split; [by intros ?%elem_of_nil|by intros [?%elem_of_nil _]].
    - rewrite elem_of_app, IH, elem_of_cons, list_elem_of_fmap. split.
      + intros [(x' & [= -> ->] & Hx%elem_of_seq)|[? ?]];
          (split; [auto|lia]).
      + intros [[->|Hy] Hx]; [left|by right].
        exists x. split; [done|]. apply elem_of_seq. lia. }
  rewrite H, elem_of_seq. lia.
Qed.

(** The corner of a square of a glyph, computed exactly: cell [n] of
    cells [cell] glyph pixels wide, pixel [i] of the glyph. *)
Lemma corner_exact (n cell i mp kp ms ks : Z) :
  0 < mp → 0 < ms → 0 ≤ kp ≤ 500 → 0 ≤ ks ≤ 500 →
  0 ≤ n → 0 ≤ i < cell → (n + 1) * cell * mp * ms < 2 ^ 31 →
  (of_Z n * (of_Z cell * dyadic mp kp * dyadic ms ks)
   + of_Z i * dyadic mp kp * dyadic ms ks)%num
  = dyadic ((n * cell + i) * (mp * ms)) (kp + ks).
Proof.
  intros Hmp Hms Hkp Hks Hn Hi Hlt.
  assert (2 ^ 31 < 2 ^ 53) by done.
  assert (0 < mp * ms) as Hside by nia.
  replace ((n + 1) * cell * mp * ms) with ((n + 1) * cell * (mp * ms)) in Hlt
    by ring.
  set (side := mp * ms) in *.
  assert (0 < cell) by lia.
  pose proof (le_mul_pos ((n + 1) * cell) side ltac:(nia) Hside).
  pose proof (le_mul_pos (n + 1) cell ltac:(lia) ltac:(lia)).
  pose proof (le_mul_pos side cell ltac:(lia) ltac:(lia)).
  assert (cell * side ≤ (n + 1) * cell * side) by nia.
  assert (n * (cell * side) ≤ (n + 1) * cell * side) by nia.
  assert (i * side ≤ cell * side) by nia.
  assert ((n * cell + i) * side ≤ (n + 1) * cell * side) by nia.
  assert (n < 2 ^ 31) by lia.
  rewrite !index_exact by nia.
  rewrite times_exact by nia.
  rewrite plus_exact by nia. f_equal. subst side. ring.
Qed.

Lemma corner_bound (n cells cell i side : Z) :
  0 ≤ n → n + 1 ≤ cells → 0 ≤ i < cell → 0 < side →
  0 ≤ (n * cell + i) * side
  ∧ (n + 1) * cell * side ≤ cells * cell * side
  ∧ (n * cell + i) * side + side ≤ cells * cell * side.
Proof.
  intros Hn Hle Hi Hside.
  assert ((n + 1) * cell * side ≤ cells * cell * side).
  { repeat apply Z.mul_le_mono_nonneg_r; lia. }
  assert ((n * cell + i + 1) * side ≤ (n + 1) * cell * side).
  { apply Z.mul_le_mono_nonneg_r; nia. }
  split; [nia|]. split; [done|]. lia.
Qed.

(** A span [a / 2 ^ k] followed by a span [b / 2 ^ k] ends within
    [size] when [a + b] is at most [size * 2 ^ k]. *)
Lemma span_inside (a b k size : Z) :
  0 ≤ a → 0 ≤ b → a + b < 2 ^ 53 → 0 ≤ k ≤ 1074 →
  a + b ≤ size * 2 ^ k →
  (0 <= real (dyadic a k))%Q
  ∧ (real (dyadic a k) + real (dyadic b k) <= inject_Z size)%Q.
Proof.
  intros Ha Hb Hlt Hk Hle.
  assert (0 < 2 ^ k) by (apply Z.pow_pos_nonneg; lia).
  rewrite !real_dyadic by (unfold fits; lia).
  unfold Qle, Qplus, inject_Z. cbn [Qnum Qden].
  rewrite ?Pos2Z.inj_mul, !Z2Pos.id by done. nia.
Qed.

(** X16: when the pixel size [mp / 2 ^ kp] and the scale [ms / 2 ^ ks]
    are such that the sizes of the grid are computed exactly (they are
    whole multiples of [1 / 2 ^ (kp + ks)] below 2^31, as for the
    default 2.5 and 1), every square that [createCanvas] fills without
    a reference element lies within the canvas. *)
Theorem squares_inside_canvas (self : t) (text : jsstring) (c : canvas)
    (mp kp ms ks : Z) :
  createCanvas self text None = Some c →
  pixelSize self = dyadic mp kp → scale self = dyadic ms ks →
  0 < mp → 0 < ms → 0 ≤ kp ≤ 500 → 0 ≤ ks ≤ 500 →
  0 < Spec.columns text * Z.of_nat (charWidth self) * mp * ms < 2 ^ 31 →
  0 < Spec.rowCount text * Z.of_nat (charHeight self) * mp * ms < 2 ^ 31 →
  Forall (Layout.inside (width c) (height c)) (filled (ctx2d c)).
Proof.
  intros Hc Hps Hsc Hmp Hms Hkp Hks Hw Hh.
  pose proof (createCanvas_columns _ _ _ _ Hc) as Hcols.
  rewrite (createCanvas_cells _ _ _ _ Hc).
  destruct (createCanvas_width_height _ _ _ _ Hc) as [-> ->].
  unfold charPixelWidth, resolved_lineHeight, charPixelHeight, of_nat.
  rewrite Hps, Hsc.
  destruct (grid_size_exact (Spec.columns text) (Z.of_nat (charWidth self))
              mp kp ms ks) as (Ecw & Ew & _ & ? & ? & ? & ?);
    [lia..|].
  destruct (grid_size_exact (Spec.rowCount text) (Z.of_nat (charHeight self))
              mp kp ms ks) as (Ech & _ & Eh & ? & ? & ? & ?);
    [lia| lia| lia| lia| lia| unfold Spec.rowCount; lia| lia|].
  rewrite <- Ecw in Ew. rewrite <- Ech in Eh. rewrite Ew, Eh.
  clear Ecw Ew Ech Eh.
  set (gw := Spec.columns text * Z.of_nat (charWidth self) * mp * ms) in *.
  set (gh := Spec.rowCount text * Z.of_nat (charHeight self) * mp * ms) in *.
  set (k := kp + ks) in *.
  assert (0 < 2 ^ k) as Hpow by (apply Z.pow_pos_nonneg; lia).
  pose proof (ceiling_bounds gw k ltac:(lia)) as HW.
  pose proof (ceiling_bounds gh k ltac:(lia)) as HH.
  assert (2 ^ 31 = 2147483648) as E31 by done.
  assert (2 ^ 31 < 2 ^ 53) as E53 by done.
  rewrite !ceil_dyadic by (unfold fits; lia).
  rewrite !dimension_of_Z by nia.
  apply Forall_concat, Forall_fmap, list.Forall_forall.
  intros [y x] Hyx%elem_of_cells. destruct Hyx as [Hy Hx].
  unfold compose, Layout.cell_pixels. cbv zeta. cbn [fst snd].
  destruct (is_skipped (Layout.cell_char _ _ _)); [constructor|].
  apply Forall_fmap, list.Forall_forall. intros [py px] Hp.
  unfold compose. cbn [fst snd].
  unfold Layout.lit_cells in Hp.
  apply list_elem_of_filter in Hp as [_ Hp%elem_of_cells].
  destruct Hp as [Hpy Hpx].
  unfold Layout.inside, Layout.glyph_pixel, of_nat. cbn [rx ry rw rh].
  rewrite Hps, Hsc.
  assert (0 < mp * ms) as Hside by nia.
  replace gw
    with (Spec.columns text * Z.of_nat (charWidth self) * (mp * ms)) in *
    by (unfold gw; ring).
  replace gh
    with (Spec.rowCount text * Z.of_nat (charHeight self) * (mp * ms)) in *
    by (unfold gh; ring).
  clear gw gh.
  destruct (corner_bound (Z.of_nat x) (Spec.columns text)
              (Z.of_nat (charWidth self)) (Z.of_nat px) (mp * ms))
    as (Hx0 & Hx1 & Hx2); [lia..|].
  destruct (corner_bound (Z.of_nat y) (Spec.rowCount text)
              (Z.of_nat (charHeight self)) (Z.of_nat py) (mp * ms))
    as (Hy0 & Hy1 & Hy2); [lia|unfold Spec.rowCount; lia|lia|lia|].
  rewrite (corner_exact (Z.of_nat x) (Z.of_nat (charWidth self)))
    by (rewrite <- ?Z.mul_assoc in *; lia).
  rewrite (corner_exact (Z.of_nat y) (Z.of_nat (charHeight self)))
    by (rewrite <- ?Z.mul_assoc in *; lia).
  rewrite side_exact by lia.
  fold k.
  destruct (span_inside
              ((Z.of_nat x * Z.of_nat (charWidth self) + Z.of_nat px)
               * (mp * ms))
              (mp * ms) k
              (- (- (Spec.columns text * Z.of_nat (charWidth self)
                     * (mp * ms)) / 2 ^ k))) as [? ?]; [lia..|].
  destruct (span_inside
              ((Z.of_nat y * Z.of_nat (charHeight self) + Z.of_nat py)
               * (mp * ms))
              (mp * ms) k
              (- (- (Spec.rowCount text * Z.of_nat (charHeight self)
                     * (mp * ms)) / 2 ^ k))) as [? ?]; [lia..|].
  done.
Qed.

Lemma squares_inside_canvas_witness :
  ∃ c, createCanvas page_default (js "A .") None = Some c
    ∧ Forall (Layout.inside (width c) (height c)) (filled (ctx2d c)).
Proof.
  destruct (createCanvas page_default (js "A .") None) as [c|] eqn:Hc;
    [|vm_compute in Hc; discriminate Hc].
  exists c. split; [reflexivity|].
  apply (squares_inside_canvas page_default (js "A .") c 5 1 1 0 Hc);
    [reflexivity|reflexivity|lia|lia|lia|lia|vm_compute; done
    |vm_compute; done].
Defined.

(** Where the sizes are rounded the squares need not fit: at pixel size
    0.04 fifteen [M] give a canvas 3 wide, and the last square begins
    at the number just above 2.96 and so ends beyond 3. *)
Example rounded_square_beyond_canvas :
  ∃ c r,
    createCanvas
      (constructor []
         (Options (Some (decimal 4 100)) None None None None None))
      (replicate 15 77) None = Some c
    ∧ list.last (filled (ctx2d c)) = Some r
    ∧ width c = 3
    ∧ ¬ (real (rx r) + real (rw r) <= inject_Z (width c))%Q.
Proof.
  eexists _, _. split; [vm_compute; reflexivity|].
  split; [vm_compute; reflexivity|].
  split; [reflexivity|].
  intros H. apply H. vm_compute. reflexivity.
Qed.


Lemma split_elem sep (s l : jsstring) (c : Z) :
  l ∈ split sep s → c ∈ l → c ∈ s.
Proof.
  revert l. induction s as [|d s IH]; intros l; simpl.
  - intros ->%list_elem_of_singleton. done.
  - destruct (decide (d = sep)).
    + intros [->|Hl]%elem_of_cons Hc; [by apply elem_of_nil in Hc|].
      right. by apply (IH l).
    + pose proof (split_nonempty sep s) as Hne.
      destruct (split sep s) as [|l0 ls]; [done|].
      intros [->|Hl]%elem_of_cons Hc.
      * apply elem_of_cons in Hc as [->|Hc]; [by left|].
        right. apply (IH l0); [by left|done].
      * right. apply (IH l); [by right|done].
Qed.

Lemma rows_elem (text row : jsstring) (c : Z) :
  row ∈ Spec.rows text → c ∈ row → c ∈ text.
Proof.
  unfold Spec.rows. intros (l & -> & Hl)%list_elem_of_fmap Hc.
  apply (split_elem LF text l); [done|].
  unfold Spec.strip_cr in Hc. case_decide; [|done].
  apply elem_of_take in Hc as (i & Hi & _).
  by eapply list_elem_of_lookup_2.
Qed.

Lemma cell_char_elem (text : jsstring) (y x : nat) :
  Layout.cell_char (Spec.rows text) y x = SPACE
  ∨ Layout.cell_char (Spec.rows text) y x ∈ text.
Proof.
  unfold Layout.cell_char.
  destruct (Spec.rows text !! y) as [row|] eqn:Hrow; [|by left].
  simpl. destruct (row !! x) as [c|] eqn:Hc; [|by left].
  right. simpl. eapply rows_elem; by eapply list_elem_of_lookup_2.
Qed.

(** X17: a text of spaces, tabs, carriage returns and line feeds only
    gives a canvas, when it gives one, on which nothing is drawn. *)
Theorem blank_text_draws_nothing (self : t) (text : jsstring)
    (originalElement : option element) (c : canvas) :
  Forall (λ u, u ∈ Spec.whitespace) text →
  createCanvas self text originalElement = Some c →
  filled (ctx2d c) = [].
Proof.
  intros Hws Hc. rewrite (createCanvas_cells _ _ _ _ Hc).
  apply concat_nil_Forall, Forall_fmap, Forall_true.
  intros [y x]. unfold compose, Layout.cell_pixels. cbv zeta. cbn [fst snd].
  assert (is_skipped (Layout.cell_char (Spec.rows text) y x) = true) as ->;
    [|done].
  destruct (cell_char_elem text y x) as [->|Hin]; [done|].
  rewrite list.Forall_forall in Hws. specialize (Hws _ Hin).
  unfold Spec.whitespace in Hws. set_unfold in Hws.
  destruct Hws as [->|[->|[->|[->|[]]]]]; reflexivity.
Qed.

Lemma blank_text_draws_nothing_witness :
  ∃ c, createCanvas page_default [SPACE; TAB; LF; SPACE; CR] None = Some c
    ∧ filled (ctx2d c) = [] ∧ width c = 25 ∧ height c = 35.
Proof.
  destruct (createCanvas page_default [SPACE; TAB; LF; SPACE; CR] None)
    as [c|] eqn:Hc; [|vm_compute in Hc; discriminate Hc].
  exists c. split; [reflexivity|]. split.
  - apply (blank_text_draws_nothing page_default
             [SPACE; TAB; LF; SPACE; CR] None c); [|exact Hc].
    repeat constructor.
  - vm_compute in Hc. injection Hc as <-. split; reflexivity.
Defined.

Lemma filter_none {A : Type} (P : A → Prop) `{∀ a, Decision (P a)}
    (l : list A) :
  (∀ a, ¬ P a) → filter P l = [].
Proof.
  intros HP. induction l as [|a l IH]; [done|].
  rewrite filter_cons, decide_False; [done|apply HP].
Qed.

Lemma pixel_on_blank (h w py px : nat) : pixel_on (blank h w) py px = false.
Proof.
  unfold pixel_on, blank.
  destruct (replicate h (replicate w false) !! py) as [row|] eqn:Hrow;
    [|done].
  apply lookup_replicate in Hrow as [-> _].
  destruct (replicate w false !! px) as [b|] eqn:Hb; [|done].
  by apply lookup_replicate in Hb as [-> _].
Qed.

(** X18: a character that is not a key of the font table, although it
    is no white space either, draws nothing: its cell is left empty. *)
Theorem missing_glyph_draws_nothing (self : t)
    (charPixelWidth lineY : number)
    (line : jsstring) (x : nat) (c : Z) (ctx : context) :
  line !! x = Some c →
  pixelFont self !! [c] = None →
  cell_rects self charPixelWidth lineY line x = []
  ∧ draw_cell self charPixelWidth lineY line x ctx = ctx.
Proof.
  intros Hx Hc.
  assert (cell_rects self charPixelWidth lineY line x = []) as Hrects.
  { rewrite cell_rects_closed, Hx. simpl.
    destruct (is_skipped c); [done|].
    unfold glyph_of, pixelFont_get. rewrite Hc. simpl.
    unfold Layout.lit_cells. rewrite filter_none; [done|].
    intros [py px]. simpl. by rewrite pixel_on_blank. }
  split; [done|].
  rewrite (appends_draw_cell self charPixelWidth lineY line x ctx).
  fold (cell_rects self charPixelWidth lineY line x). rewrite Hrects.
  destruct ctx. simpl. by rewrite app_nil_r.
Qed.

Lemma missing_glyph_draws_nothing_witness :
  cell_rects page_default (decimal 25 2) (of_Z 0) (js "Hi") 1 = [].
Proof.
  apply (missing_glyph_draws_nothing page_default (decimal 25 2) (of_Z 0)
           (js "Hi") 1 105 blank_context); reflexivity.
Defined.

(** X19: the font has no lowercase letters but [o] and [x]: whatever
    the options, the other twenty-four are not keys of the table. *)
Theorem lowercase_not_in_font (cssPrimary : jsstring) (o : options) (c : Z) :
  97 ≤ c ≤ 122 → c ≠ 111 → c ≠ 120 →
  pixelFont (constructor cssPrimary o) !! [c] = None.
Proof.
  intros Hc Ho Hx.
  change (pixelFont (constructor cssPrimary o))
    with (fontTable (or_nat (opt_charHeight o) 7)
                    (or_nat (opt_charWidth o) 5)).
  generalize (or_nat (opt_charHeight o) 7) as h.
  generalize (or_nat (opt_charWidth o) 5) as w. intros w h.
  assert (∃ n : nat, c = 97 + Z.of_nat n ∧ (n < 26)%nat) as (n & -> & Hn).
  { exists (Z.to_nat (c - 97)). lia. }
  do 26 (destruct n as [|n];
         [first [done | vm_compute; reflexivity]|]).
  lia.
Qed.

Lemma lowercase_not_in_font_witness :
  pixelFont page_default !! js "a" = None.
Proof. apply (lowercase_not_in_font [] _ 97); lia. Defined.


Lemma split_join sep (rs : list jsstring) :
  rs ≠ [] → Forall (λ r, sep ∉ r) rs →
  split sep (Layout.join [sep] rs) = rs.
Proof.
  intros Hne Hall. induction Hall as [|r rs Hr Hall IH]; [done|].
  destruct rs as [|r' rs].
  - simpl. by apply split_no_sep.
  - change (Layout.join [sep] (r :: r' :: rs))
      with (r ++ sep :: Layout.join [sep] (r' :: rs)).
    rewrite split_at_sep by done. by rewrite IH.
Qed.

Lemma template_join (rows : list string) :
  rows ≠ [] →
  template rows = LF :: Layout.join [LF] (js <$> rows) ++ [LF].
Proof.
  intros Hne. unfold template. f_equal.
  induction rows as [|row rows IH]; [done|].
  destruct rows as [|row' rows].
  - simpl. by rewrite app_nil_r.
  - specialize (IH ltac:(done)).
    change (js <$> row :: row' :: rows)
      with (js row :: (js <$> row' :: rows)).
    change (Layout.join [LF] (js row :: (js <$> row' :: rows)))
      with (js row ++ [LF] ++ Layout.join [LF] (js <$> row' :: rows)).
    rewrite fmap_cons, concat_cons, IH. by rewrite <- !app_assoc.
Qed.

Lemma trimStart_keep (s : jsstring) (c : Z) :
  list.head s = Some c → is_white c = false → trimStart s = s.
Proof. destruct s as [|d s]; [done|]. intros [= ->] Hc. simpl. by rewrite Hc. Qed.

Lemma trim_between (body : jsstring) (c d : Z) :
  list.head body = Some c → is_white c = false →
  list.last body = Some d → is_white d = false →
  trim (LF :: body ++ [LF]) = body.
Proof.
  intros Hc Hwc Hd Hwd. unfold trim.
  change (trimStart (LF :: body ++ [LF])) with (trimStart (body ++ [LF])).
  rewrite (trimStart_keep (body ++ [LF]) c); [|by destruct body|done].
  rewrite reverse_app.
  change (reverse [LF] ++ reverse body) with (LF :: reverse body).
  change (trimStart (LF :: reverse body)) with (trimStart (reverse body)).
  rewrite (trimStart_keep (reverse body) d); [|by rewrite head_reverse|done].
  apply reverse_involutive.
Qed.

Lemma join_head sep (rs : list jsstring) :
  Forall (λ r, r ≠ []) rs → rs ≠ [] →
  ∃ c r, list.head (Layout.join sep rs) = Some c ∧ r ∈ rs ∧ c ∈ r.
Proof.
  intros Hall Hne. destruct Hall as [|r rs Hr Hall]; [done|].
  destruct r as [|c r]; [done|]. exists c, (c :: r).
  split; [by destruct rs|]. split; by left.
Qed.

Lemma join_last sep (rs : list jsstring) :
  Forall (λ r, r ≠ []) rs → rs ≠ [] →
  ∃ c r, list.last (Layout.join sep rs) = Some c ∧ r ∈ rs ∧ c ∈ r.
Proof.
  intros Hall Hne. induction Hall as [|r rs Hr Hall IH]; [done|].
  destruct rs as [|r' rs].
  - simpl. destruct (list.last r) as [c|] eqn:Hc.
    + exists c, r. split; [done|]. split; [by left|].
      apply last_Some in Hc as [l ->]. apply elem_of_app. right. by left.
    + by apply last_None in Hc.
  - destruct (IH ltac:(done)) as (c & r0 & Hc & Hr0 & Hin).
    exists c, r0. split; [|split; [by right|done]].
    change (Layout.join sep (r :: r' :: rs))
      with (r ++ sep ++ Layout.join sep (r' :: rs)).
    rewrite !last_app, Hc. done.
Qed.

(** The lines [pattern] reads from a template of the source. *)
Lemma template_lines (rows : list string) :
  rows ≠ [] →
  Forall (λ row, js row ≠ []
                 ∧ Forall (λ c, is_white c = false) (js row)) rows →
  split LF (trim (template rows)) = js <$> rows.
Proof.
  intros Hne Hall.
  assert (Forall (λ r : jsstring, r ≠ []) (js <$> rows)) as Hnonempty.
  { apply Forall_fmap. eapply list.Forall_impl; [exact Hall|]. by intros ? [? _]. }
  assert (∀ r c, r ∈ js <$> rows → c ∈ r → is_white c = false) as Hwhite.
  { intros r c (row & -> & Hrow)%list_elem_of_fmap Hc.
    rewrite list.Forall_forall in Hall.
    destruct (Hall _ Hrow) as [_ Hw].
    rewrite list.Forall_forall in Hw. by apply Hw. }
  assert (js <$> rows ≠ []) as Hne' by (by destruct rows).
  rewrite template_join by done.
  destruct (join_head [LF] _ Hnonempty Hne') as (c & r & Hc & Hr & Hin).
  destruct (join_last [LF] _ Hnonempty Hne') as (d & r' & Hd & Hr' & Hin').
  rewrite (trim_between _ c d); [|by eauto..].
  apply split_join; [done|].
  apply list.Forall_forall. intros r0 Hr0 Hlf.
  by specialize (Hwhite _ _ Hr0 Hlf).
Qed.

(** X20: how a template of the source is read: with rows that are not
    empty and hold no white space, cell [(y, x)] of the pattern is on
    exactly when it lies within the [h] by [w] grid and row [y] of the
    template has one of the marks [#], [X], [*] at place [x]; what a
    row has beyond the width is ignored, and a missing row or place is
    off. *)
Theorem pattern_reads_template (h w : nat) (rows : list string) (y x : nat) :
  rows ≠ [] →
  Forall (λ row, js row ≠ []
                 ∧ Forall (λ c, is_white c = false) (js row)) rows →
  pixel_on (pattern h w (template rows)) y x = true
  ↔ (y < h)%nat ∧ (x < w)%nat
    ∧ ∃ row c, rows !! y = Some row ∧ js row !! x = Some c
               ∧ is_mark c = true.
Proof.
  intros Hne Hall. unfold pattern, pixel_on.
  rewrite (template_lines rows Hne Hall).
  rewrite list_lookup_fmap.
  destruct (decide (y < h)%nat) as [Hy|Hy].
  2: { rewrite lookup_seq_ge by lia. simpl. split; [done|lia]. }
  rewrite lookup_seq_lt by done. cbn [fmap option_fmap option_map].
  rewrite list_lookup_fmap.
  destruct (decide (x < w)%nat) as [Hx|Hx].
  2: { rewrite lookup_seq_ge by lia. simpl. split; [done|lia]. }
  rewrite lookup_seq_lt by done. cbn [fmap option_fmap option_map default].
  rewrite list_lookup_fmap. simpl.
  destruct (rows !! y) as [row|] eqn:Hrow; simpl.
  - destruct (js row !! x) as [c|] eqn:Hc.
    + split.
      * intros Hm. repeat split; [done..|]. by exists row, c.
      * intros (_ & _ & row' & c' & [= <-] & Hc' & Hm). congruence.
    + split; [done|]. intros (_ & _ & row' & c' & [= <-] & Hc' & _).
      congruence.
  - split; [done|]. by intros (_ & _ & row' & c' & ? & _).
Qed.

Lemma pattern_reads_template_witness :
  pixel_on (pattern 7 5 (template ["#..#."; "##..#."; "#.#.."]%string)) 1 4
  = true.
Proof.
  apply (pattern_reads_template 7 5 ["#..#."; "##..#."; "#.#.."]%string 1 4);
    [done| |].
  - repeat constructor; vm_compute; discriminate.
  - split; [lia|]. split; [lia|]. exists "##..#."%string, 35.
    repeat split; reflexivity.
Defined.

End GlyphLayout.
